(** * Butterfly: tokenizer, parser, bytecode compiler and stack VM

    A shallow embedding of the Go packages [lexer], [ast], [parser],
    [compiler] and [vm] of the Butterfly repository, followed by the
    properties of the pipeline text -> tokens -> tree -> bytecode -> result.

    Conventions of the embedding:
    - a Go [string] is a sequence of bytes, here a Stdlib [string];
    - a [rune], a [byte] and an [int] are integers in [Z]; an [int64]
      result is wrapped with [wrap64];
    - a Go panic and a returned [error] are different outcomes: functions
      that can panic return a [result], whose [Panic] carries the
      arguments of the formatted message;
    - loops run on fuel, a bound computed from the input; [OutOfFuel] is
      the outcome of an exhausted bound. *)

From Stdlib Require Import ZArith Bool Ascii String Lia DecimalString.
From stdpp Require Import base tactics option list.

Local Open Scope Z_scope.

(** ** Shared runtime notions *)

(** A value of Go's [interface{}] as the VM stack and the constant pool
    hold it: the nil interface, an [int64], or a value of any other
    dynamic type (never produced by the compiler, but admissible in a
    hand-made constant pool). *)
Inductive Object : Type :=
| ONil
| OInt64 (n : Z)
| OForeign (tag : string).

(** The payload of a panic.  The lexer's panics carry the arguments of
    their [fmt.Sprintf] message; the runtime panics are those of the Go
    runtime for an index out of range, a slice out of bounds and a failed
    type assertion [x.(int64)]. *)
Inductive PanicValue : Type :=
| InvalidEscapeInChar (c line column : Z)
| UnclosedChar (startLine startCol : Z)
| InvalidEscapeInString (c line column : Z)
| UnclosedString (startLine startCol : Z)
| UnexpectedCharacter (c line column : Z)
| SliceBoundsOutOfRange
| IndexOutOfRange (i len : Z)
| InterfaceConversion (v : Object).

Inductive result (A : Type) : Type :=
| Ok (a : A)
| Panic (p : PanicValue)
| OutOfFuel.
Arguments Ok {A} a.
Arguments Panic {A} p.
Arguments OutOfFuel {A}.

Definition bind {A B : Type} (m : result A) (k : A -> result B) : result B :=
  match m with
  | Ok a => k a
  | Panic p => Panic p
  | OutOfFuel => OutOfFuel
  end.

Notation "'do' x <- m ; k" := (bind m (fun x => k))
  (at level 10, x pattern, m at level 100, k at level 200).

(** [int64] arithmetic wraps modulo 2^64 into [-2^63, 2^63). *)
Definition wrap64 (z : Z) : Z := (z + 2^63) mod 2^64 - 2^63.

(** Bytes of a Go string, and indexing [s[i]] as a rune. *)
Definition rune_of_ascii (a : ascii) : Z := Z.of_N (N_of_ascii a).

Definition bytes (s : string) : list Z := map rune_of_ascii (list_ascii_of_string s).

Definition byte_at (s : string) (i : nat) : option Z :=
  match String.get i s with
  | Some a => Some (rune_of_ascii a)
  | None => None
  end.

Definition ascii_of_byte (b : Z) : ascii := ascii_of_N (Z.to_N (b mod 256)).

Definition string_of_bytes (bs : list Z) : string :=
  string_of_list_ascii (map ascii_of_byte bs).

(** [string(r)] for a rune [r]: its UTF-8 encoding (U+FFFD for an invalid
    code point). *)
Definition string_of_rune (r : Z) : string :=
  string_of_bytes
    (if (r <? 0) || (1114111 <? r) || ((55296 <=? r) && (r <=? 57343)) then [239; 191; 189]
     else if r <? 128 then [r]
     else if r <? 2048 then [Z.lor 192 (Z.shiftr r 6); Z.lor 128 (Z.land r 63)]
     else if r <? 65536 then
       [Z.lor 224 (Z.shiftr r 12); Z.lor 128 (Z.land (Z.shiftr r 6) 63);
        Z.lor 128 (Z.land r 63)]
     else
       [Z.lor 240 (Z.shiftr r 18); Z.lor 128 (Z.land (Z.shiftr r 12) 63);
        Z.lor 128 (Z.land (Z.shiftr r 6) 63); Z.lor 128 (Z.land r 63)]).

(** ** Package unicode (Go standard library), on the Latin-1 range

    The lexer only ever passes runes obtained from one byte of the input
    (or 0), so the three predicates are given by their Latin-1 tables. *)
Module unicode.

Definition IsSpace (r : Z) : bool :=
  (r =? 9) || (r =? 10) || (r =? 11) || (r =? 12) || (r =? 13) || (r =? 32)
  || (r =? 133) || (r =? 160).

Definition IsDigit (r : Z) : bool := (48 <=? r) && (r <=? 57).

Definition IsLetter (r : Z) : bool :=
  ((65 <=? r) && (r <=? 90)) || ((97 <=? r) && (r <=? 122))
  || (r =? 170) || (r =? 181) || (r =? 186)
  || ((192 <=? r) && (r <=? 214)) || ((216 <=? r) && (r <=? 246))
  || ((248 <=? r) && (r <=? 255)).

End unicode.

(** ** Package strconv (Go standard library): [ParseInt(s, 0, 64)]

    The parser calls [strconv.ParseInt] with base 0 and bit size 64 only;
    the functions below are the library's [ParseUint], [underscoreOK] and
    [ParseInt] at these arguments.  Base 0 takes the base from the prefix
    of the text: [0b], [0o], [0x], or a plain leading [0] for octal. *)
Module strconv.

Inductive NumError : Type := ErrSyntax | ErrRange.

Definition lower (c : Z) : Z := Z.lor c 32.

Definition maxUint64 : Z := 2^64 - 1.

(** The scan of [underscoreOK] over the number proper; [saw] is one of
    the characters [^], [0], [_], [!]. *)
Fixpoint underscoreOK_loop (hex : bool) (s : list Z) (saw : Z) : bool :=
  match s with
  | [] => negb (saw =? 95)
  | c :: s' =>
      if ((48 <=? c) && (c <=? 57)) || (hex && (97 <=? lower c) && (lower c <=? 102))
      then underscoreOK_loop hex s' 48
      else if c =? 95 then
        if negb (saw =? 48) then false else underscoreOK_loop hex s' 95
      else if saw =? 95 then false
      else underscoreOK_loop hex s' 33
  end.

Definition underscoreOK (s : list Z) : bool :=
  let s := match s with
           | c :: s' => if (c =? 45) || (c =? 43) then s' else s
           | [] => s
           end in
  match s with
  | c0 :: c1 :: s' =>
      if (c0 =? 48) && ((lower c1 =? 98) || (lower c1 =? 111) || (lower c1 =? 120))
      then underscoreOK_loop (lower c1 =? 120) s' 48
      else underscoreOK_loop false s 94
  | _ => underscoreOK_loop false s 94
  end.

(** The digit loop of [ParseUint]: [inl] is an early return, [inr] the
    accumulated value and the [underscores] flag at the end of the text. *)
Fixpoint ParseUint_loop (base : Z) (s : list Z) (n : Z) (underscores : bool)
  : (Z * option NumError) + (Z * bool) :=
  match s with
  | [] => inr (n, underscores)
  | c :: s' =>
      if c =? 95 then ParseUint_loop base s' n true
      else
        let d := if (48 <=? c) && (c <=? 57) then Some (c - 48)
                 else if (97 <=? lower c) && (lower c <=? 122) then Some (lower c - 97 + 10)
                 else None in
        match d with
        | None => inl (0, Some ErrSyntax)
        | Some d =>
            if d >=? base then inl (0, Some ErrSyntax)
            else if n >=? maxUint64 / base + 1 then inl (maxUint64, Some ErrRange)
            else
              let n := n * base in
              let n1 := (n + d) mod 2^64 in
              if (n1 <? n) || (n1 >? maxUint64) then inl (maxUint64, Some ErrRange)
              else ParseUint_loop base s' n1 underscores
        end
  end.

(** [ParseUint(s, 0, 64)] on the bytes of [s]. *)
Definition ParseUint (s0 : list Z) : Z * option NumError :=
  match s0 with
  | [] => (0, Some ErrSyntax)
  | c0 :: rest =>
      let '(base, s) :=
        if c0 =? 48 then
          match rest with
          | c1 :: c2 :: rest' =>
              if lower c1 =? 98 then (2, c2 :: rest')
              else if lower c1 =? 111 then (8, c2 :: rest')
              else if lower c1 =? 120 then (16, c2 :: rest')
              else (8, rest)
          | _ => (8, rest)
          end
        else (10, s0) in
      match ParseUint_loop base s 0 false with
      | inl r => r
      | inr (n, underscores) =>
          if underscores && negb (underscoreOK s0) then (0, Some ErrSyntax)
          else (n, None)
      end
  end.

(** [ParseInt(s, 0, 64)]. *)
Definition ParseInt (str : string) : Z * option NumError :=
  let s0 := bytes str in
  match s0 with
  | [] => (0, Some ErrSyntax)
  | c :: s' =>
      let '(neg, s) := if c =? 43 then (false, s')
                       else if c =? 45 then (true, s')
                       else (false, s0) in
      match ParseUint s with
      | (_, Some ErrSyntax) => (0, Some ErrSyntax)
      | (un, _) =>
          let cutoff := 2^63 in
          if negb neg && (un >=? cutoff) then (cutoff - 1, Some ErrRange)
          else if neg && (un >? cutoff) then (- cutoff, Some ErrRange)
          else
            let n := wrap64 un in
            (if neg then wrap64 (- n) else n, None)
      end
  end.

End strconv.

(** ** Package lexer *)
Module lexer.

Inductive TokenType : Type :=
| PUBLIC | CLASS | STATIC | VOID | MAIN | CHAR | INT | PRINTF | SCANF | SWITCH
| CASE | DEFAULT | FOR | IF | ELSE | WHILE | DO | RETURN | BREAK | CONTINUE
| IDENTIFIER | STRING | CharConst | NUMBER
| ASSIGN | PLUS | MINUS | MULTIPLY | DIVIDE | LESS | LessEqual | GREAT
| GreatEqual | NOTEQ | NOT | EQUAL
| COMMA | SEMICOLON | COLON | LeftParen | RightParen | LeftBrace | RightBrace
| LeftBrack | RightBrack
| EOF.

(** [Type] is reserved in Rocq: the field [Type] of the Go struct is
    [Type_]. *)
Record Token : Type := mkToken {
  Type_ : TokenType;
  Value : string;
  Line : Z;
  Column : Z
}.

(** The zero value of [Token], which [parser.New] starts from. *)
Definition zeroToken : Token := mkToken PUBLIC "" 0 0.

(** [tokenTypeCodes] and [TokenType.Code]: the output code of a kind. *)
Definition Code (tt : TokenType) : string :=
  match tt with
  | PUBLIC => "PUBLIC" | CLASS => "CLASS" | STATIC => "STATIC" | VOID => "VOIDTK"
  | MAIN => "MAINTK" | CHAR => "CHARTK" | INT => "INTTK" | PRINTF => "PRINTFTK"
  | SCANF => "SCANFTK" | SWITCH => "SWITCHTK" | CASE => "CASETK" | DEFAULT => "DEFAULTTK"
  | FOR => "FORTK" | IF => "IFTK" | ELSE => "ELSETK" | WHILE => "WHILETK" | DO => "DOTK"
  | RETURN => "RETURNTK" | BREAK => "BREAKTK" | CONTINUE => "CONTINUETK"
  | IDENTIFIER => "IDENFR" | STRING => "STRCON" | CharConst => "CHARCON" | NUMBER => "INTCON"
  | ASSIGN => "ASSIGN" | PLUS => "PLUS" | MINUS => "MINU" | MULTIPLY => "MULT"
  | DIVIDE => "DIV" | LESS => "LSS" | LessEqual => "LEQ" | GREAT => "GRE"
  | GreatEqual => "GEQ" | NOTEQ => "NEQ" | NOT => "NOT" | EQUAL => "EQL"
  | COMMA => "COMMA" | SEMICOLON => "SEMICN" | COLON => "COLON" | LeftParen => "LPARENT"
  | RightParen => "RPARENT" | LeftBrace => "LBRACE" | RightBrace => "RBRACE"
  | LeftBrack => "LBRACK" | RightBrack => "RBRACK"
  | EOF => "EOF"
  end%string.

(** The verb [%-8s]: the text, padded with spaces on the right to a
    width of 8. *)
Fixpoint spaces_string (n : nat) : string :=
  match n with
  | O => ""
  | S n' => String " " (spaces_string n')
  end.

Definition pad8 (s : string) : string := (s ++ spaces_string (8 - String.length s))%string.

(** [Token.String]: [fmt.Sprintf("%-8s %s", t.Type.Code(), t.Value)]. *)
Definition String_ (t : Token) : string :=
  (pad8 (Code (Type_ t)) ++ String " " (Value t))%string.

Record Lexer : Type := mkLexer {
  input : string;
  pos : nat;
  line : Z;
  column : Z;
  currentChar : Z
}.

Definition reverseKeywords : list (string * TokenType) :=
  [ ("public", PUBLIC); ("class", CLASS); ("static", STATIC); ("void", VOID);
    ("main", MAIN); ("char", CHAR); ("int", INT); ("printf", PRINTF);
    ("scanf", SCANF); ("switch", SWITCH); ("case", CASE); ("default", DEFAULT);
    ("for", FOR); ("if", IF); ("else", ELSE); ("while", WHILE); ("do", DO);
    ("return", RETURN); ("break", BREAK); ("continue", CONTINUE) ]%string.

Fixpoint lookup_keyword (tbl : list (string * TokenType)) (value : string)
  : option TokenType :=
  match tbl with
  | [] => None
  | (k, code) :: tbl' => if String.eqb k value then Some code else lookup_keyword tbl' value
  end.

Definition New (input : string) : Lexer :=
  {| input := input; pos := 0%nat; line := 1; column := 1;
     currentChar := match byte_at input 0 with Some c => c | None => 0 end |}.

Definition advance (l : Lexer) : Lexer :=
  let '(line', column') :=
    if currentChar l =? 10 then (line l + 1, 0) else (line l, column l) in
  let pos' := S (pos l) in
  {| input := input l;
     pos := pos';
     line := line';
     column := column' + 1;
     currentChar := if (String.length (input l) <=? pos')%nat then 0
                    else match byte_at (input l) pos' with Some c => c | None => 0 end |}.

(** [for cond(l.currentChar) { l.advance() }], the loop of
    [skipWhitespace], [readIdentifier] and [readNumber]. *)
Fixpoint advance_while (cond : Z -> bool) (fuel : nat) (l : Lexer) : result Lexer :=
  if cond (currentChar l) then
    match fuel with
    | O => OutOfFuel
    | S fuel' => advance_while cond fuel' (advance l)
    end
  else Ok l.

(** Every loop of the lexer advances at least once per iteration and
    stops at the end of the input: the input left, plus one, bounds it. *)
Definition loop_fuel (l : Lexer) : nat := S (String.length (input l) - pos l).

Definition skipWhitespace (l : Lexer) : result Lexer :=
  advance_while unicode.IsSpace (loop_fuel l) l.

(** [s[lo:hi]] with the bounds check of the Go runtime. *)
Definition slice (s : string) (lo hi : nat) : result string :=
  if (lo <=? hi)%nat && (hi <=? String.length s)%nat
  then Ok (String.substring lo (hi - lo) s)
  else Panic SliceBoundsOutOfRange.

Definition readIdentifier (l : Lexer) : result (Token * Lexer) :=
  let startPos := pos l in
  let startLine := line l in
  let startCol := column l in
  do l <- advance_while (fun c => unicode.IsLetter c || unicode.IsDigit c) (loop_fuel l) l;
  do value <- slice (input l) startPos (pos l);
  let tokenType := match lookup_keyword reverseKeywords value with
                   | Some code => code
                   | None => IDENTIFIER
                   end in
  Ok (mkToken tokenType value startLine startCol, l).

Definition readNumber (l : Lexer) : result (Token * Lexer) :=
  let startPos := pos l in
  let startLine := line l in
  let startCol := column l in
  do l <- advance_while unicode.IsDigit (loop_fuel l) l;
  do value <- slice (input l) startPos (pos l);
  Ok (mkToken NUMBER value startLine startCol, l).

(** The [switch] on the character after a backslash in [readChar]:
    n, t, r, single quote, backslash. *)
Definition escapeInChar (l : Lexer) : result string :=
  let c := currentChar l in
  if c =? 110 then Ok (string_of_bytes [10])
  else if c =? 116 then Ok (string_of_bytes [9])
  else if c =? 114 then Ok (string_of_bytes [13])
  else if c =? 39 then Ok (string_of_bytes [39])
  else if c =? 92 then Ok (string_of_bytes [92])
  else Panic (InvalidEscapeInChar c (line l) (column l)).

Definition readChar (l : Lexer) : result (Token * Lexer) :=
  let startLine := line l in
  let startCol := column l in
  let l := advance l in
  do (value, l) <-
    (if currentChar l =? 92 then
       let l := advance l in
       do value <- escapeInChar l;
       Ok (value, advance l)
     else
       Ok (string_of_rune (currentChar l), advance l));
  if negb (currentChar l =? 39) then Panic (UnclosedChar startLine startCol)
  else
    let l := advance l in
    Ok (mkToken CharConst value startLine startCol, l).

(** The [switch] on the character after a backslash in [readString]:
    n, t, r, double quote, backslash. *)
Definition escapeInString (l : Lexer) : result string :=
  let c := currentChar l in
  if c =? 110 then Ok (string_of_bytes [10])
  else if c =? 116 then Ok (string_of_bytes [9])
  else if c =? 114 then Ok (string_of_bytes [13])
  else if c =? 34 then Ok (string_of_bytes [34])
  else if c =? 92 then Ok (string_of_bytes [92])
  else Panic (InvalidEscapeInString c (line l) (column l)).

Fixpoint readString_loop (fuel : nat) (l : Lexer) (value : string)
  : result (string * Lexer) :=
  if negb (currentChar l =? 34) && negb (currentChar l =? 0) then
    match fuel with
    | O => OutOfFuel
    | S fuel' =>
        if currentChar l =? 92 then
          let l := advance l in
          do v <- escapeInString l;
          readString_loop fuel' (advance l) (value ++ v)
        else
          readString_loop fuel' (advance l) (value ++ string_of_rune (currentChar l))
    end
  else Ok (value, l).

Definition readString (l : Lexer) : result (Token * Lexer) :=
  let startLine := line l in
  let startCol := column l in
  let l := advance l in
  do (value, l) <- readString_loop (loop_fuel l) l "";
  if negb (currentChar l =? 34) then Panic (UnclosedString startLine startCol)
  else
    let l := advance l in
    Ok (mkToken STRING value startLine startCol, l).

(** The operator and punctuation [switch] of [NextToken], entered after
    the character [currentChar] was saved and the lexer advanced. *)
Definition operatorToken (currentChar currentLine currentCol : Z) (l : Lexer)
  : result (Token * Lexer) :=
  let two (second : Z) (tt2 : TokenType) (s2 : string) (tt1 : TokenType) (s1 : string) :=
    if lexer.currentChar l =? second
    then Ok (mkToken tt2 s2 currentLine currentCol, advance l)
    else Ok (mkToken tt1 s1 currentLine currentCol, l) in
  let one (tt : TokenType) (s : string) := Ok (mkToken tt s currentLine currentCol, l) in
  if currentChar =? 61 then two 61 EQUAL "=="%string ASSIGN "="%string
  else if currentChar =? 33 then two 61 NOTEQ "!="%string NOT "!"%string
  else if currentChar =? 60 then two 61 LessEqual "<="%string LESS "<"%string
  else if currentChar =? 62 then two 61 GreatEqual ">="%string GREAT ">"%string
  else if currentChar =? 43 then one PLUS "+"%string
  else if currentChar =? 45 then one MINUS "-"%string
  else if currentChar =? 42 then one MULTIPLY "*"%string
  else if currentChar =? 47 then one DIVIDE "/"%string
  else if currentChar =? 59 then one SEMICOLON ";"%string
  else if currentChar =? 44 then one COMMA ","%string
  else if currentChar =? 40 then one LeftParen "("%string
  else if currentChar =? 41 then one RightParen ")"%string
  else if currentChar =? 123 then one LeftBrace "{"%string
  else if currentChar =? 125 then one RightBrace "}"%string
  else if currentChar =? 91 then one LeftBrack "["%string
  else if currentChar =? 93 then one RightBrack "]"%string
  else if currentChar =? 58 then one COLON ":"%string
  else Panic (UnexpectedCharacter currentChar currentLine currentCol).

(** The [for l.currentChar != 0] loop of [NextToken]; only the
    whitespace branch ([continue]) iterates. *)
Fixpoint NextToken_loop (fuel : nat) (l : Lexer) : result (Token * Lexer) :=
  if negb (currentChar l =? 0) then
    if unicode.IsSpace (currentChar l) then
      match fuel with
      | O => OutOfFuel
      | S fuel' => do l <- skipWhitespace l; NextToken_loop fuel' l
      end
    else if currentChar l =? 39 then readChar l
    else if currentChar l =? 34 then readString l
    else if unicode.IsLetter (currentChar l) then readIdentifier l
    else if unicode.IsDigit (currentChar l) then readNumber l
    else operatorToken (currentChar l) (line l) (column l) (advance l)
  else Ok (mkToken EOF "" (line l) (column l), l).

(** After [skipWhitespace] the current character is not a space, so the
    loop is entered at most twice. *)
Definition NextToken (l : Lexer) : result (Token * Lexer) := NextToken_loop 1 l.

(** The token stream up to the first [n] tokens or the end-of-input
    marker, as a caller that collects tokens sees it. *)
Fixpoint tokens (n : nat) (l : Lexer) : result (list Token) :=
  match n with
  | O => Ok []
  | S n' =>
      do (t, l) <- NextToken l;
      match Type_ t with
      | EOF => Ok [t]
      | _ => do ts <- tokens n' l; Ok (t :: ts)
      end
  end.

End lexer.

(** ** Package ast *)
Module ast.

(** A value of the interface [Node] (and of [Expression], the interface
    of the operand fields): the nil interface, one of the three node
    types of the package, or a node of any other type that implements
    the interface, known here by its [TokenLiteral].  Pointers to nodes
    are not nil. *)
Inductive Node : Type :=
| Nil
| Program (Expression : Node)
| IntegerLiteral (Token : lexer.Token) (Value : Z)
| InfixExpression (Token : lexer.Token) (Left : Node) (Operator : string) (Right : Node)
| Foreign (TokenLiteral : string).

End ast.

(** ** Package parser *)
Module parser.

(** An entry of [errors]: the message
    [fmt.Sprintf("could not parse %q as integer", text)], kept as the
    text it quotes. *)
Inductive Message : Type :=
| CouldNotParseAsInteger (text : string).

Record Parser : Type := mkParser {
  l : lexer.Lexer;
  errors : list Message;
  curToken : lexer.Token;
  peekToken : lexer.Token
}.

Definition nextToken (p : Parser) : result Parser :=
  do (t, l') <- lexer.NextToken (l p);
  Ok {| l := l'; errors := errors p; curToken := peekToken p; peekToken := t |}.

Definition New (l : lexer.Lexer) : result Parser :=
  let p := {| l := l; errors := []; curToken := lexer.zeroToken;
              peekToken := lexer.zeroToken |} in
  do p <- nextToken p;
  nextToken p.

Definition Errors (p : Parser) : list Message := errors p.

Definition parseIntegerLiteral (p : Parser) : ast.Node * Parser :=
  match strconv.ParseInt (lexer.Value (curToken p)) with
  | (_, Some _) =>
      let msg := CouldNotParseAsInteger (lexer.Value (curToken p)) in
      (ast.Nil,
       {| l := l p; errors := errors p ++ [msg]; curToken := curToken p;
          peekToken := peekToken p |})
  | (value, None) => (ast.IntegerLiteral (curToken p) value, p)
  end.

Definition parseInfixExpression (p : Parser) (left_ : ast.Node)
  : result (ast.Node * Parser) :=
  let token := curToken p in
  let operator := lexer.Value (curToken p) in
  do p <- nextToken p;
  let '(right_, p) := parseIntegerLiteral p in
  Ok (ast.InfixExpression token left_ operator right_, p).

Definition isPlusOrMinus (t : lexer.Token) : bool :=
  match lexer.Type_ t with
  | lexer.PLUS | lexer.MINUS => true
  | _ => false
  end.

Fixpoint parseExpression_loop (fuel : nat) (p : Parser) (left_ : ast.Node)
  : result (ast.Node * Parser) :=
  if isPlusOrMinus (peekToken p) then
    match fuel with
    | O => OutOfFuel
    | S fuel' =>
        do p <- nextToken p;
        do (left_, p) <- parseInfixExpression p left_;
        parseExpression_loop fuel' p left_
    end
  else Ok (left_, p).

(** The peeked token of every iteration but the first was read from the
    input left_, at least one character of it. *)
Definition parseExpression (p : Parser) : result (ast.Node * Parser) :=
  let '(left_, p) := parseIntegerLiteral p in
  parseExpression_loop (lexer.loop_fuel (l p)) p left_.

Definition ParseProgram (p : Parser) : result (ast.Node * Parser) :=
  do (expression, p) <- parseExpression p;
  Ok (ast.Program expression, p).

End parser.

(** ** Package compiler *)
Module compiler.

Definition OpConstant : Z := 0.
Definition OpAdd : Z := 1.
Definition OpSub : Z := 2.

(** The conversion [byte(o)] of an [int]. *)
Definition byte (o : Z) : Z := o mod 256.

Record Bytecode : Type := mkBytecode {
  Instructions : list Z;
  Constants : list Object
}.

Record Compiler : Type := mkCompiler {
  instructions : list Z;
  constants : list Object
}.

(** A Go [error]: nil or a message. *)
Definition error : Type := option string.

Definition New : Compiler := {| instructions := []; constants := [] |}.

Definition emit (c : Compiler) (op : Z) (operands : list Z) : Compiler :=
  let ins := fold_left (fun ins o => (ins ++ [byte (Z.shiftr o 8)]) ++ [byte o])
                       operands [byte op] in
  {| instructions := instructions c ++ ins; constants := constants c |}.

Fixpoint Compile (c : Compiler) (node : ast.Node) : Compiler * error :=
  match node with
  | ast.Program expression =>
      let '(c, err) := Compile c expression in
      match err with
      | Some _ => (c, err)
      | None => (c, None)
      end
  | ast.InfixExpression _ left_ operator right_ =>
      let '(c, err) := Compile c left_ in
      match err with
      | Some _ => (c, err)
      | None =>
          let '(c, err) := Compile c right_ in
          match err with
          | Some _ => (c, err)
          | None =>
              let c := if String.eqb operator "+" then emit c OpAdd []
                       else if String.eqb operator "-" then emit c OpSub []
                       else c in
              (c, None)
          end
      end
  | ast.IntegerLiteral _ value =>
      let c := {| instructions := instructions c;
                  constants := constants c ++ [OInt64 value] |} in
      (emit c OpConstant [Z.of_nat (length (constants c)) - 1], None)
  | _ => (c, None)
  end.

Definition Bytecode_ (c : Compiler) : Bytecode :=
  {| Instructions := instructions c; Constants := constants c |}.

End compiler.

(** ** Package vm *)
Module vm.

Definition StackSize : Z := 2048.

Record VM : Type := mkVM {
  bytecode : compiler.Bytecode;
  stack : list Object;
  sp : Z
}.

Definition New (bytecode : compiler.Bytecode) : VM :=
  {| bytecode := bytecode; stack := replicate (Z.to_nat StackSize) ONil; sp := 0 |}.

(** [s[i]] with the bounds check of the Go runtime. *)
Definition index {A : Type} (s : list A) (i : Z) : result A :=
  if (0 <=? i) && (i <? Z.of_nat (length s)) then
    match s !! Z.to_nat i with
    | Some a => Ok a
    | None => Panic (IndexOutOfRange i (Z.of_nat (length s)))
    end
  else Panic (IndexOutOfRange i (Z.of_nat (length s))).

(** The type assertion [o.(int64)]. *)
Definition assertInt64 (o : Object) : result Z :=
  match o with
  | OInt64 n => Ok n
  | _ => Panic (InterfaceConversion o)
  end.

Definition pop (vm : VM) : result (Object * VM) :=
  if sp vm =? 0 then Ok (ONil, vm)
  else
    let vm := {| bytecode := bytecode vm; stack := stack vm; sp := sp vm - 1 |} in
    do o <- index (stack vm) (sp vm);
    Ok (o, vm).

Definition push (vm : VM) (o : Object) : result (VM * compiler.error) :=
  if sp vm >=? StackSize then Ok (vm, Some "stack overflow"%string)
  else
    do _ <- index (stack vm) (sp vm);
    Ok ({| bytecode := bytecode vm;
           stack := <[Z.to_nat (sp vm) := o]> (stack vm);
           sp := sp vm + 1 |}, None).

Definition StackTop (vm : VM) : result Object :=
  if sp vm =? 0 then Ok ONil else index (stack vm) (sp vm - 1).

(** One iteration of the loop of [Run], entered with [ip] inside the
    instructions: [inl] continues the loop with the new [ip], [inr] is
    a [return] of the function. *)
Definition iteration (vm : VM) (ip : Z) : result (VM * Z + VM * compiler.error) :=
  let ins := compiler.Instructions (bytecode vm) in
  do op <- index ins ip;
  let ip := ip + 1 in
  if op =? compiler.OpConstant then
    do hi <- index ins ip;
    do lo <- index ins (ip + 1);
    let constIndex := Z.lor (Z.shiftl hi 8) lo in
    let ip := ip + 2 in
    do o <- index (compiler.Constants (bytecode vm)) constIndex;
    do (vm, err) <- push vm o;
    match err with
    | Some _ => Ok (inr (vm, err))
    | None => Ok (inl (vm, ip))
    end
  else if (op =? compiler.OpAdd) || (op =? compiler.OpSub) then
    do (o, vm) <- pop vm;
    do right_ <- assertInt64 o;
    do (o, vm) <- pop vm;
    do left_ <- assertInt64 o;
    let result := if op =? compiler.OpAdd then wrap64 (left_ + right_)
                  else wrap64 (left_ - right_) in
    do (vm, err) <- push vm (OInt64 result);
    match err with
    | Some _ => Ok (inr (vm, err))
    | None => Ok (inl (vm, ip))
    end
  else Ok (inl (vm, ip)).

Fixpoint Run_loop (fuel : nat) (vm : VM) (ip : Z) : result (VM * compiler.error) :=
  if ip <? Z.of_nat (length (compiler.Instructions (bytecode vm))) then
    match fuel with
    | O => OutOfFuel
    | S fuel' =>
        do r <- iteration vm ip;
        match r with
        | inl (vm, ip) => Run_loop fuel' vm ip
        | inr ret => Ok ret
        end
    end
  else Ok (vm, None).

(** Every iteration moves [ip] forward by at least one byte. *)
Definition Run (vm : VM) : result (VM * compiler.error) :=
  Run_loop (length (compiler.Instructions (bytecode vm))) vm 0.

End vm.

(** ** Package compiler, continued: the disassembler [Instructions.String] *)
Module Instructions.

(** The verb [%d] of an [int]. *)
Definition format_int (n : Z) : string := NilZero.string_of_int (Z.to_int n).

Definition newline : string := String "010" "".

(** The loop of [Instructions.String].  There is no default case: at an
    unknown opcode [i] does not move and the loop goes on forever, which
    is [OutOfFuel] for every bound. *)
Fixpoint String_loop (fuel : nat) (ins : list Z) (i : Z) (out : string) : result string :=
  if i <? Z.of_nat (length ins) then
    match fuel with
    | O => OutOfFuel
    | S fuel' =>
        do op <- vm.index ins i;
        if op =? compiler.OpConstant then
          do hi <- vm.index ins (i + 1);
          do lo <- vm.index ins (i + 2);
          let operand := Z.lor (Z.shiftl hi 8) lo in
          String_loop fuel' ins (i + 3) (out ++ "OpConstant " ++ format_int operand ++ newline)
        else if op =? compiler.OpAdd then
          String_loop fuel' ins (i + 1) (out ++ "OpAdd" ++ newline)
        else if op =? compiler.OpSub then
          String_loop fuel' ins (i + 1) (out ++ "OpSub" ++ newline)
        else String_loop fuel' ins i out
    end
  else Ok out.

(** Every iteration that moves [i] moves it by at least one byte. *)
Definition String_ (ins : list Z) : result string := String_loop (length ins) ins 0 "".

End Instructions.

(** ** Package main: the pipeline of [main] on the text of the file *)
Module main.

Inductive Outcome : Type :=
| ParseErrors (msgs : list parser.Message)
| CompileFailed (err : string)
| RunFailed (err : string)
| Printed (result : Object).

(** [main] from the point where the file was read into [data]. *)
Definition run (data : string) : result Outcome :=
  let l := lexer.New data in
  do p <- parser.New l;
  do (program, p) <- parser.ParseProgram p;
  if negb (length (parser.Errors p) =? 0)%nat then Ok (ParseErrors (parser.Errors p))
  else
    let c := compiler.New in
    let '(c, err) := compiler.Compile c program in
    match err with
    | Some e => Ok (CompileFailed e)
    | None =>
        let machine := vm.New (compiler.Bytecode_ c) in
        do (machine, err) <- vm.Run machine;
        match err with
        | Some e => Ok (RunFailed e)
        | None =>
            do result <- vm.StackTop machine;
            Ok (Printed result)
        end
    end.

End main.

(** * Properties *)

(** ** The compiler reports no error and skips what it does not know *)

Lemma Compile_no_error (node : ast.Node) (c : compiler.Compiler) :
  snd (compiler.Compile c node) = None.
Proof.
  revert c. induction node as [| e IH | t v | t lhs IHl op rhs IHr | lit]; intros c; simpl; try reflexivity.
  - specialize (IH c). destruct (compiler.Compile c e) as [c1 err]. simpl in IH. subst err. reflexivity.
  - specialize (IHl c). destruct (compiler.Compile c lhs) as [c1 err1]. simpl in IHl. subst err1.
    specialize (IHr c1). destruct (compiler.Compile c1 rhs) as [c2 err2]. simpl in IHr. subst err2.
    reflexivity.
Qed.

(** C7: [Compile] returns a nil error for every node, and a node of an
    unrecognized kind (the nil interface or a foreign node type) leaves
    the instructions and the constant pool as they were. *)
Theorem C7_compile_ignores_unknown_nodes :
  (forall (c : compiler.Compiler) (node : ast.Node), snd (compiler.Compile c node) = None)
  /\ (forall (c : compiler.Compiler) (lit : string),
        compiler.Compile c (ast.Foreign lit) = (c, None))
  /\ (forall c : compiler.Compiler, compiler.Compile c ast.Nil = (c, None)).
Proof.
  split; [| split].
  - intros c node. apply Compile_no_error.
  - reflexivity.
  - reflexivity.
Qed.

(** ** The stack of the VM *)

(** The invariant of the data model: the stack is the array of
    [StackSize] slots that [New] allocates, and [0 <= sp <= StackSize]. *)
Definition vm_ok (m : vm.VM) : Prop :=
  length (vm.stack m) = Z.to_nat vm.StackSize /\ 0 <= vm.sp m <= vm.StackSize.

Definition with_sp (m : vm.VM) (n : Z) : vm.VM :=
  {| vm.bytecode := vm.bytecode m; vm.stack := vm.stack m; vm.sp := n |}.

Definition pushed (m : vm.VM) (o : Object) : vm.VM :=
  {| vm.bytecode := vm.bytecode m;
     vm.stack := <[Z.to_nat (vm.sp m) := o]> (vm.stack m);
     vm.sp := vm.sp m + 1 |}.

Lemma vm_ok_New (bc : compiler.Bytecode) : vm_ok (vm.New bc).
Proof.
  unfold vm_ok, vm.New. cbn [vm.stack vm.sp]. rewrite length_replicate.
  unfold vm.StackSize. lia.
Qed.

Lemma index_lookup {A : Type} (s : list A) (i : Z) (a : A) :
  0 <= i -> s !! Z.to_nat i = Some a -> vm.index s i = Ok a.
Proof.
  intros Hi Hs. unfold vm.index.
  assert (Hlt : (Z.to_nat i < length s)%nat) by (eapply lookup_lt_Some; eauto).
  replace ((0 <=? i) && (i <? Z.of_nat (length s))) with true.
  - rewrite Hs. reflexivity.
  - symmetry. apply andb_true_iff. split; [apply Z.leb_le | apply Z.ltb_lt]; lia.
Qed.

Lemma index_Ok_inv {A : Type} (s : list A) (i : Z) (a : A) :
  vm.index s i = Ok a -> 0 <= i < Z.of_nat (length s) /\ s !! Z.to_nat i = Some a.
Proof.
  unfold vm.index. intros H.
  destruct ((0 <=? i) && (i <? Z.of_nat (length s))) eqn:E; [| discriminate].
  apply andb_true_iff in E. destruct E as [E1 E2].
  apply Z.leb_le in E1. apply Z.ltb_lt in E2.
  destruct (s !! Z.to_nat i) eqn:L; [| discriminate].
  inversion H; subst. auto.
Qed.

Lemma index_in_range {A : Type} (s : list A) (i : Z) :
  0 <= i < Z.of_nat (length s) -> exists a, vm.index s i = Ok a.
Proof.
  intros Hi. destruct (lookup_lt_is_Some_2 s (Z.to_nat i)) as [a Ha]; [lia |].
  exists a. apply index_lookup; [lia | exact Ha].
Qed.

Lemma pop_nonempty (m : vm.VM) (o : Object) :
  0 < vm.sp m ->
  vm.stack m !! Z.to_nat (vm.sp m - 1) = Some o ->
  vm.pop m = Ok (o, with_sp m (vm.sp m - 1)).
Proof.
  intros Hsp Hs. unfold vm.pop.
  destruct (vm.sp m =? 0) eqn:E; [apply Z.eqb_eq in E; lia |].
  simpl. rewrite (index_lookup _ _ o); [reflexivity | lia | exact Hs].
Qed.

Lemma pop_empty (m : vm.VM) : vm.sp m = 0 -> vm.pop m = Ok (ONil, m).
Proof. intros H. unfold vm.pop. rewrite H. reflexivity. Qed.

Lemma push_room (m : vm.VM) (o : Object) :
  0 <= vm.sp m < vm.StackSize ->
  length (vm.stack m) = Z.to_nat vm.StackSize ->
  vm.push m o = Ok (pushed m o, None).
Proof.
  intros Hsp Hlen. unfold vm.push.
  destruct (vm.sp m >=? vm.StackSize) eqn:E; [apply Z.geb_le in E; lia |].
  destruct (index_in_range (vm.stack m) (vm.sp m)) as [a Ha]; [lia |].
  rewrite Ha. reflexivity.
Qed.

Lemma push_full (m : vm.VM) (o : Object) :
  vm.StackSize <= vm.sp m ->
  vm.push m o = Ok (m, Some "stack overflow"%string).
Proof.
  intros Hsp. unfold vm.push.
  destruct (vm.sp m >=? vm.StackSize) eqn:E; [reflexivity |].
  rewrite Z.geb_leb in E. apply Z.leb_gt in E. lia.
Qed.

Lemma is_arith_cases (op : Z) :
  op = compiler.OpAdd \/ op = compiler.OpSub ->
  (op =? compiler.OpConstant) = false
  /\ ((op =? compiler.OpAdd) || (op =? compiler.OpSub)) = true.
Proof. intros [-> | ->]; split; reflexivity. Qed.

Lemma iteration_arith (m : vm.VM) (ip op lhs rhs : Z) :
  vm_ok m ->
  vm.index (compiler.Instructions (vm.bytecode m)) ip = Ok op ->
  op = compiler.OpAdd \/ op = compiler.OpSub ->
  2 <= vm.sp m ->
  vm.stack m !! Z.to_nat (vm.sp m - 1) = Some (OInt64 rhs) ->
  vm.stack m !! Z.to_nat (vm.sp m - 2) = Some (OInt64 lhs) ->
  vm.pop m = Ok (OInt64 rhs, with_sp m (vm.sp m - 1))
  /\ vm.pop (with_sp m (vm.sp m - 1)) = Ok (OInt64 lhs, with_sp m (vm.sp m - 2))
  /\ vm.iteration m ip =
       Ok (inl (pushed (with_sp m (vm.sp m - 2))
                  (OInt64 (if op =? compiler.OpAdd then wrap64 (lhs + rhs)
                           else wrap64 (lhs - rhs))),
                ip + 1)).
Proof.
  intros [Hlen Hsp] Hop Hk H2 Hr Hl.
  assert (P1 : vm.pop m = Ok (OInt64 rhs, with_sp m (vm.sp m - 1)))
    by (apply pop_nonempty; [lia | exact Hr]).
  assert (P2 : vm.pop (with_sp m (vm.sp m - 1)) = Ok (OInt64 lhs, with_sp m (vm.sp m - 2))).
  { rewrite (pop_nonempty _ (OInt64 lhs)); simpl; [| lia |].
    - unfold with_sp. simpl. do 3 f_equal. lia.
    - replace (vm.sp m - 1 - 1) with (vm.sp m - 2) by lia. exact Hl. }
  split; [exact P1 | split; [exact P2 |]].
  unfold vm.iteration. rewrite Hop. simpl.
  destruct (is_arith_cases op Hk) as [E1 E2]. rewrite E1, E2.
  rewrite P1. simpl. rewrite P2. simpl.
  rewrite push_room; simpl; [| lia | exact Hlen].
  destruct (op =? compiler.OpAdd); reflexivity.
Qed.

(** C5: on an add or subtract opcode the VM pops the right operand (the
    value pushed last, on top), then the left operand, and pushes
    [left + right] or [left - right] wrapped to 64 bits, as the single
    result; [ip] moves past the one-byte opcode. *)
Theorem C5_add_sub_pops_right_then_left (m : vm.VM) (ip op lhs rhs : Z) :
  vm_ok m ->
  vm.index (compiler.Instructions (vm.bytecode m)) ip = Ok op ->
  op = compiler.OpAdd \/ op = compiler.OpSub ->
  2 <= vm.sp m ->
  vm.stack m !! Z.to_nat (vm.sp m - 1) = Some (OInt64 rhs) ->
  vm.stack m !! Z.to_nat (vm.sp m - 2) = Some (OInt64 lhs) ->
  vm.pop m = Ok (OInt64 rhs, with_sp m (vm.sp m - 1))
  /\ vm.pop (with_sp m (vm.sp m - 1)) = Ok (OInt64 lhs, with_sp m (vm.sp m - 2))
  /\ vm.iteration m ip =
       Ok (inl (pushed (with_sp m (vm.sp m - 2))
                  (OInt64 (if op =? compiler.OpAdd then wrap64 (lhs + rhs)
                           else wrap64 (lhs - rhs))),
                ip + 1)).
Proof. apply iteration_arith. Qed.

Definition demo_arith (op : Z) : vm.VM :=
  {| vm.bytecode := compiler.mkBytecode [op] [];
     vm.stack := OInt64 12 :: OInt64 7 :: replicate 2046 ONil;
     vm.sp := 2 |}.

Lemma C5_witness :
  vm.iteration (demo_arith compiler.OpSub) 0
  = Ok (inl (pushed (with_sp (demo_arith compiler.OpSub) 0) (OInt64 5), 1)).
Proof.
  refine (proj2 (proj2 (C5_add_sub_pops_right_then_left
                          (demo_arith compiler.OpSub) 0 compiler.OpSub 12 7 _ _ _ _ _ _))).
  - split; [vm_compute; reflexivity | vm_compute; split; discriminate].
  - vm_compute; reflexivity.
  - right; reflexivity.
  - vm_compute; discriminate.
  - vm_compute; reflexivity.
  - vm_compute; reflexivity.
Defined.

Lemma Run_loop_unfold (fuel : nat) (m : vm.VM) (ip : Z) :
  ip < Z.of_nat (length (compiler.Instructions (vm.bytecode m))) ->
  vm.Run_loop (S fuel) m ip =
    bind (vm.iteration m ip)
         (fun r => match r with
                   | inl (m', ip') => vm.Run_loop fuel m' ip'
                   | inr ret => Ok ret
                   end).
Proof.
  intros H. simpl. apply Z.ltb_lt in H. rewrite H. reflexivity.
Qed.

Lemma Run_loop_exit (fuel : nat) (m : vm.VM) (ip : Z) :
  Z.of_nat (length (compiler.Instructions (vm.bytecode m))) <= ip ->
  vm.Run_loop fuel m ip = Ok (m, None).
Proof.
  intros H. apply Z.ltb_ge in H. destruct fuel; simpl; rewrite H; reflexivity.
Qed.

(** C10: a pop from the empty stack returns nil and leaves the VM (and so
    [sp = 0]) as it was; an add or subtract opcode met with fewer than
    two values on the stack makes [Run] panic on the type assertion
    [.(int64)] -- of the nil value, when what is on the stack are
    integers -- instead of returning an error. *)
Theorem C10_underflow_is_a_panic (m : vm.VM) (ip op : Z) (fuel : nat) :
  vm_ok m ->
  vm.index (compiler.Instructions (vm.bytecode m)) ip = Ok op ->
  op = compiler.OpAdd \/ op = compiler.OpSub ->
  vm.sp m < 2 ->
  (vm.sp m = 0 -> vm.pop m = Ok (ONil, m))
  /\ exists o : Object,
       vm.Run_loop (S fuel) m ip = Panic (InterfaceConversion o)
       /\ ((vm.sp m = 1 -> exists n, vm.stack m !! 0%nat = Some (OInt64 n)) -> o = ONil).
Proof.
  intros [Hlen Hsp] Hop Hk Hlt.
  split.
  { intros H0. apply pop_empty; exact H0. }
  destruct (index_Ok_inv _ _ _ Hop) as [Hip _].
  rewrite Run_loop_unfold by lia.
  unfold vm.iteration. rewrite Hop. simpl.
  destruct (is_arith_cases op Hk) as [E1 E2]. rewrite E1, E2.
  assert (Hcase : vm.sp m = 0 \/ vm.sp m = 1) by lia.
  destruct Hcase as [H0 | H1].
  - rewrite pop_empty by exact H0. simpl. exists ONil. split; [reflexivity | auto].
  - destruct (lookup_lt_is_Some_2 (vm.stack m) 0%nat) as [v Hv].
    { rewrite Hlen. unfold vm.StackSize. lia. }
    rewrite (pop_nonempty m v); [| lia | rewrite H1; exact Hv].
    simpl. destruct v as [| n | tag].
    + simpl. exists ONil. split; [reflexivity | auto].
    + simpl. rewrite pop_empty by (simpl; lia). simpl.
      exists ONil. split; [reflexivity | auto].
    + simpl. exists (OForeign tag). split; [reflexivity |].
      intros Hint. destruct (Hint H1) as [n Hn]. congruence.
Qed.

Lemma C10_witness :
  exists o : Object,
    vm.Run_loop 1 (vm.New (compiler.mkBytecode [compiler.OpAdd] [])) 0
    = Panic (InterfaceConversion o)
    /\ ((vm.sp (vm.New (compiler.mkBytecode [compiler.OpAdd] [])) = 1 ->
         exists n, vm.stack (vm.New (compiler.mkBytecode [compiler.OpAdd] [])) !! 0%nat
                   = Some (OInt64 n)) -> o = ONil).
Proof.
  refine (proj2 (C10_underflow_is_a_panic
                   (vm.New (compiler.mkBytecode [compiler.OpAdd] [])) 0 compiler.OpAdd 0 _ _ _ _)).
  - apply vm_ok_New.
  - vm_compute; reflexivity.
  - left; reflexivity.
  - vm_compute; reflexivity.
Defined.

(** ** Stack overflow *)

Lemma iteration_progress (m m' : vm.VM) (ip ip' : Z) :
  vm_ok m ->
  vm.iteration m ip = Ok (inl (m', ip')) ->
  vm_ok m' /\ vm.bytecode m' = vm.bytecode m /\ ip < ip' /\ vm.sp m' <= vm.sp m + 1.
Proof.
  intros [Hlen Hsp]. unfold vm.iteration.
  destruct (vm.index (compiler.Instructions (vm.bytecode m)) ip) as [op | |]; simpl; try discriminate.
  destruct (op =? compiler.OpConstant).
  - destruct (vm.index _ (ip + 1)) as [hi | |]; simpl; try discriminate.
    destruct (vm.index _ (ip + 1 + 1)) as [lo | |]; simpl; try discriminate.
    destruct (vm.index (compiler.Constants _) _) as [o | |]; simpl; try discriminate.
    unfold vm.push. destruct (vm.sp m >=? vm.StackSize) eqn:E; simpl; [discriminate |].
    destruct (vm.index (vm.stack m) (vm.sp m)) as [a | |]; simpl; try discriminate.
    intros H; inversion H; subst; clear H.
    rewrite Z.geb_leb in E. apply Z.leb_gt in E.
    unfold vm_ok; simpl. rewrite length_insert. repeat split; try lia; auto.
  - destruct ((op =? compiler.OpAdd) || (op =? compiler.OpSub)).
    + unfold vm.pop at 1. destruct (vm.sp m =? 0) eqn:E0; simpl; [discriminate |].
      destruct (vm.index (vm.stack m) (vm.sp m - 1)) as [o1 | |]; simpl; try discriminate.
      destruct o1 as [| rhs |]; simpl; try discriminate.
      unfold vm.pop. simpl. destruct (vm.sp m - 1 =? 0) eqn:E1; simpl; [discriminate |].
      destruct (vm.index (vm.stack m) (vm.sp m - 1 - 1)) as [o2 | |]; simpl; try discriminate.
      destruct o2 as [| lhs |]; simpl; try discriminate.
      apply Z.eqb_neq in E0, E1.
      unfold vm.push. simpl.
      destruct (vm.sp m - 1 - 1 >=? vm.StackSize) eqn:E; simpl; [discriminate |].
      destruct (vm.index (vm.stack m) (vm.sp m - 1 - 1)) as [a | |]; simpl; try discriminate.
      intros H; inversion H; subst; clear H.
      unfold vm_ok; simpl. rewrite length_insert. repeat split; try lia; auto.
    + intros H; inversion H; subst; clear H. unfold vm_ok. repeat split; try lia; auto.
Qed.

Lemma iteration_return (m m' : vm.VM) (ip : Z) (err : compiler.error) :
  vm_ok m ->
  vm.iteration m ip = Ok (inr (m', err)) ->
  err = Some "stack overflow"%string /\ m' = m /\ vm.sp m = vm.StackSize.
Proof.
  intros [Hlen Hsp]. unfold vm.iteration.
  destruct (vm.index (compiler.Instructions (vm.bytecode m)) ip) as [op | |]; simpl; try discriminate.
  destruct (op =? compiler.OpConstant).
  - destruct (vm.index _ (ip + 1)) as [hi | |]; simpl; try discriminate.
    destruct (vm.index _ (ip + 1 + 1)) as [lo | |]; simpl; try discriminate.
    destruct (vm.index (compiler.Constants _) _) as [o | |]; simpl; try discriminate.
    unfold vm.push. destruct (vm.sp m >=? vm.StackSize) eqn:E; simpl.
    + intros H; inversion H; subst; clear H. apply Z.geb_le in E. repeat split; auto; lia.
    + destruct (vm.index (vm.stack m) (vm.sp m)) as [a | |]; simpl; discriminate.
  - destruct ((op =? compiler.OpAdd) || (op =? compiler.OpSub)); [| discriminate].
    unfold vm.pop at 1. destruct (vm.sp m =? 0) eqn:E0; simpl; [discriminate |].
    destruct (vm.index (vm.stack m) (vm.sp m - 1)) as [o1 | |]; simpl; try discriminate.
    destruct o1 as [| rhs |]; simpl; try discriminate.
    unfold vm.pop. simpl. destruct (vm.sp m - 1 =? 0) eqn:E1; simpl; [discriminate |].
    destruct (vm.index (vm.stack m) (vm.sp m - 1 - 1)) as [o2 | |]; simpl; try discriminate.
    destruct o2 as [| lhs |]; simpl; try discriminate.
    unfold vm.push. simpl.
    destruct (vm.sp m - 1 - 1 >=? vm.StackSize) eqn:E; simpl.
    + apply Z.geb_le in E. lia.
    + destruct (vm.index (vm.stack m) (vm.sp m - 1 - 1)) as [a | |]; simpl; discriminate.
Qed.

Lemma Run_loop_error_at_capacity (fuel : nat) (m m' : vm.VM) (ip : Z) (e : string) :
  vm_ok m ->
  vm.Run_loop fuel m ip = Ok (m', Some e) ->
  e = "stack overflow"%string /\ vm.sp m' = vm.StackSize /\ vm_ok m'.
Proof.
  revert m ip. induction fuel as [| fuel IH]; intros m ip Hok; simpl.
  - destruct (ip <? _); discriminate.
  - destruct (ip <? _); [| discriminate].
    destruct (vm.iteration m ip) as [[[m1 ip1] | [m1 err]] | |] eqn:Hit; simpl; try discriminate.
    + intros H. apply (IH m1 ip1); [| exact H].
      apply (iteration_progress m m1 ip ip1 Hok Hit).
    + intros H. inversion H; subst; clear H.
      destruct (iteration_return _ _ _ _ Hok Hit) as (He & Hm & Hsp).
      subst m'. inversion He; subst. auto.
Qed.

Lemma index_not_OutOfFuel {A : Type} (s : list A) (i : Z) : vm.index s i <> OutOfFuel.
Proof.
  unfold vm.index. destruct ((0 <=? i) && (i <? Z.of_nat (length s))); [| discriminate].
  destruct (s !! Z.to_nat i); discriminate.
Qed.

Ltac case_index H x :=
  match type of H with
  | context [vm.index ?s ?i] =>
      let E := fresh "Eidx" in
      destruct (vm.index s i) as [x | |] eqn:E; simpl in H;
      [ | try discriminate H | exfalso; exact (index_not_OutOfFuel s i E) ]
  end.

Lemma iteration_not_OutOfFuel (m : vm.VM) (ip : Z) : vm.iteration m ip <> OutOfFuel.
Proof.
  intros Hit. unfold vm.iteration in Hit.
  case_index Hit op.
  destruct (op =? compiler.OpConstant).
  - case_index Hit hi. case_index Hit lo. case_index Hit o.
    unfold vm.push in Hit. destruct (vm.sp m >=? vm.StackSize); simpl in Hit; [discriminate |].
    case_index Hit a. discriminate.
  - destruct (_ || _); [| discriminate].
    unfold vm.pop at 1 in Hit. destruct (vm.sp m =? 0); simpl in Hit.
    + discriminate.
    + case_index Hit o1.
      destruct o1; simpl in Hit; try discriminate.
      unfold vm.pop in Hit. simpl in Hit. destruct (vm.sp m - 1 =? 0); simpl in Hit; [discriminate |].
      case_index Hit o2.
      destruct o2; simpl in Hit; try discriminate.
      unfold vm.push in Hit. simpl in Hit.
      destruct (vm.sp m - 1 - 1 >=? vm.StackSize); simpl in Hit; [discriminate |].
      case_index Hit a. discriminate.
Qed.

(** The run never exhausts its fuel: the bound of [Run] is adequate. *)
Lemma Run_loop_total (fuel : nat) (m : vm.VM) (ip : Z) :
  vm_ok m ->
  Z.of_nat (length (compiler.Instructions (vm.bytecode m))) <= ip + Z.of_nat fuel ->
  vm.Run_loop fuel m ip <> OutOfFuel.
Proof.
  revert m ip. induction fuel as [| fuel IH]; intros m ip Hok Hf; simpl.
  - destruct (ip <? _) eqn:E; [apply Z.ltb_lt in E; lia | discriminate].
  - destruct (ip <? _); [| discriminate].
    destruct (vm.iteration m ip) as [[[m1 ip1] | [m1 err]] | |] eqn:Hit; simpl; try discriminate.
    + destruct (iteration_progress m m1 ip ip1 Hok Hit) as (Hok1 & Hbc & Hip & _).
      apply IH; [exact Hok1 | rewrite Hbc; lia].
    + exfalso. eapply iteration_not_OutOfFuel; eauto.
Qed.

(** The number of calls of [push] in a run: an iteration at a load, add
    or subtract opcode that does not panic ends in exactly one call of
    [push], the failed call of an overflow included. *)
Fixpoint push_calls (fuel : nat) (m : vm.VM) (ip : Z) : nat :=
  if ip <? Z.of_nat (length (compiler.Instructions (vm.bytecode m))) then
    match fuel with
    | O => O
    | S fuel' =>
        match vm.iteration m ip with
        | Ok (inl (m', ip')) =>
            match vm.index (compiler.Instructions (vm.bytecode m)) ip with
            | Ok op => if (0 <=? op) && (op <=? compiler.OpSub) then S (push_calls fuel' m' ip')
                       else push_calls fuel' m' ip'
            | _ => O
            end
        | Ok (inr _) => 1%nat
        | _ => O
        end
    end
  else O.

(** A program of [n] load-constant instructions, each of index 0. *)
Definition loads (n : nat) : list Z := concat (replicate n [compiler.OpConstant; 0; 0]).

Definition loads_bytecode (n : nat) (c : Object) : compiler.Bytecode :=
  compiler.mkBytecode (loads n) [c].

Lemma loads_replicate (n : nat) : loads n = replicate (3 * n) 0.
Proof.
  unfold loads. induction n as [| n IH]; [reflexivity |].
  replace (3 * S n)%nat with (3 + 3 * n)%nat by lia.
  simpl replicate at 1. simpl concat. rewrite IH. reflexivity.
Qed.

Lemma loads_index (n : nat) (i : Z) :
  0 <= i < 3 * Z.of_nat n -> vm.index (loads n) i = Ok 0.
Proof.
  intros Hi. apply index_lookup; [lia |].
  rewrite loads_replicate. apply lookup_replicate_2. lia.
Qed.

Lemma loads_length (n : nat) : Z.of_nat (length (loads n)) = 3 * Z.of_nat n.
Proof. rewrite loads_replicate, length_replicate. lia. Qed.

Lemma loads_iteration (n : nat) (c : Object) (m : vm.VM) :
  vm.bytecode m = loads_bytecode n c ->
  0 <= vm.sp m < Z.of_nat n ->
  vm.iteration m (3 * vm.sp m) =
    bind (vm.push m c)
         (fun r => match r with
                   | (m', Some e) => Ok (inr (m', Some e))
                   | (m', None) => Ok (inl (m', 3 * vm.sp m + 1 + 2))
                   end).
Proof.
  intros Hbc Hsp. unfold vm.iteration. rewrite Hbc. simpl.
  rewrite !loads_index by lia. simpl.
  unfold bind. destruct (vm.push m c) as [[m' [e |]] | |]; reflexivity.
Qed.

Lemma loads_run (n : nat) (c : Object) (j : nat) :
  forall (fuel : nat) (m : vm.VM),
    (j <= fuel)%nat ->
    vm_ok m ->
    vm.bytecode m = loads_bytecode n c ->
    Z.of_nat n = vm.sp m + Z.of_nat j ->
    exists m' : vm.VM,
      vm.Run_loop fuel m (3 * vm.sp m)
      = Ok (m', if Z.of_nat n <=? vm.StackSize then None else Some "stack overflow"%string)
      /\ vm.sp m' = Z.min (Z.of_nat n) vm.StackSize
      /\ Z.of_nat (push_calls fuel m (3 * vm.sp m)) = Z.min (Z.of_nat j) (vm.StackSize + 1 - vm.sp m).
Proof.
  induction j as [| j IH]; intros fuel m Hf Hok Hbc Hn.
  - exists m. destruct Hok as [Hlen Hsp].
    assert (Hexit : Z.of_nat (length (compiler.Instructions (vm.bytecode m))) <= 3 * vm.sp m).
    { rewrite Hbc. simpl. rewrite loads_length. lia. }
    rewrite Run_loop_exit by exact Hexit.
    replace (Z.of_nat n <=? vm.StackSize) with true by (symmetry; apply Z.leb_le; lia).
    split; [reflexivity | split; [lia |]].
    apply Z.ltb_ge in Hexit. destruct fuel; simpl; rewrite Hexit; simpl; lia.
  - destruct fuel as [| fuel]; [lia |].
    assert (Hin : 3 * vm.sp m < Z.of_nat (length (compiler.Instructions (vm.bytecode m)))).
    { rewrite Hbc. simpl. rewrite loads_length. destruct Hok; lia. }
    rewrite Run_loop_unfold by exact Hin.
    cbn [push_calls]. apply Z.ltb_lt in Hin. rewrite Hin.
    rewrite (loads_iteration n c) by (destruct Hok; auto; lia).
    destruct Hok as [Hlen Hsp].
    destruct (Z.eq_dec (vm.sp m) vm.StackSize) as [Hfull | Hroom].
    + rewrite push_full by lia. simpl. exists m.
      replace (Z.of_nat n <=? vm.StackSize) with false by (symmetry; apply Z.leb_gt; lia).
      split; [reflexivity | split; lia].
    + rewrite push_room by (auto; lia). simpl.
      rewrite Hbc. simpl. rewrite loads_index by lia. simpl.
      assert (Hok' : vm_ok (pushed m c)).
      { unfold vm_ok, pushed; simpl. rewrite length_insert. split; [exact Hlen | lia]. }
      destruct (IH fuel (pushed m c)) as (m' & HR & Hsp' & Hcalls); auto; try lia.
      { simpl. lia. }
      exists m'. simpl in HR, Hcalls.
      replace (3 * vm.sp m + 1 + 2) with (3 * (vm.sp m + 1)) by lia.
      split; [exact HR | split; [exact Hsp' |]].
      assert (Hbc' : vm.bytecode (pushed m c) = vm.bytecode m) by reflexivity.
      lia.
Qed.

(** A program of 2049 pushes, none of which overflows: one load, then
    1024 times a load and an add. *)
Definition interleaved : compiler.Bytecode :=
  compiler.mkBytecode
    ([compiler.OpConstant; 0; 0]
       ++ concat (replicate 1024 [compiler.OpConstant; 0; 0; compiler.OpAdd]))
    [OInt64 1].

(** C2, as stated, fails: the 2049th push of a program need not overflow.
    [interleaved] calls [push] 2049 times, more than the capacity, and
    [Run] returns nil with one value on the stack. *)
Lemma C2_counterexample_pushes_beyond_capacity :
  Z.of_nat (push_calls (length (compiler.Instructions interleaved)) (vm.New interleaved) 0)
  = vm.StackSize + 1
  /\ match vm.Run (vm.New interleaved) with
     | Ok (m', None) => vm.sp m' = 1 /\ vm.StackTop m' = Ok (OInt64 1025)
     | _ => False
     end.
Proof. vm_compute. auto. Qed.

(** C2 (amended): a push with [sp] at capacity returns the error and
    leaves the VM unchanged; [Run] then returns that error at once, the
    VM unchanged; whenever [Run] returns an error, it is this one and
    [sp] is at capacity; and a program of [n] loads overflows exactly
    when [n > 2048], at its 2049th push.  Overflow depends on the depth
    of the stack, not on the number of pushes made. *)
Theorem C2_overflow_at_capacity :
  (forall (m : vm.VM) (o : Object),
      vm.StackSize <= vm.sp m -> vm.push m o = Ok (m, Some "stack overflow"%string))
  /\ (forall (m : vm.VM) (ip hi lo : Z) (o : Object) (fuel : nat),
        vm.index (compiler.Instructions (vm.bytecode m)) ip = Ok compiler.OpConstant ->
        vm.index (compiler.Instructions (vm.bytecode m)) (ip + 1) = Ok hi ->
        vm.index (compiler.Instructions (vm.bytecode m)) (ip + 2) = Ok lo ->
        vm.index (compiler.Constants (vm.bytecode m)) (Z.lor (Z.shiftl hi 8) lo) = Ok o ->
        vm.StackSize <= vm.sp m ->
        vm.Run_loop (S fuel) m ip = Ok (m, Some "stack overflow"%string))
  /\ (forall (bc : compiler.Bytecode) (m' : vm.VM) (e : string),
        vm.Run (vm.New bc) = Ok (m', Some e) ->
        e = "stack overflow"%string /\ vm.sp m' = vm.StackSize)
  /\ (forall (n : nat) (c : Object),
        exists m' : vm.VM,
          vm.Run (vm.New (loads_bytecode n c))
          = Ok (m', if Z.of_nat n <=? vm.StackSize then None
                    else Some "stack overflow"%string)
          /\ vm.sp m' = Z.min (Z.of_nat n) vm.StackSize
          /\ Z.of_nat (push_calls (length (loads n)) (vm.New (loads_bytecode n c)) 0)
             = Z.min (Z.of_nat n) (vm.StackSize + 1)).
Proof.
  split; [| split; [| split]].
  - intros m o H. apply push_full; exact H.
  - intros m ip hi lo o fuel H0 H1 H2 Hc Hsp.
    destruct (index_Ok_inv _ _ _ H0) as [Hip _].
    rewrite Run_loop_unfold by lia.
    unfold vm.iteration. rewrite H0. simpl. rewrite H1.
    replace (ip + 1 + 1) with (ip + 2) by lia. rewrite H2. simpl. rewrite Hc. simpl.
    rewrite push_full by exact Hsp. reflexivity.
  - intros bc m' e H.
    destruct (Run_loop_error_at_capacity _ _ _ _ _ (vm_ok_New bc) H) as (He & Hsp & _).
    auto.
  - intros n c.
    destruct (loads_run n c n (length (loads n)) (vm.New (loads_bytecode n c)))
      as (m' & HR & Hsp & Hcalls).
    + pose proof (loads_length n). lia.
    + apply vm_ok_New.
    + reflexivity.
    + change (vm.sp (vm.New (loads_bytecode n c))) with 0. lia.
    + change (3 * vm.sp (vm.New (loads_bytecode n c))) with 0 in HR, Hcalls.
      change (vm.sp (vm.New (loads_bytecode n c))) with 0 in Hcalls.
      exists m'. split; [exact HR | split; [exact Hsp |]].
      rewrite Hcalls. unfold vm.StackSize. lia.
Qed.

Lemma C2_witness :
  vm.push (with_sp (vm.New interleaved) 2048) ONil
  = Ok (with_sp (vm.New interleaved) 2048, Some "stack overflow"%string).
Proof.
  apply (proj1 C2_overflow_at_capacity (with_sp (vm.New interleaved) 2048) ONil).
  vm_compute. discriminate.
Defined.

(** ** The lexer *)

(** [bind_inv H] takes apart a hypothesis [H : ... = Ok _] along the binds,
    conditionals and matches of its left-hand side. *)
Ltac bind_inv H :=
  repeat match type of H with
    | bind ?m _ = Ok _ =>
        let E := fresh "E" in destruct m as [? | |] eqn:E; cbn [bind] in H; try discriminate H
    | (let '(_, _) := ?x in _) = Ok _ => destruct x
    | (if ?b then _ else _) = Ok _ =>
        let E := fresh "E" in destruct b eqn:E; try discriminate H
    | match ?x with _ => _ end = Ok _ =>
        let E := fresh "E" in destruct x eqn:E; try discriminate H
    end.

Lemma lookup_keyword_not_EOF (value : string) (code : lexer.TokenType) :
  lexer.lookup_keyword lexer.reverseKeywords value = Some code -> code <> lexer.EOF.
Proof.
  unfold lexer.reverseKeywords. cbn [lexer.lookup_keyword].
  repeat (destruct (String.eqb _ value); [intros H; inversion H; discriminate |]).
  discriminate.
Qed.

Lemma readIdentifier_not_EOF (l l' : lexer.Lexer) (t : lexer.Token) :
  lexer.readIdentifier l = Ok (t, l') -> lexer.Type_ t <> lexer.EOF.
Proof.
  unfold lexer.readIdentifier. intros H. bind_inv H.
  destruct (lexer.lookup_keyword lexer.reverseKeywords a0) as [code |] eqn:E1;
    injection H as <- <-; cbn [lexer.Type_]; [| discriminate].
  eapply lookup_keyword_not_EOF; eauto.
Qed.

Lemma readNumber_type (l l' : lexer.Lexer) (t : lexer.Token) :
  lexer.readNumber l = Ok (t, l') -> lexer.Type_ t = lexer.NUMBER.
Proof.
  unfold lexer.readNumber. intros H. bind_inv H. inversion H; subst; reflexivity.
Qed.

Lemma readChar_type (l l' : lexer.Lexer) (t : lexer.Token) :
  lexer.readChar l = Ok (t, l') -> lexer.Type_ t = lexer.CharConst.
Proof.
  unfold lexer.readChar. intros H. bind_inv H; inversion H; subst; reflexivity.
Qed.

Lemma readString_type (l l' : lexer.Lexer) (t : lexer.Token) :
  lexer.readString l = Ok (t, l') -> lexer.Type_ t = lexer.STRING.
Proof.
  unfold lexer.readString. intros H. bind_inv H; inversion H; subst; reflexivity.
Qed.

Lemma operatorToken_not_EOF (c ln col : Z) (l l' : lexer.Lexer) (t : lexer.Token) :
  lexer.operatorToken c ln col l = Ok (t, l') -> lexer.Type_ t <> lexer.EOF.
Proof.
  unfold lexer.operatorToken. intros H.
  bind_inv H; inversion H; subst; simpl; discriminate.
Qed.

Lemma NextToken_loop_EOF (fuel : nat) (l l' : lexer.Lexer) (t : lexer.Token) :
  lexer.NextToken_loop fuel l = Ok (t, l') ->
  lexer.Type_ t = lexer.EOF ->
  lexer.currentChar l' = 0 /\ t = lexer.mkToken lexer.EOF "" (lexer.line l') (lexer.column l').
Proof.
  revert l. induction fuel as [| fuel IH]; intros l H Ht; simpl in H.
  - destruct (lexer.currentChar l =? 0) eqn:E0; simpl in H.
    + inversion H; subst. apply Z.eqb_eq in E0. auto.
    + destruct (unicode.IsSpace (lexer.currentChar l)); [discriminate |].
      destruct (lexer.currentChar l =? 39); [apply readChar_type in H; congruence |].
      destruct (lexer.currentChar l =? 34); [apply readString_type in H; congruence |].
      destruct (unicode.IsLetter _); [apply readIdentifier_not_EOF in H; congruence |].
      destruct (unicode.IsDigit _); [apply readNumber_type in H; congruence |].
      apply operatorToken_not_EOF in H; congruence.
  - destruct (lexer.currentChar l =? 0) eqn:E0; simpl in H.
    + inversion H; subst. apply Z.eqb_eq in E0. auto.
    + destruct (unicode.IsSpace (lexer.currentChar l)).
      { destruct (lexer.skipWhitespace l) as [l1 | |]; simpl in H; try discriminate.
        apply (IH l1); assumption. }
      destruct (lexer.currentChar l =? 39); [apply readChar_type in H; congruence |].
      destruct (lexer.currentChar l =? 34); [apply readString_type in H; congruence |].
      destruct (unicode.IsLetter _); [apply readIdentifier_not_EOF in H; congruence |].
      destruct (unicode.IsDigit _); [apply readNumber_type in H; congruence |].
      apply operatorToken_not_EOF in H; congruence.
Qed.

Lemma NextToken_at_end (l : lexer.Lexer) :
  lexer.currentChar l = 0 ->
  lexer.NextToken l = Ok (lexer.mkToken lexer.EOF "" (lexer.line l) (lexer.column l), l).
Proof.
  intros H. unfold lexer.NextToken. simpl. rewrite H. reflexivity.
Qed.

(** [n] consecutive calls of [NextToken]: the tokens returned and the
    lexer they leave. *)
Fixpoint NextToken_times (n : nat) (l : lexer.Lexer) : result (list lexer.Token * lexer.Lexer) :=
  match n with
  | O => Ok ([], l)
  | S n' =>
      do (t, l) <- lexer.NextToken l;
      do (ts, l) <- NextToken_times n' l;
      Ok (t :: ts, l)
  end.

(** C8: at the end of the input ([currentChar] is 0) [NextToken] returns
    the end-of-input token and leaves the lexer unchanged; and once a
    call has returned the end-of-input token, every further call returns
    that same token again and leaves the lexer as it is. *)
Theorem C8_NextToken_idempotent_at_EOF :
  (forall l : lexer.Lexer,
      lexer.currentChar l = 0 ->
      lexer.NextToken l = Ok (lexer.mkToken lexer.EOF "" (lexer.line l) (lexer.column l), l))
  /\ (forall (l l' : lexer.Lexer) (t : lexer.Token) (n : nat),
        lexer.NextToken l = Ok (t, l') ->
        lexer.Type_ t = lexer.EOF ->
        lexer.NextToken l' = Ok (t, l')
        /\ NextToken_times n l' = Ok (replicate n t, l')).
Proof.
  split.
  - apply NextToken_at_end.
  - intros l l' t n H Ht.
    destruct (NextToken_loop_EOF _ _ _ _ H Ht) as [H0 Heq].
    assert (Hfix : lexer.NextToken l' = Ok (t, l')).
    { rewrite Heq. apply NextToken_at_end. exact H0. }
    split; [exact Hfix |].
    induction n as [| n IHn]; [reflexivity |].
    simpl. rewrite Hfix. simpl. rewrite IHn. reflexivity.
Qed.

Lemma C8_witness :
  lexer.NextToken (lexer.New "7 ")
  = Ok (lexer.mkToken lexer.NUMBER "7" 1 1, lexer.advance (lexer.New "7 "))
  /\ lexer.NextToken (lexer.advance (lexer.advance (lexer.New "7 ")))
     = Ok (lexer.mkToken lexer.EOF "" 1 3, lexer.advance (lexer.advance (lexer.New "7 ")))
  /\ NextToken_times 3 (lexer.advance (lexer.advance (lexer.New "7 ")))
     = Ok (replicate 3 (lexer.mkToken lexer.EOF "" 1 3),
           lexer.advance (lexer.advance (lexer.New "7 "))).
Proof.
  split; [vm_compute; reflexivity |].
  apply (proj2 C8_NextToken_idempotent_at_EOF
           (lexer.advance (lexer.New "7 ")) _ _ 3%nat).
  - vm_compute; reflexivity.
  - reflexivity.
Defined.

(** *** Where the lexer stands in its input *)

Lemma string_app_assoc (s1 s2 s3 : string) :
  ((s1 ++ s2) ++ s3)%string = (s1 ++ (s2 ++ s3))%string.
Proof. induction s1 as [| a s1 IH]; cbn [String.append]; [reflexivity | rewrite IH; reflexivity]. Qed.

Lemma string_app_nil_r (s : string) : (s ++ "")%string = s.
Proof. induction s as [| a s IH]; cbn [String.append]; [reflexivity | rewrite IH; reflexivity]. Qed.

Lemma string_length_app (s1 s2 : string) :
  String.length (s1 ++ s2) = (String.length s1 + String.length s2)%nat.
Proof. induction s1 as [| a s1 IH]; cbn [String.append String.length]; [reflexivity | rewrite IH; reflexivity]. Qed.

Lemma string_get_app (s1 s2 : string) :
  String.get (String.length s1) (s1 ++ s2) = String.get 0 s2.
Proof. induction s1 as [| a s1 IH]; cbn [String.append String.length String.get]; auto. Qed.

Lemma string_substring_app (s1 s2 s3 : string) :
  String.substring (String.length s1) (String.length s2) (s1 ++ (s2 ++ s3)) = s2.
Proof.
  induction s1 as [| a s1 IH]; cbn [String.append String.length String.substring].
  - induction s2 as [| b s2 IH2]; cbn [String.append String.length String.substring].
    + destruct s3; reflexivity.
    + rewrite IH2. reflexivity.
  - exact IH.
Qed.

(** The rune the lexer sees in front of the text [s]: its first byte, or
    0 at the end. *)
Definition head_rune (s : string) : Z :=
  match s with
  | EmptyString => 0
  | String a _ => rune_of_ascii a
  end.

(** The lexer has consumed [pre] and has [suf] in front of it. *)
Definition lexer_at (l : lexer.Lexer) (pre suf : string) : Prop :=
  lexer.input l = (pre ++ suf)%string
  /\ lexer.pos l = String.length pre
  /\ lexer.currentChar l = head_rune suf.

Lemma byte_at_app (pre suf : string) :
  match byte_at (pre ++ suf) (String.length pre) with
  | Some c => c
  | None => 0
  end = head_rune suf.
Proof.
  unfold byte_at. rewrite string_get_app. destruct suf; reflexivity.
Qed.

Lemma lexer_at_New (s : string) : lexer_at (lexer.New s) "" s.
Proof.
  unfold lexer_at, lexer.New. cbn [lexer.input lexer.pos lexer.currentChar String.append String.length].
  repeat split. exact (byte_at_app "" s).
Qed.

Lemma lexer_at_advance (l : lexer.Lexer) (pre : string) (a : ascii) (suf : string) :
  lexer_at l pre (String a suf) ->
  lexer_at (lexer.advance l) (pre ++ String a "") suf.
Proof.
  intros (Hin & Hpos & Hc). unfold lexer_at, lexer.advance.
  destruct (lexer.currentChar l =? 10);
    cbn [lexer.input lexer.pos lexer.currentChar];
    (split; [rewrite Hin, string_app_assoc; reflexivity |]);
    (split; [rewrite Hpos, string_length_app; cbn [String.length]; lia |]);
    rewrite Hin, Hpos.
  all: replace (pre ++ String a suf)%string with ((pre ++ String a "") ++ suf)%string
         by (rewrite string_app_assoc; reflexivity).
  all: replace (S (String.length pre)) with (String.length (pre ++ String a ""))
         by (rewrite string_length_app; cbn [String.length]; lia).
  all: rewrite byte_at_app.
  all: destruct suf as [| b suf]; cbn [head_rune].
  all: rewrite ?string_app_nil_r, ?string_length_app; cbn [String.length].
  all: try (rewrite Nat.leb_refl; reflexivity).
  all: match goal with
       | |- (if (?x <=? ?y)%nat then _ else _) = _ =>
           replace (x <=? y)%nat with false by (symmetry; apply Nat.leb_gt; lia)
       end; reflexivity.
Qed.

Fixpoint string_forall (P : Z -> bool) (s : string) : bool :=
  match s with
  | EmptyString => true
  | String a s' => P (rune_of_ascii a) && string_forall P s'
  end.

Lemma lexer_at_advance_while (cond : Z -> bool) (run : string) :
  forall (fuel : nat) (l : lexer.Lexer) (pre rest : string),
    lexer_at l pre (run ++ rest) ->
    string_forall cond run = true ->
    cond (head_rune rest) = false ->
    (String.length run <= fuel)%nat ->
    exists l' : lexer.Lexer,
      lexer.advance_while cond fuel l = Ok l'
      /\ lexer_at l' (pre ++ run) rest
      /\ lexer.input l' = lexer.input l.
Proof.
  induction run as [| a run IH]; intros fuel l pre rest Hat Hall Hstop Hfuel.
  - exists l. cbn [String.append] in Hat. rewrite string_app_nil_r.
    destruct Hat as (Hin & Hpos & Hc).
    split; [| split; [repeat split; assumption | reflexivity]].
    destruct fuel; cbn [lexer.advance_while]; rewrite Hc, Hstop; reflexivity.
  - cbn [string_forall] in Hall. apply andb_true_iff in Hall. destruct Hall as [Ha Hall].
    cbn [String.length] in Hfuel. destruct fuel as [| fuel]; [lia |].
    cbn [String.append] in Hat.
    pose proof (lexer_at_advance _ _ _ _ Hat) as Hat'.
    destruct (IH fuel (lexer.advance l) (pre ++ String a "")%string rest Hat' Hall Hstop)
      as (l' & Hrun & Hat'' & Hin'); [lia |].
    exists l'. cbn [lexer.advance_while].
    destruct Hat as (Hin & Hpos & Hc). rewrite Hc. cbn [head_rune]. rewrite Ha.
    split; [exact Hrun | split].
    + rewrite string_app_assoc in Hat''. exact Hat''.
    + rewrite Hin'. unfold lexer.advance. destruct (lexer.currentChar l =? 10); reflexivity.
Qed.

Lemma lexer_at_fuel (l : lexer.Lexer) (pre run rest : string) :
  lexer_at l pre (run ++ rest) -> (String.length run <= lexer.loop_fuel l)%nat.
Proof.
  intros (Hin & Hpos & _). unfold lexer.loop_fuel. rewrite Hin, Hpos.
  rewrite !string_length_app. lia.
Qed.

(** *** Character and string literals *)

Definition squote : ascii := "039".
Definition dquote : ascii := "034".
Definition backslash : ascii := "092".

(** The escapes of the two kinds of literal, as pairs of the character
    after the backslash and the character it stands for: n, t, r, the
    quote of the literal's own kind, and the backslash. *)
Definition char_escapes : list (Z * Z) := [(110, 10); (116, 9); (114, 13); (39, 39); (92, 92)].
Definition string_escapes : list (Z * Z) := [(110, 10); (116, 9); (114, 13); (34, 34); (92, 92)].

Definition is_escape (tbl : list (Z * Z)) (e : Z) : Prop := exists d, In (e, d) tbl.

Lemma escapeInChar_table (l : lexer.Lexer) (d : Z) :
  In (lexer.currentChar l, d) char_escapes ->
  lexer.escapeInChar l = Ok (string_of_bytes [d]).
Proof.
  unfold lexer.escapeInChar, char_escapes. cbn [In].
  intros [H | [H | [H | [H | [H | []]]]]]; injection H as <- <-; reflexivity.
Qed.

Lemma escapeInChar_other (l : lexer.Lexer) :
  ~ is_escape char_escapes (lexer.currentChar l) ->
  lexer.escapeInChar l
  = Panic (InvalidEscapeInChar (lexer.currentChar l) (lexer.line l) (lexer.column l)).
Proof.
  intros Hno. unfold lexer.escapeInChar.
  repeat match goal with
         | |- (if ?c =? ?k then _ else _) = _ =>
             let E := fresh "E" in
             destruct (Z.eqb_spec c k) as [E | E];
             [exfalso; apply Hno; eexists; rewrite E; unfold char_escapes; cbn [In]; eauto 10 |]
         end.
  reflexivity.
Qed.

Lemma escapeInString_table (l : lexer.Lexer) (d : Z) :
  In (lexer.currentChar l, d) string_escapes ->
  lexer.escapeInString l = Ok (string_of_bytes [d]).
Proof.
  unfold lexer.escapeInString, string_escapes. cbn [In].
  intros [H | [H | [H | [H | [H | []]]]]]; injection H as <- <-; reflexivity.
Qed.

Lemma escapeInString_other (l : lexer.Lexer) :
  ~ is_escape string_escapes (lexer.currentChar l) ->
  lexer.escapeInString l
  = Panic (InvalidEscapeInString (lexer.currentChar l) (lexer.line l) (lexer.column l)).
Proof.
  intros Hno. unfold lexer.escapeInString.
  repeat match goal with
         | |- (if ?c =? ?k then _ else _) = _ =>
             let E := fresh "E" in
             destruct (Z.eqb_spec c k) as [E | E];
             [exfalso; apply Hno; eexists; rewrite E; unfold string_escapes; cbn [In]; eauto 10 |]
         end.
  reflexivity.
Qed.

Lemma NextToken_at_squote (l : lexer.Lexer) :
  lexer.currentChar l = 39 -> lexer.NextToken l = lexer.readChar l.
Proof. intros H. unfold lexer.NextToken. cbn [lexer.NextToken_loop]. rewrite H. reflexivity. Qed.

Lemma NextToken_at_dquote (l : lexer.Lexer) :
  lexer.currentChar l = 34 -> lexer.NextToken l = lexer.readString l.
Proof. intros H. unfold lexer.NextToken. cbn [lexer.NextToken_loop]. rewrite H. reflexivity. Qed.

(** A piece of the body of a string literal: an ordinary character, or a
    backslash and the character after it. *)
Inductive piece : Type :=
| Plain (a : ascii)
| Escape (e : ascii).

Definition render_piece (p : piece) : string :=
  match p with
  | Plain a => String a ""
  | Escape e => String backslash (String e "")
  end.

Fixpoint render_pieces (ps : list piece) : string :=
  match ps with
  | [] => ""
  | p :: ps' => render_piece p ++ render_pieces ps'
  end.

(** What a piece contributes to the value of the token, given the
    character [d] that an escape stands for. *)
Inductive decodes : piece -> string -> Prop :=
| decodes_plain (a : ascii) :
    rune_of_ascii a <> 34 -> rune_of_ascii a <> 92 -> rune_of_ascii a <> 0 ->
    decodes (Plain a) (string_of_rune (rune_of_ascii a))
| decodes_escape (e : ascii) (d : Z) :
    In (rune_of_ascii e, d) string_escapes ->
    decodes (Escape e) (string_of_bytes [d]).

Inductive decode_all : list piece -> string -> Prop :=
| decode_nil : decode_all [] ""
| decode_cons (p : piece) (ps : list piece) (v vs : string) :
    decodes p v -> decode_all ps vs -> decode_all (p :: ps) (v ++ vs).

Lemma readString_loop_pieces (ps : list piece) :
  forall (fuel : nat) (l : lexer.Lexer) (pre rest value vs : string),
    lexer_at l pre (render_pieces ps ++ rest) ->
    decode_all ps vs ->
    exists l' : lexer.Lexer,
      lexer.readString_loop (length ps + fuel) l value
      = lexer.readString_loop fuel l' (value ++ vs)
      /\ lexer_at l' (pre ++ render_pieces ps) rest.
Proof.
  induction ps as [| p ps IH]; intros fuel l pre rest value vs Hat Hdec.
  - inversion Hdec; subst. exists l. cbn [render_pieces String.append length Nat.add] in *.
    rewrite !string_app_nil_r. auto.
  - inversion Hdec as [| p0 ps0 v vs0 Hp Hps]; subst.
    cbn [length Nat.add lexer.readString_loop].
    inversion Hp as [a Hq Hb H0 | e d Hin]; subst;
      cbn [render_pieces render_piece String.append] in Hat.
    + destruct Hat as (Hin & Hpos & Hc). cbn [head_rune] in Hc.
      assert (Hat : lexer_at l pre (String a (render_pieces ps ++ rest))) by (repeat split; assumption).
      rewrite Hc.
      replace (rune_of_ascii a =? 34) with false by (symmetry; apply Z.eqb_neq; assumption).
      replace (rune_of_ascii a =? 0) with false by (symmetry; apply Z.eqb_neq; assumption).
      replace (rune_of_ascii a =? 92) with false by (symmetry; apply Z.eqb_neq; assumption).
      cbn [negb andb].
      destruct (IH fuel (lexer.advance l) (pre ++ String a "")%string rest
                  (value ++ string_of_rune (rune_of_ascii a))%string vs0
                  (lexer_at_advance _ _ _ _ Hat) Hps) as (l' & Hrun & Hat').
      exists l'. rewrite Hrun. split.
      * rewrite string_app_assoc. reflexivity.
      * cbn [render_pieces render_piece String.append]. rewrite string_app_assoc in Hat'. exact Hat'.
    + pose proof Hat as (Hi & Hpos & Hc). cbn [head_rune] in Hc. rewrite Hc.
      change (rune_of_ascii backslash) with 92. cbn [Z.eqb Pos.eqb negb andb].
      pose proof (lexer_at_advance _ _ _ _ Hat) as Hat1.
      pose proof (lexer_at_advance _ _ _ _ Hat1) as Hat2.
      destruct Hat1 as (_ & _ & Hc1). cbn [head_rune] in Hc1.
      rewrite (escapeInString_table _ d) by (rewrite Hc1; exact Hin).
      cbn [bind].
      destruct (IH fuel (lexer.advance (lexer.advance l))
                  ((pre ++ String backslash "") ++ String e "")%string rest
                  (value ++ string_of_bytes [d])%string vs0 Hat2 Hps) as (l' & Hrun & Hat').
      exists l'. rewrite Hrun. split.
      * rewrite string_app_assoc. reflexivity.
      * cbn [render_pieces render_piece String.append].
        rewrite !string_app_assoc in Hat'. cbn [String.append] in Hat'. exact Hat'.
Qed.

Lemma render_pieces_length (ps : list piece) :
  (length ps <= String.length (render_pieces ps))%nat.
Proof.
  induction ps as [| [a | e] ps IH]; cbn [render_pieces render_piece String.append String.length length]; lia.
Qed.

Lemma lexer_at_end_advance (l : lexer.Lexer) (pre : string) :
  lexer_at l pre "" -> lexer.currentChar (lexer.advance l) = 0.
Proof.
  intros (Hin & Hpos & Hc). unfold lexer.advance.
  destruct (lexer.currentChar l =? 10); cbn [lexer.currentChar lexer.input lexer.pos];
    rewrite Hin, Hpos, string_length_app; cbn [String.length];
    replace (String.length pre + 0 <=? S (String.length pre))%nat with true
      by (symmetry; apply Nat.leb_le; lia); reflexivity.
Qed.

Lemma readChar_escape (l : lexer.Lexer) (pre : string) (e : ascii) (d : Z) (rest : string) :
  lexer_at l pre (String squote (String backslash (String e (String squote rest)))) ->
  In (rune_of_ascii e, d) char_escapes ->
  exists l' : lexer.Lexer,
    lexer.readChar l
    = Ok (lexer.mkToken lexer.CharConst (string_of_bytes [d]) (lexer.line l) (lexer.column l), l')
    /\ lexer_at l' (pre ++ String squote (String backslash (String e (String squote "")))) rest.
Proof.
  intros Hat Hin.
  pose proof (lexer_at_advance _ _ _ _ Hat) as H1.
  pose proof (lexer_at_advance _ _ _ _ H1) as H2.
  pose proof (lexer_at_advance _ _ _ _ H2) as H3.
  pose proof (lexer_at_advance _ _ _ _ H3) as H4.
  exists (lexer.advance (lexer.advance (lexer.advance (lexer.advance l)))).
  split.
  - unfold lexer.readChar.
    destruct H1 as (_ & _ & Hc1). rewrite Hc1. cbn [head_rune].
    change (rune_of_ascii backslash =? 92) with true. cbv iota.
    destruct H2 as (_ & _ & Hc2). cbn [head_rune] in Hc2.
    rewrite (escapeInChar_table _ d) by (rewrite Hc2; exact Hin).
    cbn [bind].
    destruct H3 as (_ & _ & Hc3). rewrite Hc3. cbn [head_rune].
    change (rune_of_ascii squote =? 39) with true. reflexivity.
  - rewrite !string_app_assoc in H4. cbn [String.append] in H4. exact H4.
Qed.

Lemma readChar_bad_escape (l : lexer.Lexer) (pre rest : string) :
  lexer_at l pre (String squote (String backslash rest)) ->
  ~ is_escape char_escapes (head_rune rest) ->
  exists ln col : Z,
    lexer.readChar l = Panic (InvalidEscapeInChar (head_rune rest) ln col).
Proof.
  intros Hat Hno.
  pose proof (lexer_at_advance _ _ _ _ Hat) as H1.
  pose proof (lexer_at_advance _ _ _ _ H1) as H2.
  unfold lexer.readChar.
  destruct H1 as (_ & _ & Hc1). rewrite Hc1. cbn [head_rune].
  change (rune_of_ascii backslash =? 92) with true. cbv iota.
  destruct H2 as (_ & _ & Hc2).
  rewrite escapeInChar_other by (rewrite Hc2; exact Hno).
  rewrite Hc2. cbn [bind]. eauto.
Qed.

Lemma readChar_unclosed_plain (l : lexer.Lexer) (pre : string) (a : ascii) (rest : string) :
  lexer_at l pre (String squote (String a rest)) ->
  rune_of_ascii a <> 92 ->
  head_rune rest <> 39 ->
  lexer.readChar l = Panic (UnclosedChar (lexer.line l) (lexer.column l)).
Proof.
  intros Hat Ha Hrest.
  pose proof (lexer_at_advance _ _ _ _ Hat) as H1.
  pose proof (lexer_at_advance _ _ _ _ H1) as H2.
  unfold lexer.readChar.
  destruct H1 as (_ & _ & Hc1). rewrite Hc1. cbn [head_rune].
  replace (rune_of_ascii a =? 92) with false by (symmetry; apply Z.eqb_neq; exact Ha).
  cbn [bind].
  destruct H2 as (_ & _ & Hc2). rewrite Hc2.
  replace (head_rune rest =? 39) with false by (symmetry; apply Z.eqb_neq; exact Hrest).
  reflexivity.
Qed.

Lemma readChar_unclosed_at_end (l : lexer.Lexer) (pre : string) :
  lexer_at l pre (String squote "") ->
  lexer.readChar l = Panic (UnclosedChar (lexer.line l) (lexer.column l)).
Proof.
  intros Hat.
  pose proof (lexer_at_advance _ _ _ _ Hat) as H1.
  pose proof (lexer_at_end_advance _ _ H1) as H2.
  unfold lexer.readChar.
  destruct H1 as (_ & _ & Hc1). rewrite Hc1. cbn [head_rune bind Z.eqb].
  rewrite H2. reflexivity.
Qed.

Lemma readChar_unclosed_escape (l : lexer.Lexer) (pre : string) (e : ascii) (rest : string) :
  lexer_at l pre (String squote (String backslash (String e rest))) ->
  is_escape char_escapes (rune_of_ascii e) ->
  head_rune rest <> 39 ->
  lexer.readChar l = Panic (UnclosedChar (lexer.line l) (lexer.column l)).
Proof.
  intros Hat [d Hin] Hrest.
  pose proof (lexer_at_advance _ _ _ _ Hat) as H1.
  pose proof (lexer_at_advance _ _ _ _ H1) as H2.
  pose proof (lexer_at_advance _ _ _ _ H2) as H3.
  unfold lexer.readChar.
  destruct H1 as (_ & _ & Hc1). rewrite Hc1. cbn [head_rune].
  change (rune_of_ascii backslash =? 92) with true. cbv iota.
  destruct H2 as (_ & _ & Hc2). cbn [head_rune] in Hc2.
  rewrite (escapeInChar_table _ d) by (rewrite Hc2; exact Hin).
  cbn [bind].
  destruct H3 as (_ & _ & Hc3). rewrite Hc3.
  replace (head_rune rest =? 39) with false by (symmetry; apply Z.eqb_neq; exact Hrest).
  reflexivity.
Qed.

(** The loop of [readString] run over the body [ps] of a literal, from
    the lexer standing on the opening quote. *)
Lemma readString_body (l : lexer.Lexer) (pre : string) (ps : list piece) (rest vs : string) :
  lexer_at l pre (String dquote (render_pieces ps ++ rest)) ->
  decode_all ps vs ->
  exists (l' : lexer.Lexer) (fuel : nat),
    lexer.readString_loop (lexer.loop_fuel (lexer.advance l)) (lexer.advance l) ""
    = lexer.readString_loop (S fuel) l' vs
    /\ lexer_at l' (pre ++ String dquote (render_pieces ps)) rest.
Proof.
  intros Hat Hdec.
  pose proof (lexer_at_advance _ _ _ _ Hat) as H1.
  assert (Hfuel : exists fuel, lexer.loop_fuel (lexer.advance l) = (length ps + S fuel)%nat).
  { pose proof (lexer_at_fuel _ _ _ _ H1) as Hf. pose proof (render_pieces_length ps) as Hl.
    unfold lexer.loop_fuel in *.
    exists (String.length (lexer.input (lexer.advance l)) - lexer.pos (lexer.advance l) - length ps)%nat.
    destruct H1 as (Hi & Hp & _). rewrite Hi, Hp, !string_length_app in *. lia. }
  destruct Hfuel as [fuel Hfuel]. rewrite Hfuel.
  destruct (readString_loop_pieces ps (S fuel) (lexer.advance l) _ rest ""%string vs H1 Hdec)
    as (l' & Hrun & Hat').
  exists l', fuel. split; [exact Hrun |].
  rewrite string_app_assoc in Hat'. exact Hat'.
Qed.

(** C3, as stated, fails: a backslash followed by a double quote inside a
    character literal, and a backslash followed by a single quote inside
    a string literal, are not decoded: both panic as invalid escapes. *)
Lemma C3_counterexample_foreign_quote_escape :
  lexer.NextToken (lexer.New (String squote (String backslash (String dquote (String squote "")))))
  = Panic (InvalidEscapeInChar 34 1 3)
  /\ lexer.NextToken (lexer.New (String dquote (String backslash (String squote (String dquote "")))))
     = Panic (InvalidEscapeInString 39 1 3).
Proof. split; vm_compute; reflexivity. Qed.

(** C3 (amended): each kind of literal has five escapes -- n, t, r and
    backslash, and the quote of its own kind: the single quote in a
    character literal, the double quote in a string literal -- which
    decode to the character they stand for; any other character after a
    backslash (the quote of the other kind included, and the end of the
    input) and a missing closing quote make [NextToken] panic. *)
Theorem C3_escapes_of_each_literal_kind :
  (forall (l : lexer.Lexer) (pre : string) (e : ascii) (d : Z) (rest : string),
      lexer_at l pre (String squote (String backslash (String e (String squote rest)))) ->
      In (rune_of_ascii e, d) char_escapes ->
      exists l' : lexer.Lexer,
        lexer.NextToken l
        = Ok (lexer.mkToken lexer.CharConst (string_of_bytes [d]) (lexer.line l) (lexer.column l), l')
        /\ lexer_at l' (pre ++ String squote (String backslash (String e (String squote "")))) rest)
  /\ (forall (l : lexer.Lexer) (pre rest : string),
        lexer_at l pre (String squote (String backslash rest)) ->
        ~ is_escape char_escapes (head_rune rest) ->
        exists ln col : Z,
          lexer.NextToken l = Panic (InvalidEscapeInChar (head_rune rest) ln col))
  /\ (forall (l : lexer.Lexer) (pre body rest : string),
        lexer_at l pre (String squote (body ++ rest)) ->
        (body = ""%string /\ rest = ""%string)
        \/ (exists a, body = String a "" /\ rune_of_ascii a <> 92)
        \/ (exists e, body = String backslash (String e "")
                      /\ is_escape char_escapes (rune_of_ascii e)) ->
        head_rune rest <> 39 ->
        lexer.NextToken l = Panic (UnclosedChar (lexer.line l) (lexer.column l)))
  /\ (forall (l : lexer.Lexer) (pre : string) (ps : list piece) (rest vs : string),
        lexer_at l pre (String dquote (render_pieces ps ++ String dquote rest)) ->
        decode_all ps vs ->
        exists l' : lexer.Lexer,
          lexer.NextToken l
          = Ok (lexer.mkToken lexer.STRING vs (lexer.line l) (lexer.column l), l')
          /\ lexer_at l' ((pre ++ String dquote (render_pieces ps)) ++ String dquote "") rest)
  /\ (forall (l : lexer.Lexer) (pre : string) (ps : list piece) (rest vs : string),
        lexer_at l pre (String dquote (render_pieces ps ++ String backslash rest)) ->
        decode_all ps vs ->
        ~ is_escape string_escapes (head_rune rest) ->
        exists ln col : Z,
          lexer.NextToken l = Panic (InvalidEscapeInString (head_rune rest) ln col))
  /\ (forall (l : lexer.Lexer) (pre : string) (ps : list piece) (rest vs : string),
        lexer_at l pre (String dquote (render_pieces ps ++ rest)) ->
        decode_all ps vs ->
        head_rune rest = 0 ->
        lexer.NextToken l = Panic (UnclosedString (lexer.line l) (lexer.column l))).
Proof.
  split; [| split; [| split; [| split; [| split]]]].
  - intros l pre e d rest Hat Hin.
    rewrite NextToken_at_squote by (destruct Hat as (_ & _ & Hc); exact Hc).
    eapply readChar_escape; eauto.
  - intros l pre rest Hat Hno.
    rewrite NextToken_at_squote by (destruct Hat as (_ & _ & Hc); exact Hc).
    eapply readChar_bad_escape; eauto.
  - intros l pre body rest Hat Hbody Hrest.
    rewrite NextToken_at_squote by (destruct Hat as (_ & _ & Hc); exact Hc).
    destruct Hbody as [[-> ->] | [(a & -> & Ha) | (e & -> & He)]]; cbn [String.append] in Hat.
    + eapply readChar_unclosed_at_end; eauto.
    + eapply readChar_unclosed_plain; eauto.
    + eapply readChar_unclosed_escape; eauto.
  - intros l pre ps rest vs Hat Hdec.
    rewrite NextToken_at_dquote by (destruct Hat as (_ & _ & Hc); exact Hc).
    destruct (readString_body _ _ _ _ _ Hat Hdec) as (l' & fuel & Hrun & Hat').
    exists (lexer.advance l'). split; [| apply lexer_at_advance; exact Hat'].
    unfold lexer.readString. rewrite Hrun.
    destruct Hat' as (_ & _ & Hc). cbn [lexer.readString_loop]. rewrite Hc.
    cbn [head_rune]. change (rune_of_ascii dquote =? 34) with true. cbn [negb andb bind].
    rewrite Hc. cbn [head_rune]. change (rune_of_ascii dquote =? 34) with true. reflexivity.
  - intros l pre ps rest vs Hat Hdec Hno.
    rewrite NextToken_at_dquote by (destruct Hat as (_ & _ & Hc); exact Hc).
    destruct (readString_body _ _ _ _ _ Hat Hdec) as (l' & fuel & Hrun & Hat').
    unfold lexer.readString. rewrite Hrun.
    pose proof (lexer_at_advance _ _ _ _ Hat') as (_ & _ & Hc1).
    destruct Hat' as (_ & _ & Hc). cbn [lexer.readString_loop]. rewrite Hc.
    cbn [head_rune]. change (rune_of_ascii backslash) with 92. cbn [Z.eqb Pos.eqb negb andb].
    rewrite escapeInString_other by (rewrite Hc1; exact Hno).
    rewrite Hc1. cbn [bind]. eauto.
  - intros l pre ps rest vs Hat Hdec Hend.
    rewrite NextToken_at_dquote by (destruct Hat as (_ & _ & Hc); exact Hc).
    destruct (readString_body _ _ _ _ _ Hat Hdec) as (l' & fuel & Hrun & Hat').
    unfold lexer.readString. rewrite Hrun.
    destruct Hat' as (_ & _ & Hc). cbn [lexer.readString_loop]. rewrite Hc, Hend.
    cbn [Z.eqb negb andb bind]. rewrite Hc, Hend. reflexivity.
Qed.

Lemma C3_witness :
  exists l' : lexer.Lexer,
    lexer.NextToken (lexer.New (String squote (String backslash (String "n" (String squote "+"%string)))))
    = Ok (lexer.mkToken lexer.CharConst (string_of_bytes [10]) 1 1, l')
    /\ lexer_at l' (String squote (String backslash (String "n" (String squote "")))) "+".
Proof.
  apply (proj1 C3_escapes_of_each_literal_kind
           (lexer.New (String squote (String backslash (String "n" (String squote "+"%string)))))
           ""%string "n"%char 10 "+"%string).
  - unfold lexer_at. repeat split; vm_compute; reflexivity.
  - vm_compute. left. reflexivity.
Defined.

(** ** What the compiler emits *)

(** The integer literals of a tree, in the order [Compile] meets them. *)
Fixpoint literals (node : ast.Node) : list Z :=
  match node with
  | ast.Program e => literals e
  | ast.InfixExpression _ lhs _ rhs => literals lhs ++ literals rhs
  | ast.IntegerLiteral _ v => [v]
  | _ => []
  end.

(** An instruction as [Instructions.String] and [vm.Run] decode it. *)
Inductive Instr : Type :=
| ILoad (index : Z)
| IAdd
| ISub.

(** The instructions of a tree compiled when the pool holds [k] constants. *)
Fixpoint asm (k : Z) (node : ast.Node) : list Instr :=
  match node with
  | ast.Program e => asm k e
  | ast.InfixExpression _ lhs op rhs =>
      asm k lhs ++ asm (k + Z.of_nat (length (literals lhs))) rhs
        ++ (if String.eqb op "+" then [IAdd] else if String.eqb op "-" then [ISub] else [])
  | ast.IntegerLiteral _ _ => [ILoad k]
  | _ => []
  end.

(** The bytes of an instruction: the opcode and, for a load, the two
    bytes that [emit] writes for its operand. *)
Definition encode (i : Instr) : list Z :=
  match i with
  | ILoad k => [compiler.OpConstant; compiler.byte (Z.shiftr k 8); compiler.byte k]
  | IAdd => [compiler.OpAdd]
  | ISub => [compiler.OpSub]
  end.

Definition encode_all (code : list Instr) : list Z := concat (map encode code).

(** The loop of [Instructions.String] without the formatting: [None] where
    it would read past the end or meet an unknown opcode. *)
Fixpoint disassemble (ins : list Z) : option (list Instr) :=
  match ins with
  | [] => Some []
  | op :: rest =>
      if op =? compiler.OpConstant then
        match rest with
        | hi :: lo :: rest' =>
            match disassemble rest' with
            | Some code => Some (ILoad (Z.lor (Z.shiftl hi 8) lo) :: code)
            | None => None
            end
        | _ => None
        end
      else if op =? compiler.OpAdd then
        match disassemble rest with Some code => Some (IAdd :: code) | None => None end
      else if op =? compiler.OpSub then
        match disassemble rest with Some code => Some (ISub :: code) | None => None end
      else None
  end.

(** The operands of the load instructions, in program order. *)
Fixpoint load_operands (code : list Instr) : list Z :=
  match code with
  | [] => []
  | ILoad k :: code' => k :: load_operands code'
  | _ :: code' => load_operands code'
  end.

Lemma encode_all_app (code1 code2 : list Instr) :
  encode_all (code1 ++ code2) = encode_all code1 ++ encode_all code2.
Proof. unfold encode_all. rewrite map_app, concat_app. reflexivity. Qed.

Lemma Compile_asm (node : ast.Node) :
  forall c : compiler.Compiler,
    compiler.Compile c node
    = ({| compiler.instructions :=
            compiler.instructions c ++ encode_all (asm (Z.of_nat (length (compiler.constants c))) node);
          compiler.constants := compiler.constants c ++ map OInt64 (literals node) |},
       None).
Proof.
  induction node as [| e IH | t v | t lhs IHl op rhs IHr | lit]; intros c;
    cbn [compiler.Compile asm literals map].
  - destruct c; cbn. rewrite !app_nil_r. reflexivity.
  - rewrite IH. reflexivity.
  - unfold compiler.emit. cbn [compiler.instructions compiler.constants fold_left].
    rewrite length_app. cbn [length].
    replace (Z.of_nat (length (compiler.constants c) + 1) - 1)
      with (Z.of_nat (length (compiler.constants c))) by lia.
    reflexivity.
  - rewrite IHl, IHr. cbn [compiler.instructions compiler.constants].
    rewrite length_app, length_map, Nat2Z.inj_add.
    rewrite !encode_all_app, map_app, !app_assoc.
    destruct (String.eqb op "+"); [| destruct (String.eqb op "-")];
      unfold compiler.emit; cbn [compiler.instructions compiler.constants fold_left];
      rewrite ?app_nil_r, ?app_assoc; reflexivity.
  - destruct c; cbn. rewrite !app_nil_r. reflexivity.
Qed.

Lemma lor_shiftl_8 (a b : Z) : 0 <= b < 256 -> Z.lor (Z.shiftl a 8) b = a * 256 + b.
Proof.
  intros Hb.
  assert (Hland : Z.land (Z.shiftl a 8) b = 0).
  { apply Z.bits_inj'. intros n Hn. rewrite Z.land_spec, Z.bits_0.
    destruct (Z.lt_ge_cases n 8) as [Hlt | Hge].
    - rewrite Z.shiftl_spec_low by exact Hlt. reflexivity.
    - replace (Z.testbit b n) with false; [apply andb_false_r |].
      symmetry. destruct (Z.eq_dec b 0) as [-> | Hnz]; [apply Z.bits_0 |].
      apply Z.bits_above_log2; [lia |].
      apply Z.log2_lt_pow2; [lia |].
      apply Z.lt_le_trans with (2 ^ 8); [lia | apply Z.pow_le_mono_r; lia]. }
  rewrite <- Z.lxor_lor by exact Hland.
  rewrite <- Z.add_nocarry_lxor by exact Hland.
  rewrite Z.shiftl_mul_pow2 by lia. reflexivity.
Qed.

(** The two operand bytes of [emit] read back by the VM: the index
    modulo 2^16. *)
Lemma operand_read_back (k : Z) :
  Z.lor (Z.shiftl (compiler.byte (Z.shiftr k 8)) 8) (compiler.byte k) = k mod 65536.
Proof.
  unfold compiler.byte.
  rewrite lor_shiftl_8 by (apply Z.mod_pos_bound; lia).
  rewrite Z.shiftr_div_pow2 by lia.
  change (2 ^ 8) with 256.
  change 65536 with (256 * 256).
  rewrite Z.rem_mul_r by lia. lia.
Qed.

Definition wrap16 (i : Instr) : Instr :=
  match i with
  | ILoad k => ILoad (k mod 65536)
  | _ => i
  end.

Lemma disassemble_encode_all (code : list Instr) :
  disassemble (encode_all code) = Some (map wrap16 code).
Proof.
  induction code as [| [k | |] code IH]; [reflexivity | | |];
    unfold encode_all in *; cbn [map concat encode app disassemble];
    cbn [compiler.OpConstant compiler.OpAdd compiler.OpSub Z.eqb Pos.eqb];
    rewrite IH; [rewrite operand_read_back |..]; reflexivity.
Qed.

Lemma load_operands_app (code1 code2 : list Instr) :
  load_operands (code1 ++ code2) = load_operands code1 ++ load_operands code2.
Proof.
  induction code1 as [| [k | |] code1 IH]; cbn [app load_operands]; rewrite ?IH; reflexivity.
Qed.

Lemma load_operands_asm (node : ast.Node) :
  forall k : Z,
    load_operands (asm k node)
    = map (fun i => k + Z.of_nat i) (seq 0 (length (literals node))).
Proof.
  induction node as [| e IH | t v | t lhs IHl op rhs IHr | lit]; intros k;
    cbn [asm literals load_operands length seq map]; auto.
  - f_equal. lia.
  - rewrite !load_operands_app, IHl, IHr, length_app, seq_app, map_app.
    f_equal.
    replace (load_operands _) with (@nil Z)
      by (destruct (String.eqb op "+"); [| destruct (String.eqb op "-")]; reflexivity).
    rewrite app_nil_r. cbn [Nat.add].
    replace (seq (length (literals lhs)) (length (literals rhs)))
      with (map (Nat.add (length (literals lhs))) (seq 0 (length (literals rhs))))
      by (rewrite <- (Nat.add_0_r (length (literals lhs))) at 2; apply fmap_add_seq).
    rewrite map_map. apply map_ext. intros i. lia.
Qed.

Lemma load_operands_wrap16 (code : list Instr) :
  load_operands (map wrap16 code) = map (fun k => k mod 65536) (load_operands code).
Proof.
  induction code as [| [k | |] code IH]; cbn [map wrap16 load_operands]; rewrite ?IH; reflexivity.
Qed.

Lemma Compile_New_pool (node : ast.Node) :
  let c := fst (compiler.Compile compiler.New node) in
  snd (compiler.Compile compiler.New node) = None
  /\ compiler.constants c = map OInt64 (literals node)
  /\ disassemble (compiler.instructions c) = Some (map wrap16 (asm 0 node))
  /\ load_operands (map wrap16 (asm 0 node))
     = map (fun i => Z.of_nat i mod 65536) (seq 0 (length (literals node))).
Proof.
  rewrite Compile_asm. cbn [fst snd compiler.New compiler.instructions compiler.constants app length].
  split; [reflexivity | split; [reflexivity | split]].
  - apply disassemble_encode_all.
  - rewrite load_operands_wrap16, load_operands_asm, map_map. reflexivity.
Qed.

(** A chain of [n + 1] literals [0 + 0 + ... + 0], nested to the left as
    the parser builds it. *)
Fixpoint zeros_chain (n : nat) : ast.Node :=
  match n with
  | O => ast.IntegerLiteral (lexer.mkToken lexer.NUMBER "0" 1 1) 0
  | S n' =>
      ast.InfixExpression (lexer.mkToken lexer.PLUS "+" 1 1) (zeros_chain n') "+"
        (ast.IntegerLiteral (lexer.mkToken lexer.NUMBER "0" 1 1) 0)
  end.

Lemma zeros_chain_literals (n : nat) : length (literals (zeros_chain n)) = S n.
Proof.
  induction n as [| n IH]; [reflexivity |].
  cbn [zeros_chain literals]. rewrite length_app, IH. cbn [length]. lia.
Qed.

(** C4, as stated, fails: the compiler enforces no limit.  A tree of
    65537 literals compiles without error to a pool of 65537 constants,
    and the load of the last one, at pool position 65536, carries the
    index 0. *)
Lemma C4_counterexample_pool_beyond_16_bits :
  let node := zeros_chain (Z.to_nat 65536) in
  let c := fst (compiler.Compile compiler.New node) in
  snd (compiler.Compile compiler.New node) = None
  /\ Z.of_nat (length (compiler.constants c)) = 65537
  /\ exists code : list Instr,
       disassemble (compiler.instructions c) = Some code
       /\ load_operands code !! Z.to_nat 65536 = Some 0.
Proof.
  intros node c.
  destruct (Compile_New_pool node) as (Herr & Hpool & Hdis & Hops).
  fold c in Hpool, Hdis.
  assert (Hn : length (literals node) = S (Z.to_nat 65536)) by apply zeros_chain_literals.
  split; [exact Herr | split].
  - rewrite Hpool, length_map, Hn. lia.
  - eexists. split; [exact Hdis |].
    rewrite Hops, Hn, list_lookup_fmap.
    rewrite lookup_seq_lt by lia. cbn [fmap option_fmap option_map Nat.add].
    rewrite Z2Nat.id by lia. reflexivity.
Qed.

(** C4 (amended): [Compile] never fails and enforces no limit on the
    pool; the pool holds the literals of the tree in order; every index
    embedded in a load instruction fits in 16 bits, being the pool
    position of its constant modulo 2^16; for a tree of at most 65536
    literals, the pool has at most 65536 entries and the index of each
    load equals the pool position of the constant it loads. *)
Theorem C4_load_indices_are_pool_positions (node : ast.Node) :
  let c := fst (compiler.Compile compiler.New node) in
  let n := length (literals node) in
  snd (compiler.Compile compiler.New node) = None
  /\ compiler.constants c = map OInt64 (literals node)
  /\ exists code : list Instr,
       disassemble (compiler.instructions c) = Some code
       /\ Forall (fun k => 0 <= k < 65536) (load_operands code)
       /\ load_operands code = map (fun i => Z.of_nat i mod 65536) (seq 0 n)
       /\ (Z.of_nat n <= 65536 ->
           Z.of_nat (length (compiler.constants c)) <= 65536
           /\ load_operands code = map Z.of_nat (seq 0 n)).
Proof.
  intros c n.
  destruct (Compile_New_pool node) as (Herr & Hpool & Hdis & Hops).
  fold c in Hpool, Hdis. fold n in Hops.
  split; [exact Herr | split; [exact Hpool |]].
  eexists. split; [exact Hdis | split; [| split; [exact Hops |]]].
  - rewrite Hops. apply Forall_forall. intros k Hk.
    apply list_elem_of_In, in_map_iff in Hk. destruct Hk as (i & <- & _).
    apply Z.mod_pos_bound. lia.
  - intros Hn. split.
    + rewrite Hpool, length_map. exact Hn.
    + rewrite Hops. apply map_ext_in. intros i Hi.
      apply in_seq in Hi. apply Z.mod_small. lia.
Qed.

Lemma C4_witness :
  let node := zeros_chain 2 in
  Z.of_nat (length (compiler.constants (fst (compiler.Compile compiler.New node)))) <= 65536
  /\ disassemble (compiler.instructions (fst (compiler.Compile compiler.New node)))
     = Some [ILoad 0; ILoad 1; IAdd; ILoad 2; IAdd].
Proof.
  intros node.
  destruct (C4_load_indices_are_pool_positions node) as (_ & _ & code & Hdis & _ & _ & Hsmall).
  destruct Hsmall as [Hlen _]; [vm_compute; discriminate |].
  split; [exact Hlen | vm_compute; reflexivity].
Defined.

(** ** Running compiled code *)

Lemma iteration_load (m : vm.VM) (ip hi lo : Z) (o : Object) :
  vm_ok m ->
  vm.index (compiler.Instructions (vm.bytecode m)) ip = Ok compiler.OpConstant ->
  vm.index (compiler.Instructions (vm.bytecode m)) (ip + 1) = Ok hi ->
  vm.index (compiler.Instructions (vm.bytecode m)) (ip + 2) = Ok lo ->
  vm.index (compiler.Constants (vm.bytecode m)) (Z.lor (Z.shiftl hi 8) lo) = Ok o ->
  vm.sp m < vm.StackSize ->
  vm.iteration m ip = Ok (inl (pushed m o, ip + 3)).
Proof.
  intros [Hlen Hsp] H0 H1 H2 Hc Hroom.
  unfold vm.iteration. rewrite H0. cbn [bind]. change (compiler.OpConstant =? compiler.OpConstant) with true.
  cbv iota. rewrite H1. cbn [bind].
  replace (ip + 1 + 1) with (ip + 2) by lia. rewrite H2. cbn [bind]. rewrite Hc. cbn [bind].
  rewrite push_room by (auto; lia). cbn [bind].
  replace (ip + 1 + 2) with (ip + 3) by lia. reflexivity.
Qed.

(** [runs P m ip m' ip']: the loop of [Run], entered at [ip] with the VM
    [m], reaches [ip'] with the VM [m'] without returning, and [P] holds
    of the VM at the head of every iteration on the way, both ends
    included. *)
Inductive runs (P : vm.VM -> Prop) : vm.VM -> Z -> vm.VM -> Z -> Prop :=
| runs_here (m : vm.VM) (ip : Z) : P m -> runs P m ip m ip
| runs_step (m m1 m2 : vm.VM) (ip ip1 ip2 : Z) :
    P m ->
    vm.iteration m ip = Ok (inl (m1, ip1)) ->
    runs P m1 ip1 m2 ip2 ->
    runs P m ip m2 ip2.

Lemma runs_trans (P : vm.VM -> Prop) (m1 m2 m3 : vm.VM) (ip1 ip2 ip3 : Z) :
  runs P m1 ip1 m2 ip2 -> runs P m2 ip2 m3 ip3 -> runs P m1 ip1 m3 ip3.
Proof.
  induction 1 as [m ip HP | m ma mb ip ipa ipb HP Hit Hruns IH]; intros H23.
  - exact H23.
  - eapply runs_step; eauto.
Qed.

Lemma runs_one (P : vm.VM -> Prop) (m m1 : vm.VM) (ip ip1 : Z) :
  P m -> P m1 -> vm.iteration m ip = Ok (inl (m1, ip1)) -> runs P m ip m1 ip1.
Proof. intros HP HP1 Hit. eapply runs_step; eauto. apply runs_here; exact HP1. Qed.

Lemma iteration_in_range (m : vm.VM) (ip : Z) (r : vm.VM * Z + vm.VM * compiler.error) :
  vm.iteration m ip = Ok r ->
  0 <= ip < Z.of_nat (length (compiler.Instructions (vm.bytecode m))).
Proof.
  unfold vm.iteration. intros H.
  destruct (vm.index (compiler.Instructions (vm.bytecode m)) ip) as [op | |] eqn:E;
    cbn [bind] in H; try discriminate.
  apply index_Ok_inv in E. tauto.
Qed.

(** The states of the VM at the head of every iteration of the loop of
    [Run], and the state a [return] inside the loop leaves. *)
Fixpoint Run_trace (fuel : nat) (m : vm.VM) (ip : Z) : list vm.VM :=
  m :: (if ip <? Z.of_nat (length (compiler.Instructions (vm.bytecode m))) then
          match fuel with
          | O => []
          | S fuel' =>
              match vm.iteration m ip with
              | Ok (inl (m', ip')) => Run_trace fuel' m' ip'
              | Ok (inr (m', _)) => [m']
              | _ => []
              end
          end
        else []).

Lemma runs_Run_loop (P : vm.VM -> Prop) (m m' : vm.VM) (ip ip' : Z) :
  runs P m ip m' ip' ->
  vm_ok m ->
  Z.of_nat (length (compiler.Instructions (vm.bytecode m'))) <= ip' ->
  forall fuel : nat,
    Z.of_nat (length (compiler.Instructions (vm.bytecode m))) <= ip + Z.of_nat fuel ->
    vm.Run_loop fuel m ip = Ok (m', None)
    /\ Forall P (Run_trace fuel m ip).
Proof.
  induction 1 as [m ip HP | m ma mb ip ipa ipb HP Hit Hruns IH]; intros Hok Hend fuel Hfuel.
  - split; [apply Run_loop_exit; exact Hend |].
    apply Z.ltb_ge in Hend.
    destruct fuel; cbn [Run_trace]; rewrite Hend; repeat constructor; exact HP.
  - pose proof (iteration_in_range _ _ _ Hit) as Hin.
    destruct (iteration_progress _ _ _ _ Hok Hit) as (Hok1 & Hbc & Hlt & _).
    destruct fuel as [| fuel]; [lia |].
    destruct (IH Hok1 Hend fuel) as [HR HT]; [rewrite Hbc; lia |].
    split.
    + rewrite Run_loop_unfold by lia. rewrite Hit. cbn [bind]. exact HR.
    + cbn [Run_trace]. replace (ip <? _) with true by (symmetry; apply Z.ltb_lt; lia).
      rewrite Hit. constructor; assumption.
Qed.

Lemma index_app_mid {A : Type} (pre mid post : list A) (i : nat) (a : A) :
  mid !! i = Some a ->
  vm.index (pre ++ mid ++ post) (Z.of_nat (length pre) + Z.of_nat i) = Ok a.
Proof.
  intros H. apply index_lookup; [lia |].
  replace (Z.to_nat (Z.of_nat (length pre) + Z.of_nat i)) with (length pre + i)%nat by lia.
  rewrite lookup_app_r by lia.
  replace (length pre + i - length pre)%nat with i by lia.
  apply lookup_app_l_Some. exact H.
Qed.

(** A well-formed additive expression, as the parser builds it from
    literals that all convert: a literal, or such an expression combined
    by [+] or [-] with a literal on the right. *)
Inductive additive : ast.Node -> Prop :=
| additive_literal (t : lexer.Token) (v : Z) : additive (ast.IntegerLiteral t v)
| additive_infix (t t' : lexer.Token) (lhs : ast.Node) (op : string) (v : Z) :
    additive lhs ->
    op = "+"%string \/ op = "-"%string ->
    additive (ast.InfixExpression t lhs op (ast.IntegerLiteral t' v)).

(** The value the code of a tree leaves on the stack when the load of
    the literal number [i] of the program pushes [pool i]; [k] is the
    number of the first literal of the tree. *)
Fixpoint eval (pool : Z -> Z) (k : Z) (node : ast.Node) : Z :=
  match node with
  | ast.Program e => eval pool k e
  | ast.IntegerLiteral _ _ => pool k
  | ast.InfixExpression _ lhs op rhs =>
      let a := eval pool k lhs in
      let b := eval pool (k + Z.of_nat (length (literals lhs))) rhs in
      if String.eqb op "+" then wrap64 (a + b) else wrap64 (a - b)
  | _ => 0
  end.

Lemma load_runs (m : vm.VM) (pre post : list Z) (k v : Z) :
  vm_ok m ->
  compiler.Instructions (vm.bytecode m) = pre ++ encode (ILoad k) ++ post ->
  vm.index (compiler.Constants (vm.bytecode m)) (k mod 65536) = Ok (OInt64 v) ->
  vm.sp m < vm.StackSize ->
  vm.iteration m (Z.of_nat (length pre))
  = Ok (inl (pushed m (OInt64 v), Z.of_nat (length pre) + 3)).
Proof.
  intros Hok Hins Hpool Hroom.
  apply (iteration_load m _ (compiler.byte (Z.shiftr k 8)) (compiler.byte k)); auto.
  - rewrite Hins. rewrite <- (Z.add_0_r (Z.of_nat (length pre))).
    apply (index_app_mid pre _ post 0). reflexivity.
  - rewrite Hins. apply (index_app_mid pre _ post 1). reflexivity.
  - rewrite Hins. apply (index_app_mid pre _ post 2). reflexivity.
  - rewrite operand_read_back. exact Hpool.
Qed.

Lemma run_additive (e : ast.Node) :
  additive e ->
  forall (pool : Z -> Z) (k s : Z) (pre post : list Z) (m : vm.VM),
    vm_ok m ->
    compiler.Instructions (vm.bytecode m) = pre ++ encode_all (asm k e) ++ post ->
    (forall i, k <= i < k + Z.of_nat (length (literals e)) ->
               vm.index (compiler.Constants (vm.bytecode m)) (i mod 65536) = Ok (OInt64 (pool i))) ->
    vm.sp m = s ->
    s + 2 <= vm.StackSize ->
    exists m' : vm.VM,
      runs (fun x => s <= vm.sp x <= s + 2) m (Z.of_nat (length pre))
           m' (Z.of_nat (length pre) + Z.of_nat (length (encode_all (asm k e))))
      /\ vm_ok m'
      /\ vm.bytecode m' = vm.bytecode m
      /\ vm.sp m' = s + 1
      /\ vm.stack m' !! Z.to_nat s = Some (OInt64 (eval pool k e)).
Proof.
  induction 1 as [t v | t t' lhs op v Hlhs IH Hop];
    intros pool k s pre post m Hok Hins Hpool Hsp Hs.
  - cbn [asm literals length eval] in *.
    assert (Hit := load_runs m pre post k (pool k) Hok Hins (Hpool k ltac:(lia)) ltac:(lia)).
    exists (pushed m (OInt64 (pool k))).
    destruct Hok as [Hlen Hrange].
    split; [| split; [| split; [| split]]].
    + apply runs_one; [lia | cbn [pushed vm.sp]; lia | exact Hit].
    + unfold vm_ok. cbn [pushed vm.stack vm.sp]. rewrite length_insert. split; [exact Hlen | lia].
    + reflexivity.
    + cbn [pushed vm.sp]. lia.
    + cbn [pushed vm.stack]. rewrite Hsp. apply list_lookup_insert_eq. rewrite Hlen. unfold vm.StackSize in *. lia.
  - cbn [asm literals eval] in *.
    assert (Hs0 : 0 <= s) by (destruct Hok; lia).
    set (nl := Z.of_nat (length (literals lhs))) in *.
    set (opi := if String.eqb op "+" then [IAdd] else if String.eqb op "-" then [ISub] else []) in *.
    rewrite !encode_all_app in Hins. rewrite length_app in Hpool.
    (* the code of the left operand *)
    destruct (IH pool k s pre (encode_all [ILoad (k + nl)] ++ encode_all opi ++ post) m Hok)
      as (m1 & Hruns1 & Hok1 & Hbc1 & Hsp1 & Hst1); auto.
    { rewrite Hins. rewrite <- !app_assoc. reflexivity. }
    { intros i Hi. apply Hpool. lia. }
    (* the load of the right operand *)
    set (pre1 := pre ++ encode_all (asm k lhs)).
    assert (Hins1 : compiler.Instructions (vm.bytecode m1)
                    = pre1 ++ encode (ILoad (k + nl)) ++ (encode_all opi ++ post)).
    { rewrite Hbc1, Hins. unfold pre1, encode_all. cbn [map concat].
      rewrite !app_nil_r, <- !app_assoc. reflexivity. }
    assert (Hit2 := load_runs m1 pre1 _ (k + nl) (pool (k + nl)) Hok1 Hins1).
    rewrite Hbc1 in Hit2. specialize (Hit2 (Hpool (k + nl) ltac:(cbn [length]; lia)) ltac:(lia)).
    set (m2 := pushed m1 (OInt64 (pool (k + nl)))) in *.
    assert (Hok2 : vm_ok m2).
    { destruct Hok1 as [Hlen1 Hr1]. unfold vm_ok, m2. cbn [pushed vm.stack vm.sp].
      rewrite length_insert. split; [exact Hlen1 | lia]. }
    (* the arithmetic opcode *)
    set (opc := if String.eqb op "+" then compiler.OpAdd else compiler.OpSub).
    assert (Hopi : encode_all opi = [opc]).
    { unfold opi, opc. destruct Hop as [-> | ->]; reflexivity. }
    assert (Hidx3 : vm.index (compiler.Instructions (vm.bytecode m2)) (Z.of_nat (length pre1) + 3) = Ok opc).
    { change (vm.bytecode m2) with (vm.bytecode m1). rewrite Hins1, Hopi.
      replace (pre1 ++ encode (ILoad (k + nl)) ++ [opc] ++ post)
        with ((pre1 ++ encode (ILoad (k + nl))) ++ [opc] ++ post) by (rewrite <- app_assoc; reflexivity).
      replace (Z.of_nat (length pre1) + 3)
        with (Z.of_nat (length (pre1 ++ encode (ILoad (k + nl)))) + Z.of_nat 0)
        by (rewrite length_app; cbn [encode length]; lia).
      apply index_app_mid. reflexivity. }
    destruct Hok1 as [Hlen1 Hr1].
    assert (Hst2r : vm.stack m2 !! Z.to_nat (vm.sp m2 - 1) = Some (OInt64 (pool (k + nl)))).
    { unfold m2. cbn [pushed vm.stack vm.sp]. replace (vm.sp m1 + 1 - 1) with (vm.sp m1) by lia.
      apply list_lookup_insert_eq. rewrite Hlen1. unfold vm.StackSize in *. lia. }
    assert (Hst2l : vm.stack m2 !! Z.to_nat (vm.sp m2 - 2) = Some (OInt64 (eval pool k lhs))).
    { unfold m2. cbn [pushed vm.stack vm.sp]. replace (vm.sp m1 + 1 - 2) with s by lia.
      rewrite list_lookup_insert_ne by lia. exact Hst1. }
    destruct (iteration_arith m2 (Z.of_nat (length pre1) + 3) opc
                (eval pool k lhs) (pool (k + nl)) Hok2 Hidx3) as (_ & _ & Hit3); auto.
    { unfold opc. destruct (String.eqb op "+"); auto. }
    { unfold m2. cbn [pushed vm.sp]. lia. }
    set (res := OInt64 (if opc =? compiler.OpAdd then wrap64 (eval pool k lhs + pool (k + nl))
                        else wrap64 (eval pool k lhs - pool (k + nl)))) in *.
    set (m3 := pushed (with_sp m2 (vm.sp m2 - 2)) res) in *.
    assert (Hsp2 : vm.sp m2 = s + 2) by (unfold m2; cbn [pushed vm.sp]; lia).
    exists m3.
    split; [| split; [| split; [| split]]].
    + eapply runs_trans; [exact Hruns1 |].
      eapply runs_step; [lia | |].
      { unfold pre1 in Hit2. rewrite length_app, Nat2Z.inj_add in Hit2. exact Hit2. }
      eapply runs_step; [lia | |].
      { unfold pre1 in Hit3. rewrite length_app, Nat2Z.inj_add in Hit3. exact Hit3. }
      replace (Z.of_nat (length pre) + Z.of_nat (length (encode_all (asm k lhs))) + 3 + 1)
        with (Z.of_nat (length pre)
              + Z.of_nat (length (encode_all (asm k lhs ++ [ILoad (k + nl)] ++ opi)))).
      * apply runs_here. unfold m3. cbn [pushed with_sp vm.sp]. lia.
      * rewrite !encode_all_app, !length_app, Hopi. unfold encode_all. cbn [map concat encode length app]. lia.
    + unfold vm_ok, m3. cbn [pushed with_sp vm.stack vm.sp]. rewrite length_insert.
      destruct Hok2 as [Hlen2 _]. split; [exact Hlen2 | lia].
    + unfold m3, m2. cbn [pushed with_sp vm.bytecode]. exact Hbc1.
    + unfold m3. cbn [pushed with_sp vm.sp]. lia.
    + unfold m3. cbn [pushed with_sp vm.stack vm.sp].
      replace (vm.sp m2 - 2) with s by lia.
      rewrite list_lookup_insert_eq
        by (destruct Hok2 as [Hlen2 _]; rewrite Hlen2; unfold vm.StackSize in *; lia).
      unfold res, opc. fold nl. cbn [eval].
      destruct (String.eqb op "+"); reflexivity.
Qed.

(** The value of a tree: literals combined from the leaves up in 64-bit
    wrap-around arithmetic. *)
Fixpoint value (node : ast.Node) : Z :=
  match node with
  | ast.Program e => value e
  | ast.IntegerLiteral _ v => v
  | ast.InfixExpression _ lhs op rhs =>
      if String.eqb op "+" then wrap64 (value lhs + value rhs)
      else wrap64 (value lhs - value rhs)
  | _ => 0
  end.

Lemma eval_value (pool : Z -> Z) (node : ast.Node) :
  forall k : Z,
    (forall i : nat, (i < length (literals node))%nat ->
                     pool (k + Z.of_nat i) = nth i (literals node) 0) ->
    eval pool k node = value node.
Proof.
  induction node as [| e IH | t v | t lhs IHl op rhs IHr | lit]; intros k Hpool;
    cbn [eval value literals] in *; auto.
  - specialize (Hpool 0%nat). cbn [length nth] in Hpool.
    rewrite Z.add_0_r in Hpool. apply Hpool. lia.
  - rewrite length_app in Hpool.
    rewrite (IHl k), (IHr (k + Z.of_nat (length (literals lhs)))); [reflexivity | |].
    + intros i Hi. specialize (Hpool (length (literals lhs) + i)%nat ltac:(lia)).
      rewrite app_nth2 in Hpool by lia.
      replace (length (literals lhs) + i - length (literals lhs))%nat with i in Hpool by lia.
      rewrite <- Hpool. f_equal. lia.
    + intros i Hi. specialize (Hpool i ltac:(lia)).
      rewrite app_nth1 in Hpool by lia. exact Hpool.
Qed.

(** The constant that the load of literal number [i] pushes: the index is
    written on 16 bits. *)
Definition loaded (vs : list Z) (i : Z) : Z := nth (Z.to_nat (i mod 65536)) vs 0.

Lemma index_pool (vs : list Z) (i : Z) :
  0 <= i < Z.of_nat (length vs) ->
  vm.index (map OInt64 vs) (i mod 65536) = Ok (OInt64 (loaded vs i)).
Proof.
  intros Hi.
  assert (Hm : 0 <= i mod 65536 <= i).
  { split; [apply Z.mod_pos_bound; lia | apply Z.mod_le; lia]. }
  apply index_lookup; [lia |].
  rewrite list_lookup_fmap. unfold loaded. rewrite nth_lookup.
  destruct (lookup_lt_is_Some_2 vs (Z.to_nat (i mod 65536))) as [x Hx]; [lia |].
  rewrite Hx. reflexivity.
Qed.

(** The bytecode of a program, as [main] obtains it. *)
Definition compiled (e : ast.Node) : compiler.Bytecode :=
  compiler.Bytecode_ (fst (compiler.Compile compiler.New (ast.Program e))).

Lemma compiled_eq (e : ast.Node) :
  compiled e = compiler.mkBytecode (encode_all (asm 0 e)) (map OInt64 (literals e)).
Proof.
  unfold compiled. rewrite Compile_asm. reflexivity.
Qed.

Lemma compiled_additive_runs (e : ast.Node) :
  additive e ->
  exists m' : vm.VM,
    vm.Run (vm.New (compiled e)) = Ok (m', None)
    /\ Forall (fun x => 0 <= vm.sp x <= 2)
              (Run_trace (length (compiler.Instructions (compiled e))) (vm.New (compiled e)) 0)
    /\ vm.sp m' = 1
    /\ vm.StackTop m' = Ok (OInt64 (eval (loaded (literals e)) 0 e)).
Proof.
  intros Hadd.
  destruct (run_additive e Hadd (loaded (literals e)) 0 0 [] [] (vm.New (compiled e)))
    as (m' & Hruns & Hok' & Hbc' & Hsp' & Hst').
  - apply vm_ok_New.
  - cbn [vm.New vm.bytecode]. rewrite compiled_eq. cbn [compiler.Instructions app].
    rewrite app_nil_r. reflexivity.
  - intros i Hi. cbn [vm.New vm.bytecode]. rewrite compiled_eq. cbn [compiler.Constants].
    apply index_pool. lia.
  - reflexivity.
  - unfold vm.StackSize. lia.
  - cbn [length Z.of_nat Z.add] in Hruns.
    assert (Hlen : Z.of_nat (length (encode_all (asm 0 e)))
                   = Z.of_nat (length (compiler.Instructions (vm.bytecode m')))).
    { rewrite Hbc'. cbn [vm.New vm.bytecode]. rewrite compiled_eq. reflexivity. }
    destruct (runs_Run_loop _ _ _ _ _ Hruns (vm_ok_New _)
                ltac:(rewrite Z.add_0_l, Hlen; lia)
                (length (compiler.Instructions (compiled e))))
      as [HR HT].
    { cbn [vm.New vm.bytecode]. lia. }
    exists m'. split; [exact HR | split; [exact HT | split; [exact Hsp' |]]].
    unfold vm.StackTop. rewrite Hsp'. cbn [Z.eqb].
    apply index_lookup; [lia | exact Hst'].
Qed.

(** C9: the bytecode of a well-formed additive expression, of any number
    of literals, run on a fresh VM: the stack pointer is between 0 and 2
    at the head of every iteration of the loop (an iteration pops before
    it pushes, so it never goes beyond in between), and [Run] returns
    nil, not the overflow error, with the result on top of the stack. *)
Theorem C9_additive_code_runs_in_depth_two (e : ast.Node) :
  additive e ->
  (exists m' : vm.VM,
      vm.Run (vm.New (compiled e)) = Ok (m', None) /\ vm.sp m' = 1)
  /\ Forall (fun x => 0 <= vm.sp x <= 2)
            (Run_trace (length (compiler.Instructions (compiled e))) (vm.New (compiled e)) 0).
Proof.
  intros Hadd.
  destruct (compiled_additive_runs e Hadd) as (m' & HR & HT & Hsp & _).
  split; [exists m'; auto | exact HT].
Qed.

Lemma C9_witness :
  (exists m' : vm.VM,
      vm.Run (vm.New (compiled (zeros_chain 3))) = Ok (m', None) /\ vm.sp m' = 1)
  /\ Forall (fun x => 0 <= vm.sp x <= 2)
            (Run_trace (length (compiler.Instructions (compiled (zeros_chain 3))))
                       (vm.New (compiled (zeros_chain 3))) 0).
Proof.
  apply (C9_additive_code_runs_in_depth_two (zeros_chain 3)).
  cbn [zeros_chain]. repeat (constructor; auto).
Defined.

(** ** Tokens of an additive source text *)

Ltac zbool :=
  repeat match goal with
    | |- context [?a =? ?b] =>
        first [ replace (a =? b) with false by (symmetry; apply Z.eqb_neq; lia)
              | replace (a =? b) with true by (symmetry; apply Z.eqb_eq; lia) ]
    | |- context [?a <=? ?b] =>
        first [ replace (a <=? b) with true by (symmetry; apply Z.leb_le; lia)
              | replace (a <=? b) with false by (symmetry; apply Z.leb_gt; lia) ]
    end.

Lemma IsDigit_range (c : Z) : unicode.IsDigit c = true -> 48 <= c <= 57.
Proof.
  unfold unicode.IsDigit. intros H. apply andb_true_iff in H. destruct H as [H1 H2].
  apply Z.leb_le in H1, H2. lia.
Qed.

Lemma IsSpace_not_digit (c : Z) : unicode.IsSpace c = true -> unicode.IsDigit c = false.
Proof.
  unfold unicode.IsSpace, unicode.IsDigit. intros H.
  repeat (apply orb_true_iff in H; destruct H as [H | H]);
    apply Z.eqb_eq in H; subst c; reflexivity.
Qed.

Lemma NextToken_loop_nonspace (fuel : nat) (l : lexer.Lexer) :
  unicode.IsSpace (lexer.currentChar l) = false ->
  lexer.NextToken_loop fuel l = lexer.NextToken_loop 0 l.
Proof.
  intros H. destruct fuel; cbn [lexer.NextToken_loop]; rewrite H; reflexivity.
Qed.

Lemma NextToken_skip (l : lexer.Lexer) (pre ws rest : string) :
  lexer_at l pre (ws ++ rest) ->
  string_forall unicode.IsSpace ws = true ->
  unicode.IsSpace (head_rune rest) = false ->
  exists l1 : lexer.Lexer,
    lexer_at l1 (pre ++ ws) rest
    /\ lexer.NextToken l = lexer.NextToken_loop 0 l1.
Proof.
  intros Hat Hws Hrest. destruct ws as [| a ws].
  - exists l. cbn [String.append] in Hat. rewrite string_app_nil_r. split; [exact Hat |].
    apply NextToken_loop_nonspace. destruct Hat as (_ & _ & Hc). rewrite Hc. exact Hrest.
  - destruct (lexer_at_advance_while unicode.IsSpace (String a ws) (lexer.loop_fuel l) l pre rest
                Hat Hws Hrest (lexer_at_fuel _ _ _ _ Hat)) as (l1 & Hrun & Hat1 & _).
    exists l1. split; [exact Hat1 |].
    unfold lexer.NextToken. cbn [lexer.NextToken_loop].
    cbn [string_forall] in Hws. apply andb_true_iff in Hws. destruct Hws as [Ha _].
    destruct Hat as (_ & _ & Hc). cbn [String.append head_rune] in Hc. rewrite Hc, Ha.
    replace (rune_of_ascii a =? 0) with false.
    + unfold lexer.skipWhitespace. rewrite Hrun. reflexivity.
    + symmetry. apply Z.eqb_neq. intros H0. rewrite H0 in Ha. discriminate.
Qed.

Lemma NextToken_loop_number (l : lexer.Lexer) (pre : string) (a : ascii) (d rest : string) :
  lexer_at l pre (String a d ++ rest) ->
  string_forall unicode.IsDigit (String a d) = true ->
  unicode.IsDigit (head_rune rest) = false ->
  exists l' : lexer.Lexer,
    lexer.NextToken_loop 0 l
    = Ok (lexer.mkToken lexer.NUMBER (String a d) (lexer.line l) (lexer.column l), l')
    /\ lexer_at l' (pre ++ String a d) rest.
Proof.
  intros Hat Hd Hrest.
  destruct (lexer_at_advance_while unicode.IsDigit (String a d) (lexer.loop_fuel l) l pre rest
              Hat Hd Hrest (lexer_at_fuel _ _ _ _ Hat)) as (l' & Hrun & Hat' & Hin').
  exists l'. split; [| exact Hat'].
  pose proof Hd as Hd'. cbn [string_forall] in Hd'. apply andb_true_iff in Hd'. destruct Hd' as [Ha _].
  pose proof (IsDigit_range _ Ha) as Hr.
  destruct Hat as (Hin & Hpos & Hc). cbn [String.append head_rune] in Hc.
  cbn [lexer.NextToken_loop]. rewrite Hc.
  unfold unicode.IsSpace, unicode.IsLetter. rewrite Ha. zbool. cbn [negb orb andb].
  unfold lexer.readNumber. rewrite Hrun. cbn [bind].
  unfold lexer.slice. destruct Hat' as (Hin2 & Hpos2 & _).
  rewrite Hpos, Hpos2, Hin', Hin, !string_length_app.
  replace ((String.length pre <=? String.length pre + String.length (String a d))%nat
           && (String.length pre + String.length (String a d)
               <=? String.length pre + (String.length (String a d) + String.length rest))%nat)
    with true by (symmetry; apply andb_true_iff; split; apply Nat.leb_le; lia).
  replace (String.length pre + String.length (String a d) - String.length pre)%nat
    with (String.length (String a d)) by lia.
  rewrite string_substring_app. reflexivity.
Qed.

Lemma NextToken_loop_sign (l : lexer.Lexer) (pre : string) (a : ascii) (rest : string) :
  lexer_at l pre (String a rest) ->
  a = "+"%char \/ a = "-"%char ->
  lexer.NextToken_loop 0 l
  = Ok (lexer.mkToken (if Ascii.eqb a "+" then lexer.PLUS else lexer.MINUS) (String a "")
                      (lexer.line l) (lexer.column l),
        lexer.advance l)
  /\ lexer_at (lexer.advance l) (pre ++ String a "") rest.
Proof.
  intros Hat Ha. split; [| apply lexer_at_advance; exact Hat].
  destruct Hat as (_ & _ & Hc). cbn [head_rune] in Hc.
  cbn [lexer.NextToken_loop]. rewrite Hc.
  destruct Ha as [-> | ->]; reflexivity.
Qed.

Lemma NextToken_loop_end (l : lexer.Lexer) (pre : string) :
  lexer_at l pre "" ->
  lexer.NextToken_loop 0 l
  = Ok (lexer.mkToken lexer.EOF "" (lexer.line l) (lexer.column l), l).
Proof.
  intros (_ & _ & Hc). cbn [lexer.NextToken_loop]. rewrite Hc. reflexivity.
Qed.

(** ** Decimal literals under [strconv.ParseInt] with base 0 *)

(** The decimal value of a string of digits. *)
Definition decimal_from (n : Z) (cs : list Z) : Z :=
  fold_left (fun n c => 10 * n + (c - 48)) cs n.

Definition decimal (d : string) : Z := decimal_from 0 (bytes d).

(** A decimal literal that [ParseInt] reads in base 10 and that fits an
    [int64]: digits only, no leading zero unless it is ["0"] itself (a
    leading zero selects base 8), and a value below 2^63. *)
Definition canonical (d : string) : Prop :=
  d <> ""%string
  /\ string_forall unicode.IsDigit d = true
  /\ (d = "0"%string \/ head_rune d <> 48)
  /\ decimal d < 2^63.

Lemma decimal_from_mono (cs : list Z) :
  forall n : Z, Forall (fun c => 48 <= c <= 57) cs -> 0 <= n -> n <= decimal_from n cs.
Proof.
  induction cs as [| c cs IH]; intros n Hcs Hn; cbn [decimal_from fold_left]; [lia |].
  inversion Hcs as [| c' cs' Hc Hcs']; subst.
  specialize (IH (10 * n + (c - 48)) Hcs' ltac:(lia)). unfold decimal_from in IH. lia.
Qed.

Lemma ParseUint_loop_decimal (cs : list Z) :
  forall n : Z,
    Forall (fun c => 48 <= c <= 57) cs ->
    0 <= n ->
    decimal_from n cs < 2^64 ->
    strconv.ParseUint_loop 10 cs n false = inr (decimal_from n cs, false).
Proof.
  induction cs as [| c cs IH]; intros n Hcs Hn Hlt; [reflexivity |].
  inversion Hcs as [| c' cs' Hc Hcs']; subst.
  cbn [decimal_from fold_left] in Hlt |- *.
  pose proof (decimal_from_mono cs (10 * n + (c - 48)) Hcs' ltac:(lia)) as Hmono.
  unfold decimal_from in Hmono.
  cbn [strconv.ParseUint_loop].
  change (strconv.maxUint64 / 10 + 1) with 1844674407370955162.
  change strconv.maxUint64 with 18446744073709551615.
  replace (c =? 95) with false by (symmetry; apply Z.eqb_neq; lia).
  replace ((48 <=? c) && (c <=? 57)) with true
    by (symmetry; apply andb_true_iff; split; apply Z.leb_le; lia).
  cbv iota beta.
  assert (H64 : 2 ^ 64 = 18446744073709551616) by reflexivity.
  rewrite H64 in *.
  rewrite (Z.mod_small (n * 10 + (c - 48))) by lia.
  rewrite !Z.geb_leb, Z.gtb_ltb.
  replace (10 <=? c - 48) with false by (symmetry; apply Z.leb_gt; lia).
  replace (1844674407370955162 <=? n) with false by (symmetry; apply Z.leb_gt; lia).
  replace (n * 10 + (c - 48) <? n * 10) with false by (symmetry; apply Z.ltb_ge; lia).
  replace (18446744073709551615 <? n * 10 + (c - 48)) with false by (symmetry; apply Z.ltb_ge; lia).
  cbn [orb].
  replace (n * 10 + (c - 48)) with (10 * n + (c - 48)) by lia.
  apply IH; auto; lia.
Qed.

Lemma string_forall_bytes (P : Z -> bool) (s : string) :
  string_forall P s = true -> Forall (fun c => P c = true) (bytes s).
Proof.
  unfold bytes. induction s as [| a s IH]; cbn [string_forall list_ascii_of_string map]; intros H.
  - constructor.
  - apply andb_true_iff in H. destruct H as [Ha Hs]. constructor; auto.
Qed.

Lemma wrap64_small (z : Z) : - 2^63 <= z < 2^63 -> wrap64 z = z.
Proof.
  intros H. unfold wrap64.
  change (2 ^ 64) with 18446744073709551616. change (2 ^ 63) with 9223372036854775808 in *.
  rewrite Z.mod_small by lia. lia.
Qed.

Lemma ParseInt_canonical (d : string) :
  canonical d -> strconv.ParseInt d = (decimal d, None).
Proof.
  intros (Hne & Hdig & Hlead & Hval).
  pose proof (string_forall_bytes _ _ Hdig) as Hall.
  assert (Hall' : Forall (fun c => 48 <= c <= 57) (bytes d)).
  { eapply Forall_impl; [exact Hall |]. intros c Hc. apply IsDigit_range. exact Hc. }
  destruct Hlead as [-> | Hlead]; [reflexivity |].
  unfold strconv.ParseInt, decimal in *.
  destruct d as [| a d]; [congruence |].
  unfold bytes in *. cbn [list_ascii_of_string map] in *. cbn [head_rune] in Hlead.
  set (c := rune_of_ascii a) in *. set (cs := map rune_of_ascii (list_ascii_of_string d)) in *.
  assert (Hc : 48 <= c <= 57) by (inversion Hall'; assumption).
  replace (c =? 43) with false by (symmetry; apply Z.eqb_neq; lia).
  replace (c =? 45) with false by (symmetry; apply Z.eqb_neq; lia).
  unfold strconv.ParseUint.
  replace (c =? 48) with false by (symmetry; apply Z.eqb_neq; lia).
  pose proof (decimal_from_mono (c :: cs) 0 Hall' ltac:(lia)) as Hpos.
  rewrite ParseUint_loop_decimal; auto; try lia.
  cbn [andb negb]. rewrite Z.geb_leb.
  replace (2 ^ 63 <=? decimal_from 0 (c :: cs)) with false by (symmetry; apply Z.leb_gt; lia).
  cbn [andb]. rewrite wrap64_small by lia. reflexivity.
Qed.

(** ** The parser *)

(** Whether the conversion of a text by [ParseInt] fails. *)
Definition fails (text : string) : bool :=
  match snd (strconv.ParseInt text) with
  | Some _ => true
  | None => false
  end.

(** The node that an attempted conversion of [text] yields: a literal
    that carries the converted value, or nil when the conversion fails. *)
Inductive converted (text : string) : ast.Node -> Prop :=
| converted_literal (t : lexer.Token) (v : Z) :
    lexer.Value t = text ->
    strconv.ParseInt text = (v, None) ->
    converted text (ast.IntegerLiteral t v)
| converted_nil :
    fails text = true ->
    converted text ast.Nil.

(** The tree that the loop of [parseExpression] builds from a first
    operand and the (operator token, operator, right operand) of each
    iteration: every step nests the tree so far as the left operand. *)
Definition build (lhs : ast.Node) (steps : list (lexer.Token * string * ast.Node)) : ast.Node :=
  fold_left (fun lhs '(t, op, rhs) => ast.InfixExpression t lhs op rhs) steps lhs.

Definition rhs_of (step : lexer.Token * string * ast.Node) : ast.Node := snd step.

Definition messages (attempts : list string) : list parser.Message :=
  map parser.CouldNotParseAsInteger (List.filter fails attempts).

Lemma parseIntegerLiteral_spec (p : parser.Parser) :
  exists leaf : ast.Node,
    parser.parseIntegerLiteral p
    = (leaf, {| parser.l := parser.l p;
                parser.errors := parser.errors p ++ messages [lexer.Value (parser.curToken p)];
                parser.curToken := parser.curToken p;
                parser.peekToken := parser.peekToken p |})
    /\ converted (lexer.Value (parser.curToken p)) leaf.
Proof.
  unfold parser.parseIntegerLiteral, messages. cbn [List.filter]. unfold fails at 1.
  destruct (strconv.ParseInt (lexer.Value (parser.curToken p))) as [v [e |]] eqn:E; cbn [snd map].
  - eexists. split; [reflexivity |]. apply converted_nil. unfold fails. rewrite E. reflexivity.
  - exists (ast.IntegerLiteral (parser.curToken p) v). split.
    + destruct p; cbn. rewrite app_nil_r. reflexivity.
    + eapply converted_literal; eauto.
Qed.

Lemma nextToken_Ok (p p' : parser.Parser) :
  parser.nextToken p = Ok p' ->
  parser.errors p' = parser.errors p /\ parser.curToken p' = parser.peekToken p.
Proof.
  unfold parser.nextToken. intros H.
  destruct (lexer.NextToken (parser.l p)) as [[t l'] | |]; cbn [bind] in H; try discriminate.
  injection H as <-. auto.
Qed.

Lemma messages_app (a b : list string) : messages (a ++ b) = messages a ++ messages b.
Proof. unfold messages. rewrite List.filter_app, map_app. reflexivity. Qed.

Lemma build_snoc (lhs : ast.Node) (steps : list (lexer.Token * string * ast.Node))
      (t : lexer.Token) (op : string) (rhs : ast.Node) :
  build (ast.InfixExpression t lhs op rhs) steps = build lhs ((t, op, rhs) :: steps).
Proof. reflexivity. Qed.

(** Whatever the tokens are, the loop of [parseExpression] extends the
    tree by one step per iteration, each with one attempted conversion,
    and appends one message per failed attempt. *)
Lemma parseExpression_loop_attempts (fuel : nat) :
  forall (p p' : parser.Parser) (lhs res : ast.Node),
    parser.parseExpression_loop fuel p lhs = Ok (res, p') ->
    exists (steps : list (lexer.Token * string * ast.Node)) (attempts : list string),
      res = build lhs steps
      /\ Forall2 converted attempts (map rhs_of steps)
      /\ parser.errors p' = parser.errors p ++ messages attempts.
Proof.
  induction fuel as [| fuel IH]; intros p p' lhs res H; cbn [parser.parseExpression_loop] in H.
  - destruct (parser.isPlusOrMinus (parser.peekToken p)); [discriminate |].
    injection H as <- <-. exists [], []. cbn. rewrite app_nil_r. auto.
  - destruct (parser.isPlusOrMinus (parser.peekToken p)).
    + destruct (parser.nextToken p) as [p1 | |] eqn:E1; cbn [bind] in H; try discriminate.
      unfold parser.parseInfixExpression in H.
      destruct (parser.nextToken p1) as [p2 | |] eqn:E2; cbn [bind] in H; try discriminate.
      destruct (parseIntegerLiteral_spec p2) as (leaf & Hlit & Hconv).
      rewrite Hlit in H. cbn [bind] in H.
      apply IH in H. destruct H as (steps & attempts & Hres & Hall & Herr).
      cbn [parser.errors] in Herr.
      destruct (nextToken_Ok _ _ E1) as [He1 _]. destruct (nextToken_Ok _ _ E2) as [He2 _].
      exists ((parser.curToken p1, lexer.Value (parser.curToken p1), leaf) :: steps),
             (lexer.Value (parser.curToken p2) :: attempts).
      split; [exact Hres | split].
      * cbn [map rhs_of snd]. constructor; assumption.
      * rewrite Herr, He2, He1, <- app_assoc.
        change (lexer.Value (parser.curToken p2) :: attempts)
          with ([lexer.Value (parser.curToken p2)] ++ attempts).
        rewrite messages_app. reflexivity.
    + injection H as <- <-. exists [], []. cbn. rewrite app_nil_r. auto.
Qed.

Lemma ParseProgram_attempts (l : lexer.Lexer) (p0 p' : parser.Parser) (prog : ast.Node) :
  parser.New l = Ok p0 ->
  parser.ParseProgram p0 = Ok (prog, p') ->
  exists (leaf0 : ast.Node) (steps : list (lexer.Token * string * ast.Node))
         (attempts : list string),
    prog = ast.Program (build leaf0 steps)
    /\ Forall2 converted attempts (leaf0 :: map rhs_of steps)
    /\ parser.Errors p' = messages attempts.
Proof.
  intros HNew HParse.
  assert (Herr0 : parser.errors p0 = []).
  { unfold parser.New in HNew.
    destruct (parser.nextToken _) as [p1 | |] eqn:E1; cbn [bind] in HNew; try discriminate.
    destruct (nextToken_Ok _ _ E1) as [He1 _]. destruct (nextToken_Ok _ _ HNew) as [He2 _].
    rewrite He2, He1. reflexivity. }
  unfold parser.ParseProgram, parser.parseExpression in HParse.
  destruct (parseIntegerLiteral_spec p0) as (leaf0 & Hlit & Hconv).
  rewrite Hlit in HParse.
  destruct (parser.parseExpression_loop _ _ leaf0) as [[res p1] | |] eqn:Eloop;
    cbn [bind] in HParse; try discriminate.
  injection HParse as <- <-.
  apply parseExpression_loop_attempts in Eloop.
  destruct Eloop as (steps & attempts & Hres & Hall & Herr).
  cbn [parser.errors] in Herr. rewrite Herr0 in Herr. cbn [app] in Herr.
  exists leaf0, steps, (lexer.Value (parser.curToken p0) :: attempts).
  split; [rewrite Hres; reflexivity | split].
  - constructor; assumption.
  - unfold parser.Errors. rewrite Herr.
    change (lexer.Value (parser.curToken p0) :: attempts)
      with ([lexer.Value (parser.curToken p0)] ++ attempts).
    rewrite messages_app. reflexivity.
Qed.

Lemma messages_nonempty (attempts : list string) :
  messages attempts <> [] <-> Exists (fun text => fails text = true) attempts.
Proof.
  unfold messages. induction attempts as [| a attempts IH]; cbn [List.filter map].
  - split; [congruence | intros H; inversion H].
  - destruct (fails a) eqn:E; cbn [map].
    + split; [intros _; constructor; exact E | discriminate].
    + rewrite IH. split; [intros H; apply Exists_cons_tl; exact H |].
      intros H. inversion H; subst; [congruence | assumption].
Qed.

(** ** Additive source texts *)

(** One further term of an additive source text: whitespace, a sign,
    whitespace, the digits of a literal. *)
Record Item : Type := mkItem {
  before : string;
  sign : ascii;
  after : string;
  literal : string
}.

Definition spaces (ws : string) : Prop := string_forall unicode.IsSpace ws = true.

Definition digits (d : string) : Prop :=
  d <> ""%string /\ string_forall unicode.IsDigit d = true.

Definition item_ok (it : Item) : Prop :=
  spaces (before it)
  /\ (sign it = "+"%char \/ sign it = "-"%char)
  /\ spaces (after it)
  /\ digits (literal it).

(** The text after a literal: the further terms, then the trailing
    whitespace. *)
Fixpoint rest_source (items : list Item) (trailing : string) : string :=
  match items with
  | [] => trailing
  | it :: items' =>
      before it ++ String (sign it) (after it ++ literal it ++ rest_source items' trailing)
  end.

(** An additive source text: whitespace, a first literal, further terms
    and trailing whitespace. *)
Definition source (leading first : string) (items : list Item) (trailing : string) : string :=
  leading ++ first ++ rest_source items trailing.

Lemma head_rune_spaces (ws rest : string) :
  spaces ws ->
  head_rune (ws ++ rest) = head_rune rest \/ unicode.IsSpace (head_rune (ws ++ rest)) = true.
Proof.
  intros Hws. destruct ws as [| a ws]; [left; reflexivity |].
  right. unfold spaces in Hws. cbn [string_forall] in Hws.
  apply andb_true_iff in Hws. destruct Hws as [Ha _]. exact Ha.
Qed.

Lemma head_rune_digits (d rest : string) :
  digits d -> unicode.IsDigit (head_rune (d ++ rest)) = true.
Proof.
  intros [Hne Hd]. destruct d as [| a d]; [congruence |].
  cbn [string_forall] in Hd. apply andb_true_iff in Hd. destruct Hd as [Ha _]. exact Ha.
Qed.

Lemma IsDigit_not_space (c : Z) : unicode.IsDigit c = true -> unicode.IsSpace c = false.
Proof.
  intros H. destruct (unicode.IsSpace c) eqn:E; [| reflexivity].
  apply IsSpace_not_digit in E. congruence.
Qed.

Lemma rest_source_not_digit (items : list Item) (trailing : string) :
  Forall item_ok items -> spaces trailing ->
  unicode.IsDigit (head_rune (rest_source items trailing)) = false.
Proof.
  intros Hitems Htr. destruct items as [| it items]; cbn [rest_source].
  - destruct (head_rune_spaces trailing "" Htr) as [H | H]; rewrite string_app_nil_r in H.
    + destruct trailing; [reflexivity |]. cbn [String.append head_rune] in H.
      unfold spaces in Htr. cbn [string_forall] in Htr. apply andb_true_iff in Htr.
      apply IsSpace_not_digit. tauto.
    + apply IsSpace_not_digit. exact H.
  - inversion Hitems as [| it' items' (Hb & Hs & _) _]; subst.
    destruct (head_rune_spaces (before it) (String (sign it) (after it ++ literal it ++ rest_source items trailing)) Hb)
      as [H | H].
    + rewrite H. cbn [head_rune]. destruct Hs as [-> | ->]; reflexivity.
    + apply IsSpace_not_digit. exact H.
Qed.

Lemma NextToken_number (l : lexer.Lexer) (pre ws d rest : string) :
  lexer_at l pre (ws ++ d ++ rest) ->
  spaces ws -> digits d ->
  unicode.IsDigit (head_rune rest) = false ->
  exists (t : lexer.Token) (l' : lexer.Lexer) (pre' : string),
    lexer.NextToken l = Ok (t, l')
    /\ lexer.Type_ t = lexer.NUMBER /\ lexer.Value t = d
    /\ lexer_at l' pre' rest.
Proof.
  intros Hat Hws Hd Hrest.
  destruct (NextToken_skip l pre ws (d ++ rest) Hat Hws) as (l1 & Hat1 & Hskip).
  { apply IsDigit_not_space, head_rune_digits. exact Hd. }
  destruct Hd as [Hne Hd]. destruct d as [| a d]; [congruence |].
  destruct (NextToken_loop_number l1 _ a d rest Hat1 Hd Hrest) as (l' & Htok & Hat').
  eexists _, l', _. rewrite Hskip, Htok.
  split; [reflexivity | split; [reflexivity | split; [reflexivity | exact Hat']]].
Qed.

(** What the token peeked after a literal is, given the text that
    followed the literal: the end-of-input token, or the sign of the next
    term, the lexer then standing before the rest of that term. *)
Definition peeked (t : lexer.Token) (l : lexer.Lexer) (items : list Item) (trailing : string) : Prop :=
  match items with
  | [] => lexer.Type_ t = lexer.EOF
  | it :: items' =>
      parser.isPlusOrMinus t = true
      /\ lexer.Value t = String (sign it) ""
      /\ exists pre : string,
           lexer_at l pre (after it ++ literal it ++ rest_source items' trailing)
  end.

Lemma NextToken_rest (l : lexer.Lexer) (pre : string) (items : list Item) (trailing : string) :
  lexer_at l pre (rest_source items trailing) ->
  Forall item_ok items -> spaces trailing ->
  exists (t : lexer.Token) (l' : lexer.Lexer),
    lexer.NextToken l = Ok (t, l') /\ peeked t l' items trailing.
Proof.
  intros Hat Hitems Htr. destruct items as [| it items]; cbn [rest_source peeked] in *.
  - rewrite <- (string_app_nil_r trailing) in Hat.
    destruct (NextToken_skip l pre trailing "" Hat Htr) as (l1 & Hat1 & Hskip); [reflexivity |].
    rewrite Hskip, (NextToken_loop_end l1 _ Hat1). eexists _, _. split; reflexivity.
  - inversion Hitems as [| it' items' (Hb & Hs & _) _]; subst.
    destruct (NextToken_skip l pre (before it) _ Hat Hb) as (l1 & Hat1 & Hskip).
    { cbn [head_rune]. destruct Hs as [-> | ->]; reflexivity. }
    destruct (NextToken_loop_sign l1 _ _ _ Hat1 Hs) as [Htok Hat'].
    rewrite Hskip, Htok. eexists _, _. split; [reflexivity |].
    cbn [lexer.Type_ lexer.Value]. split; [| split; [reflexivity | eauto]].
    unfold parser.isPlusOrMinus. cbn [lexer.Type_]. destruct Hs as [-> | ->]; reflexivity.
Qed.

Lemma rest_source_length (items : list Item) (trailing : string) :
  Forall item_ok items -> (length items <= String.length (rest_source items trailing))%nat.
Proof.
  induction 1 as [| it items _ _ IH]; cbn [length rest_source]; [lia |].
  rewrite !string_length_app. cbn [String.length]. rewrite !string_length_app. lia.
Qed.

(** The step of the loop of [parseExpression] that a term of the source
    text gives rise to. *)
Definition step_of (it : Item) (step : lexer.Token * string * ast.Node) : Prop :=
  snd (fst step) = String (sign it) "" /\ converted (literal it) (snd step).

Lemma isPlusOrMinus_EOF (t : lexer.Token) :
  lexer.Type_ t = lexer.EOF -> parser.isPlusOrMinus t = false.
Proof. unfold parser.isPlusOrMinus. intros ->. reflexivity. Qed.

Lemma parse_loop_items (trailing : string) (items : list Item) :
  forall (fuel : nat) (p : parser.Parser) (lhs : ast.Node),
    (length items <= fuel)%nat ->
    Forall item_ok items -> spaces trailing ->
    peeked (parser.peekToken p) (parser.l p) items trailing ->
    exists (steps : list (lexer.Token * string * ast.Node)) (p' : parser.Parser),
      parser.parseExpression_loop fuel p lhs = Ok (build lhs steps, p')
      /\ Forall2 step_of items steps
      /\ parser.errors p' = parser.errors p ++ messages (map literal items).
Proof.
  induction items as [| it items IH]; intros fuel p lhs Hfuel Hitems Htr Hpeek;
    cbn [peeked] in Hpeek.
  - exists [], p. split; [| split; [constructor | cbn; rewrite app_nil_r; reflexivity]].
    destruct fuel; cbn [parser.parseExpression_loop];
      rewrite (isPlusOrMinus_EOF _ Hpeek); reflexivity.
  - destruct Hpeek as (Hpm & Hval & pre & Hat).
    inversion Hitems as [| it' items' Hit Hitems']; subst.
    destruct Hit as (_ & _ & Ha & Hd).
    cbn [length] in Hfuel. destruct fuel as [| fuel]; [lia |].
    cbn [parser.parseExpression_loop]. rewrite Hpm.
    destruct (NextToken_number _ _ _ _ _ Hat Ha Hd (rest_source_not_digit items trailing Hitems' Htr))
      as (t1 & l1 & pre1 & Htok1 & Hty1 & Hv1 & Hat1).
    unfold parser.nextToken at 1. rewrite Htok1. cbn [bind].
    unfold parser.parseInfixExpression, parser.nextToken.
    cbn [parser.l parser.errors parser.curToken parser.peekToken].
    destruct (NextToken_rest _ _ _ _ Hat1 Hitems' Htr) as (t2 & l2 & Htok2 & Hpeek2).
    rewrite Htok2. cbn [bind].
    match goal with
    | |- context [parser.parseIntegerLiteral ?q] =>
        destruct (parseIntegerLiteral_spec q) as (leaf & Hlit & Hconv); rewrite Hlit
    end.
    cbn [parser.l parser.errors parser.curToken parser.peekToken bind] in *.
    match goal with
    | |- context [parser.parseExpression_loop fuel ?q ?lhs'] =>
        destruct (IH fuel q lhs') as (steps & p' & Hloop & Hsteps & Herr); auto; [lia |]
    end.
    rewrite Hloop. cbn [parser.errors] in Herr.
    exists ((parser.peekToken p, lexer.Value (parser.peekToken p), leaf) :: steps), p'.
    split; [reflexivity | split].
    + constructor; [| exact Hsteps]. split; [exact Hval | rewrite <- Hv1; exact Hconv].
    + rewrite Herr, <- app_assoc, Hv1. cbn [map].
      change (literal it :: map literal items) with ([literal it] ++ map literal items).
      rewrite messages_app. reflexivity.
Qed.

(** Lexing and parsing an additive source text: the tree is built from
    one attempted conversion per literal of the text, in order, and the
    errors are the messages of the conversions that fail. *)
Lemma parse_source (leading first : string) (items : list Item) (trailing : string) :
  spaces leading -> digits first -> Forall item_ok items -> spaces trailing ->
  exists (p0 p' : parser.Parser) (leaf0 : ast.Node)
         (steps : list (lexer.Token * string * ast.Node)),
    parser.New (lexer.New (source leading first items trailing)) = Ok p0
    /\ parser.ParseProgram p0 = Ok (ast.Program (build leaf0 steps), p')
    /\ converted first leaf0
    /\ Forall2 step_of items steps
    /\ parser.Errors p' = messages (first :: map literal items).
Proof.
  intros Hlead Hfirst Hitems Htr.
  pose proof (lexer_at_New (source leading first items trailing)) as Hat0.
  unfold source in Hat0 at 2.
  destruct (NextToken_number _ _ _ _ _ Hat0 Hlead Hfirst (rest_source_not_digit items trailing Hitems Htr))
    as (t0 & l1 & pre1 & Htok0 & Hty0 & Hv0 & Hat1).
  destruct (NextToken_rest _ _ _ _ Hat1 Hitems Htr) as (t1 & l2 & Htok1 & Hpeek).
  set (p0 := {| parser.l := l2; parser.errors := []; parser.curToken := t0;
                parser.peekToken := t1 |}).
  assert (HNew : parser.New (lexer.New (source leading first items trailing)) = Ok p0).
  { unfold parser.New, parser.nextToken.
    cbn [parser.l parser.errors parser.curToken parser.peekToken].
    rewrite Htok0. cbn [bind parser.l parser.errors parser.curToken parser.peekToken].
    rewrite Htok1. reflexivity. }
  destruct (parseIntegerLiteral_spec p0) as (leaf0 & Hlit & Hconv).
  cbn [p0 parser.l parser.errors parser.curToken parser.peekToken app] in Hlit, Hconv.
  set (p1 := {| parser.l := l2; parser.errors := messages [lexer.Value t0];
                parser.curToken := t0; parser.peekToken := t1 |}) in *.
  destruct (parse_loop_items trailing items (lexer.loop_fuel l2) p1 leaf0)
    as (steps & p' & Hloop & Hsteps & Herr); auto.
  { destruct items as [| it items']; [cbn [length]; lia |].
    cbn [peeked] in Hpeek. destruct Hpeek as (_ & _ & pre & Hat2).
    inversion Hitems as [| it' its (_ & _ & _ & (Hne & _)) Hitems']; subst.
    rewrite <- (string_app_nil_r (after it ++ literal it ++ rest_source items' trailing)) in Hat2.
    pose proof (lexer_at_fuel _ _ _ _ Hat2) as Hf.
    pose proof (rest_source_length items' trailing Hitems') as Hrl.
    rewrite !string_length_app in Hf. cbn [length].
    destruct (literal it); [congruence |]. cbn [String.length] in Hf. lia. }
  exists p0, p', leaf0, steps.
  split; [exact HNew | split; [| split; [rewrite <- Hv0; exact Hconv | split; [exact Hsteps |]]]].
  - unfold parser.ParseProgram, parser.parseExpression. rewrite Hlit.
    change (parser.l p1) with l2. rewrite Hloop. reflexivity.
  - unfold parser.Errors. rewrite Herr. cbn [p1 parser.errors]. rewrite Hv0.
    change (first :: map literal items) with ([first] ++ map literal items).
    rewrite messages_app. reflexivity.
Qed.

Lemma messages_none (attempts : list string) :
  Forall (fun text => fails text = false) attempts -> messages attempts = [].
Proof.
  unfold messages. induction 1 as [| a attempts Ha _ IH]; cbn [List.filter map]; [reflexivity |].
  rewrite Ha. exact IH.
Qed.

Lemma fails_canonical (d : string) : canonical d -> fails d = false.
Proof. intros H. unfold fails. rewrite (ParseInt_canonical d H). reflexivity. Qed.

(** C6, as stated, fails in its particular case: an all-integer additive
    expression can leave an error.  The conversion is made with base 0,
    so the literal "08" (a leading zero selects base 8) and a literal of
    2^63 or more do not convert: the error list has one message, the
    leaf is nil and the tree is built around it. *)
Lemma C6_counterexample_integer_text_with_an_error :
  digits "08" /\ digits "1" /\ digits "9223372036854775808"
  /\ (exists (p0 p' : parser.Parser) (t1 t2 : lexer.Token),
        parser.New (lexer.New "08 + 1") = Ok p0
        /\ parser.ParseProgram p0
           = Ok (ast.Program (ast.InfixExpression t1 ast.Nil "+" (ast.IntegerLiteral t2 1)), p')
        /\ parser.Errors p' = [parser.CouldNotParseAsInteger "08"])
  /\ (exists (p0 p' : parser.Parser),
        parser.New (lexer.New "9223372036854775808") = Ok p0
        /\ parser.ParseProgram p0 = Ok (ast.Program ast.Nil, p')
        /\ parser.Errors p' = [parser.CouldNotParseAsInteger "9223372036854775808"]).
Proof.
  split; [split; [discriminate | reflexivity] |].
  split; [split; [discriminate | reflexivity] |].
  split; [split; [discriminate | reflexivity] |].
  split.
  - do 4 eexists. split; [vm_compute; reflexivity |].
    split; vm_compute; reflexivity.
  - do 2 eexists. split; [vm_compute; reflexivity |].
    split; vm_compute; reflexivity.
Qed.

(** C6 (amended): after [ParseProgram] has returned, the tree consists of
    one leaf per attempted conversion, in order -- a literal for a text
    that converts, nil for one that does not, the tree being built around
    it -- and the error list holds one message per failed conversion: it
    is non-empty if and only if a conversion failed.  For an additive
    source text of digit runs the attempts are its literals, all of them,
    whether earlier ones failed or not.  When every literal is free of a
    leading zero (unless it is "0") and below 2^63, the error list is
    empty. *)
Theorem C6_errors_iff_a_conversion_failed :
  (forall (l : lexer.Lexer) (p0 p' : parser.Parser) (prog : ast.Node),
      parser.New l = Ok p0 ->
      parser.ParseProgram p0 = Ok (prog, p') ->
      exists (leaf0 : ast.Node) (steps : list (lexer.Token * string * ast.Node))
             (attempts : list string),
        prog = ast.Program (build leaf0 steps)
        /\ Forall2 converted attempts (leaf0 :: map rhs_of steps)
        /\ parser.Errors p' = messages attempts
        /\ (parser.Errors p' <> [] <-> Exists (fun text => fails text = true) attempts))
  /\ (forall (leading first : string) (items : list Item) (trailing : string),
        spaces leading -> digits first -> Forall item_ok items -> spaces trailing ->
        exists (p0 p' : parser.Parser) (leaf0 : ast.Node)
               (steps : list (lexer.Token * string * ast.Node)),
          parser.New (lexer.New (source leading first items trailing)) = Ok p0
          /\ parser.ParseProgram p0 = Ok (ast.Program (build leaf0 steps), p')
          /\ Forall2 converted (first :: map literal items) (leaf0 :: map rhs_of steps)
          /\ parser.Errors p' = messages (first :: map literal items))
  /\ (forall (leading first : string) (items : list Item) (trailing : string),
        spaces leading -> canonical first ->
        Forall item_ok items -> Forall (fun it => canonical (literal it)) items ->
        spaces trailing ->
        exists (p0 p' : parser.Parser) (tree : ast.Node),
          parser.New (lexer.New (source leading first items trailing)) = Ok p0
          /\ parser.ParseProgram p0 = Ok (ast.Program tree, p')
          /\ parser.Errors p' = []).
Proof.
  split; [| split].
  - intros l p0 p' prog HNew HParse.
    destruct (ParseProgram_attempts l p0 p' prog HNew HParse)
      as (leaf0 & steps & attempts & Hprog & Hall & Herr).
    exists leaf0, steps, attempts.
    split; [exact Hprog | split; [exact Hall | split; [exact Herr |]]].
    rewrite Herr. apply messages_nonempty.
  - intros leading first items trailing Hlead Hfirst Hitems Htr.
    destruct (parse_source leading first items trailing Hlead Hfirst Hitems Htr)
      as (p0 & p' & leaf0 & steps & HNew & HParse & Hconv & Hsteps & Herr).
    exists p0, p', leaf0, steps.
    split; [exact HNew | split; [exact HParse | split; [| exact Herr]]].
    constructor; [exact Hconv |].
    clear - Hsteps. induction Hsteps as [| it step items steps Hstep _ IH]; cbn [map].
    + constructor.
    + constructor; [| exact IH]. apply Hstep.
  - intros leading first items trailing Hlead Hfirst Hitems Hcan Htr.
    assert (Hdig : digits first) by (destruct Hfirst as (H1 & H2 & _); split; assumption).
    destruct (parse_source leading first items trailing Hlead Hdig Hitems Htr)
      as (p0 & p' & leaf0 & steps & HNew & HParse & _ & _ & Herr).
    exists p0, p', (build leaf0 steps).
    split; [exact HNew | split; [exact HParse |]].
    rewrite Herr. apply messages_none. constructor; [apply fails_canonical; exact Hfirst |].
    apply Forall_map. eapply Forall_impl; [exact Hcan |].
    intros it Hit. apply fails_canonical. exact Hit.
Qed.

Lemma C6_witness :
  exists (p0 p' : parser.Parser) (tree : ast.Node),
    parser.New (lexer.New (source " " "12" [mkItem " " "+" " " "7"; mkItem "" "-" "" "0"] " "))
    = Ok p0
    /\ parser.ParseProgram p0 = Ok (ast.Program tree, p')
    /\ parser.Errors p' = [].
Proof.
  apply (proj2 (proj2 C6_errors_iff_a_conversion_failed) " "%string "12"%string
               [mkItem " " "+" " " "7"; mkItem "" "-" "" "0"] " "%string).
  - reflexivity.
  - split; [discriminate | split; [reflexivity | split; [right; vm_compute; discriminate | vm_compute; reflexivity]]].
  - constructor; [| constructor; [| constructor]];
      (split; [reflexivity | split; [first [left; reflexivity | right; reflexivity] |
        split; [reflexivity | split; [discriminate | reflexivity]]]]).
  - constructor; [| constructor; [| constructor]].
    + split; [discriminate | split; [reflexivity | split; [right; vm_compute; discriminate | vm_compute; reflexivity]]].
    + split; [discriminate | split; [reflexivity | split; [left; reflexivity | vm_compute; reflexivity]]].
  - reflexivity.
Defined.

(** ** The whole pipeline *)

(** Strict left-to-right evaluation of a first value and a sequence of
    signed terms, in 64-bit wrap-around arithmetic. *)
Definition left_to_right (v0 : Z) (terms : list (ascii * Z)) : Z :=
  fold_left (fun acc '(a, v) => if Ascii.eqb a "+" then wrap64 (acc + v) else wrap64 (acc - v))
            terms v0.

Definition term_of (it : Item) : ascii * Z := (sign it, decimal (literal it)).

Lemma converted_canonical (d : string) (leaf : ast.Node) :
  canonical d -> converted d leaf -> exists t, leaf = ast.IntegerLiteral t (decimal d).
Proof.
  intros Hc Hconv. inversion Hconv as [t v Hv Hp | Hf]; subst.
  - rewrite (ParseInt_canonical _ Hc) in Hp. injection Hp as <-. eauto.
  - rewrite (fails_canonical _ Hc) in Hf. discriminate.
Qed.

Lemma build_additive (items : list Item) (steps : list (lexer.Token * string * ast.Node)) :
  Forall2 step_of items steps ->
  Forall item_ok items ->
  Forall (fun it => canonical (literal it)) items ->
  forall lhs : ast.Node,
    additive lhs ->
    additive (build lhs steps)
    /\ value (build lhs steps) = left_to_right (value lhs) (map term_of items)
    /\ length (literals (build lhs steps)) = (length (literals lhs) + length items)%nat.
Proof.
  induction 1 as [| it [[t op] rhs] items steps [Hop Hconv] _ IH]; intros Hok Hcan lhs Hlhs.
  - cbn. repeat split; auto.
  - inversion Hok as [| it' items' (_ & Hs & _) Hok']; subst.
    inversion Hcan as [| it' items' Hc Hcan']; subst.
    cbn [fst snd] in Hop, Hconv. subst op.
    destruct (converted_canonical _ _ Hc Hconv) as [t' ->].
    unfold build. cbn [fold_left]. fold (build (ast.InfixExpression t lhs (String (sign it) "")
                                                  (ast.IntegerLiteral t' (decimal (literal it)))) steps).
    destruct (IH Hok' Hcan' (ast.InfixExpression t lhs (String (sign it) "")
                               (ast.IntegerLiteral t' (decimal (literal it)))))
      as (Hadd & Hval & Hlen).
    { constructor; [exact Hlhs |]. destruct Hs as [-> | ->]; auto. }
    split; [exact Hadd | split].
    + rewrite Hval. cbn [map left_to_right fold_left term_of value].
      destruct Hs as [-> | ->]; reflexivity.
    + rewrite Hlen. cbn [literals length]. rewrite length_app. cbn [length]. lia.
Qed.

Lemma loaded_small (vs : list Z) (i : nat) :
  Z.of_nat (length vs) <= 65536 -> (i < length vs)%nat ->
  loaded vs (0 + Z.of_nat i) = nth i vs 0.
Proof.
  intros Hn Hi. unfold loaded. rewrite Z.add_0_l, Z.mod_small by lia.
  rewrite Nat2Z.id. reflexivity.
Qed.

(** The pipeline on a program whose tree is a well-formed additive
    expression of at most 65536 literals. *)
Lemma run_additive_program (data : string) (p0 p' : parser.Parser) (tree : ast.Node) :
  parser.New (lexer.New data) = Ok p0 ->
  parser.ParseProgram p0 = Ok (ast.Program tree, p') ->
  parser.Errors p' = [] ->
  additive tree ->
  Z.of_nat (length (literals tree)) <= 65536 ->
  main.run data = Ok (main.Printed (OInt64 (value tree))).
Proof.
  intros HNew HParse Herr Hadd Hn.
  destruct (compiled_additive_runs tree Hadd) as (m' & HR & _ & _ & Htop).
  rewrite (eval_value (loaded (literals tree)) tree 0) in Htop
    by (intros i Hi; apply loaded_small; assumption).
  unfold main.run. rewrite HNew. cbn [bind]. rewrite HParse. cbn [bind]. rewrite Herr.
  cbn [length Nat.eqb negb].
  unfold compiled in HR.
  pose proof (Compile_no_error (ast.Program tree) compiler.New) as Hnone.
  destruct (compiler.Compile compiler.New (ast.Program tree)) as [c err].
  cbn [fst snd] in HR, Hnone. subst err.
  rewrite HR. cbn [bind]. rewrite Htop. reflexivity.
Qed.

(** C1, as stated, fails: the literals are converted with base 0, so a
    literal with a leading zero is read in base 8 ("010" is 8, the
    pipeline prints 9 for "010 + 1", not 11), or not at all ("08" is a
    parse error, and so is a literal beyond the range of [int64]). *)
Lemma C1_counterexample_leading_zero :
  main.run "010 + 1" = Ok (main.Printed (OInt64 9))
  /\ left_to_right (decimal "010") [("+"%char, decimal "1")] = 11
  /\ main.run "08 + 1" = Ok (main.ParseErrors [parser.CouldNotParseAsInteger "08"])
  /\ main.run "9223372036854775808"
     = Ok (main.ParseErrors [parser.CouldNotParseAsInteger "9223372036854775808"]).
Proof. vm_compute. auto. Qed.

(** C1 (amended): for a source text of decimal literals separated by [+]
    and [-] and whitespace, where every literal is free of a leading zero
    (unless it is "0") and below 2^63, and there are at most 65536
    literals, the pipeline -- tokenize, parse, compile, run -- prints the
    left-to-right evaluation of the literals in 64-bit wrap-around
    arithmetic. *)
Theorem C1_pipeline_evaluates_left_to_right
        (leading first : string) (items : list Item) (trailing : string) :
  spaces leading ->
  canonical first ->
  Forall item_ok items ->
  Forall (fun it => canonical (literal it)) items ->
  spaces trailing ->
  Z.of_nat (length items) < 65536 ->
  main.run (source leading first items trailing)
  = Ok (main.Printed (OInt64 (left_to_right (decimal first) (map term_of items)))).
Proof.
  intros Hlead Hfirst Hitems Hcan Htr Hn.
  assert (Hdig : digits first) by (destruct Hfirst as (H1 & H2 & _); split; assumption).
  destruct (parse_source leading first items trailing Hlead Hdig Hitems Htr)
    as (p0 & p' & leaf0 & steps & HNew & HParse & Hconv & Hsteps & Herr).
  destruct (converted_canonical _ _ Hfirst Hconv) as [t0 ->].
  destruct (build_additive items steps Hsteps Hitems Hcan
              (ast.IntegerLiteral t0 (decimal first)) (additive_literal _ _))
    as (Hadd & Hval & Hlen).
  rewrite (run_additive_program _ p0 p' _ HNew HParse); auto.
  - rewrite Hval. reflexivity.
  - rewrite Herr. apply messages_none. constructor; [apply fails_canonical; exact Hfirst |].
    apply Forall_map. eapply Forall_impl; [exact Hcan |].
    intros it Hit. apply fails_canonical. exact Hit.
  - rewrite Hlen. cbn [literals length]. lia.
Qed.

Lemma C1_witness :
  main.run (source "" "12" [mkItem " " "+" " " "7"; mkItem " " "-" " " "5"] "")
  = Ok (main.Printed (OInt64 (left_to_right (decimal "12")
                                (map term_of [mkItem " " "+" " " "7"; mkItem " " "-" " " "5"])))).
Proof.
  apply (C1_pipeline_evaluates_left_to_right ""%string "12"%string
           [mkItem " " "+" " " "7"; mkItem " " "-" " " "5"] ""%string).
  - reflexivity.
  - split; [discriminate | split; [reflexivity | split; [right; vm_compute; discriminate | vm_compute; reflexivity]]].
  - constructor; [| constructor; [| constructor]];
      (split; [reflexivity | split; [first [left; reflexivity | right; reflexivity] |
        split; [reflexivity | split; [discriminate | reflexivity]]]]).
  - constructor; [| constructor; [| constructor]];
      (split; [discriminate | split; [reflexivity | split; [right; vm_compute; discriminate | vm_compute; reflexivity]]]).
  - reflexivity.
  - vm_compute. reflexivity.
Defined.

(** The example of the specification: "12 + 7 - 5" evaluates to 14. *)
Example pipeline_12_plus_7_minus_5 :
  source "" "12" [mkItem " " "+" " " "7"; mkItem " " "-" " " "5"] "" = "12 + 7 - 5"%string
  /\ main.run "12 + 7 - 5" = Ok (main.Printed (OInt64 14)).
Proof. split; vm_compute; reflexivity. Qed.

(** * Further properties of the code *)

(** ** The VM on arbitrary bytecode *)

Lemma Run_loop_keeps_invariant (fuel : nat) :
  forall (m m' : vm.VM) (ip : Z) (err : compiler.error),
    vm_ok m ->
    vm.Run_loop fuel m ip = Ok (m', err) ->
    vm_ok m' /\ vm.bytecode m' = vm.bytecode m.
Proof.
  induction fuel as [| fuel IH]; intros m m' ip err Hok H; cbn [vm.Run_loop] in H.
  - destruct (ip <? _); [discriminate |]. injection H as <- <-. auto.
  - destruct (ip <? _); [| injection H as <- <-; auto].
    destruct (vm.iteration m ip) as [[[m1 ip1] | [m1 e1]] | |] eqn:Hit; cbn [bind] in H;
      try discriminate.
    + destruct (iteration_progress _ _ _ _ Hok Hit) as (Hok1 & Hbc1 & _).
      destruct (IH _ _ _ _ Hok1 H) as [Hok' Hbc']. split; [exact Hok' | congruence].
    + injection H as <- <-. destruct (iteration_return _ _ _ _ Hok Hit) as (_ & -> & _). auto.
Qed.

(** X1: whatever the bytecode, when [Run] on a fresh VM returns (nil or
    an error), the stack still has its 2048 slots, [0 <= sp <= 2048]
    holds, and the bytecode of the VM is the one it was given. *)
Theorem X1_Run_keeps_stack_invariant (bc : compiler.Bytecode) (m' : vm.VM) (err : compiler.error) :
  vm.Run (vm.New bc) = Ok (m', err) ->
  length (vm.stack m') = Z.to_nat vm.StackSize
  /\ 0 <= vm.sp m' <= vm.StackSize
  /\ vm.bytecode m' = bc.
Proof.
  intros H. destruct (Run_loop_keeps_invariant _ _ _ _ _ (vm_ok_New bc) H) as [[Hlen Hsp] Hbc].
  auto.
Qed.

Lemma X1_witness :
  length (vm.stack (pushed (vm.New (loads_bytecode 1 ONil)) ONil)) = Z.to_nat vm.StackSize
  /\ 0 <= vm.sp (pushed (vm.New (loads_bytecode 1 ONil)) ONil) <= vm.StackSize
  /\ vm.bytecode (pushed (vm.New (loads_bytecode 1 ONil)) ONil) = loads_bytecode 1 ONil.
Proof.
  apply (X1_Run_keeps_stack_invariant (loads_bytecode 1 ONil) _ None).
  vm_compute. reflexivity.
Defined.

(** X2: an iteration of the loop of [Run] that goes on moves [ip]
    forward by the width of the instruction, 3 bytes for a load and 1
    byte otherwise, and never changes the bytecode; a byte that is none
    of the three opcodes is skipped as a one-byte instruction that leaves
    the VM untouched. *)
Theorem X2_ip_advances_by_instruction_width (m m' : vm.VM) (ip ip' : Z) :
  vm.iteration m ip = Ok (inl (m', ip')) ->
  exists op : Z,
    vm.index (compiler.Instructions (vm.bytecode m)) ip = Ok op
    /\ ip' = ip + (if op =? compiler.OpConstant then 3 else 1)
    /\ vm.bytecode m' = vm.bytecode m
    /\ (op <> compiler.OpConstant -> op <> compiler.OpAdd -> op <> compiler.OpSub -> m' = m).
Proof.
  unfold vm.iteration. intros H.
  destruct (vm.index (compiler.Instructions (vm.bytecode m)) ip) as [op | |] eqn:Eop;
    cbn [bind] in H; try discriminate.
  exists op. split; [reflexivity |].
  destruct (Z.eqb_spec op compiler.OpConstant) as [E0 | E0].
  - destruct (vm.index _ (ip + 1)) as [hi | |]; cbn [bind] in H; try discriminate.
    destruct (vm.index _ (ip + 1 + 1)) as [lo | |]; cbn [bind] in H; try discriminate.
    destruct (vm.index (compiler.Constants _) _) as [o | |]; cbn [bind] in H; try discriminate.
    unfold vm.push in H. destruct (vm.sp m >=? vm.StackSize); cbn [bind] in H; [discriminate |].
    destruct (vm.index (vm.stack m) (vm.sp m)) as [a | |]; cbn [bind] in H; try discriminate.
    injection H as <- <-. repeat split; [lia | congruence].
  - destruct ((op =? compiler.OpAdd) || (op =? compiler.OpSub)) eqn:E12.
    + unfold vm.pop at 1 in H. destruct (vm.sp m =? 0); cbn [bind] in H; [discriminate |].
      destruct (vm.index (vm.stack _) _) as [o1 | |]; cbn [bind] in H; try discriminate.
      destruct o1 as [| rhs |]; cbn [vm.assertInt64 bind] in H; try discriminate.
      unfold vm.pop in H. cbn [vm.sp vm.stack vm.bytecode] in H.
      destruct (vm.sp m - 1 =? 0); cbn [bind] in H; [discriminate |].
      destruct (vm.index (vm.stack m) (vm.sp m - 1 - 1)) as [o2 | |]; cbn [bind] in H; try discriminate.
      destruct o2 as [| lhs |]; cbn [vm.assertInt64 bind] in H; try discriminate.
      unfold vm.push in H. cbn [vm.sp vm.stack vm.bytecode] in H.
      destruct (vm.sp m - 1 - 1 >=? vm.StackSize); cbn [bind] in H; [discriminate |].
      destruct (vm.index (vm.stack m) (vm.sp m - 1 - 1)) as [a | |]; cbn [bind] in H; try discriminate.
      injection H as <- <-. repeat split.
      intros _ H1 H2. apply orb_true_iff in E12. destruct E12 as [E | E]; apply Z.eqb_eq in E; congruence.
    + injection H as <- <-. repeat split.
Qed.

Lemma X2_witness :
  exists op : Z,
    vm.index (compiler.Instructions (vm.bytecode (vm.New (compiler.mkBytecode [7] [])))) 0 = Ok op
    /\ 1 = 0 + (if op =? compiler.OpConstant then 3 else 1)
    /\ vm.bytecode (vm.New (compiler.mkBytecode [7] [])) = vm.bytecode (vm.New (compiler.mkBytecode [7] []))
    /\ (op <> compiler.OpConstant -> op <> compiler.OpAdd -> op <> compiler.OpSub ->
        vm.New (compiler.mkBytecode [7] []) = vm.New (compiler.mkBytecode [7] [])).
Proof.
  apply (X2_ip_advances_by_instruction_width (vm.New (compiler.mkBytecode [7] [])) _ 0 1).
  vm_compute. reflexivity.
Defined.

(** X3: ill-formed bytecode makes [Run] panic, not return an error: a
    load whose two operand bytes are not both inside the instructions
    panics with an index out of range, and so does a load whose index is
    outside the constant pool. *)
Theorem X3_ill_formed_load_panics (m : vm.VM) (ip : Z) (fuel : nat) :
  vm.index (compiler.Instructions (vm.bytecode m)) ip = Ok compiler.OpConstant ->
  let n := Z.of_nat (length (compiler.Instructions (vm.bytecode m))) in
  (n <= ip + 2 ->
   vm.Run_loop (S fuel) m ip = Panic (IndexOutOfRange (if n <=? ip + 1 then ip + 1 else ip + 2) n))
  /\ (forall hi lo : Z,
        vm.index (compiler.Instructions (vm.bytecode m)) (ip + 1) = Ok hi ->
        vm.index (compiler.Instructions (vm.bytecode m)) (ip + 2) = Ok lo ->
        Z.of_nat (length (compiler.Constants (vm.bytecode m))) <= Z.lor (Z.shiftl hi 8) lo ->
        vm.Run_loop (S fuel) m ip
        = Panic (IndexOutOfRange (Z.lor (Z.shiftl hi 8) lo)
                                 (Z.of_nat (length (compiler.Constants (vm.bytecode m)))))).
Proof.
  intros Hop n. destruct (index_Ok_inv _ _ _ Hop) as [Hip _]. fold n in Hip.
  assert (Hout : forall (A : Type) (s : list A) (i : Z),
             Z.of_nat (length s) <= i -> vm.index s i = Panic (IndexOutOfRange i (Z.of_nat (length s)))).
  { intros A s i Hi. unfold vm.index.
    replace (i <? Z.of_nat (length s)) with false by (symmetry; apply Z.ltb_ge; exact Hi).
    rewrite andb_false_r. reflexivity. }
  split.
  - intros Htrunc. rewrite Run_loop_unfold by (fold n; lia).
    unfold vm.iteration. rewrite Hop. cbn [bind].
    change (compiler.OpConstant =? compiler.OpConstant) with true. cbv iota.
    destruct (Z.leb_spec n (ip + 1)) as [H1 | H1].
    + rewrite (Hout _ _ (ip + 1)) by (fold n; lia). reflexivity.
    + destruct (index_in_range (compiler.Instructions (vm.bytecode m)) (ip + 1)) as [hi Hhi];
        [fold n; lia |].
      rewrite Hhi. cbn [bind].
      replace (ip + 1 + 1) with (ip + 2) by lia.
      rewrite (Hout _ _ (ip + 2)) by (fold n; lia). reflexivity.
  - intros hi lo Hhi Hlo Hidx. rewrite Run_loop_unfold by (fold n; lia).
    unfold vm.iteration. rewrite Hop. cbn [bind].
    change (compiler.OpConstant =? compiler.OpConstant) with true. cbv iota.
    rewrite Hhi. cbn [bind]. replace (ip + 1 + 1) with (ip + 2) by lia. rewrite Hlo. cbn [bind].
    rewrite (Hout _ _ _ Hidx). reflexivity.
Qed.

Lemma X3_witness :
  vm.Run_loop 1 (vm.New (compiler.mkBytecode [0; 0] [])) 0 = Panic (IndexOutOfRange 2 2).
Proof.
  refine (proj1 (X3_ill_formed_load_panics (vm.New (compiler.mkBytecode [0; 0] [])) 0 0 _) _).
  - vm_compute. reflexivity.
  - vm_compute. discriminate.
Defined.

(** ** The compiler and the disassembler *)

Lemma encode_bytes (i : Instr) : Forall (fun b => 0 <= b < 256) (encode i).
Proof.
  destruct i as [k | |]; cbn [encode]; unfold compiler.byte, compiler.OpConstant,
    compiler.OpAdd, compiler.OpSub; repeat constructor; try lia;
    apply Z.mod_pos_bound; lia.
Qed.

Lemma encode_all_bytes (code : list Instr) : Forall (fun b => 0 <= b < 256) (encode_all code).
Proof.
  unfold encode_all. induction code as [| i code IH]; cbn [map concat]; [constructor |].
  apply Forall_app. split; [apply encode_bytes | exact IH].
Qed.

(** X4: [Compile] only appends.  From any compiler state and for any
    tree, the instructions it had are kept and followed by new bytes, all
    in the range of a byte, that decode to the instructions of the tree
    (operands modulo 2^16); the constants it had are kept and followed by
    the integer literals of the tree, in order. *)
Theorem X4_Compile_appends (c : compiler.Compiler) (node : ast.Node) :
  exists code : list Z,
    compiler.instructions (fst (compiler.Compile c node)) = compiler.instructions c ++ code
    /\ Forall (fun b => 0 <= b < 256) code
    /\ disassemble code
       = Some (map wrap16 (asm (Z.of_nat (length (compiler.constants c))) node))
    /\ compiler.constants (fst (compiler.Compile c node))
       = compiler.constants c ++ map OInt64 (literals node).
Proof.
  rewrite Compile_asm. cbn [fst compiler.instructions compiler.constants].
  eexists. split; [reflexivity | split; [apply encode_all_bytes | split]].
  - apply disassemble_encode_all.
  - reflexivity.
Qed.

(** X5: compiling and running evaluates the tree.  For a well-formed
    additive expression of at most 65536 literals, [Run] on the compiled
    bytecode returns nil and [StackTop] is the value of the tree; in
    particular the program of a single literal [n] yields [n]. *)
Theorem X5_compile_then_run_evaluates (e : ast.Node) :
  additive e ->
  Z.of_nat (length (literals e)) <= 65536 ->
  exists m' : vm.VM,
    vm.Run (vm.New (compiled e)) = Ok (m', None)
    /\ vm.StackTop m' = Ok (OInt64 (value e)).
Proof.
  intros Hadd Hn.
  destruct (compiled_additive_runs e Hadd) as (m' & HR & _ & _ & Htop).
  rewrite (eval_value (loaded (literals e)) e 0) in Htop
    by (intros i Hi; apply loaded_small; assumption).
  eauto.
Qed.

Lemma X5_witness :
  exists m' : vm.VM,
    vm.Run (vm.New (compiled (ast.IntegerLiteral (lexer.mkToken lexer.NUMBER "42" 1 1) 42)))
    = Ok (m', None)
    /\ vm.StackTop m' = Ok (OInt64 42).
Proof.
  apply (X5_compile_then_run_evaluates (ast.IntegerLiteral (lexer.mkToken lexer.NUMBER "42" 1 1) 42)).
  - constructor.
  - vm_compute. discriminate.
Defined.

(** The line of the disassembly for an instruction. *)
Definition line (i : Instr) : string :=
  match i with
  | ILoad k => "OpConstant " ++ Instructions.format_int k ++ Instructions.newline
  | IAdd => "OpAdd" ++ Instructions.newline
  | ISub => "OpSub" ++ Instructions.newline
  end.

Fixpoint listing (code : list Instr) : string :=
  match code with
  | [] => ""
  | i :: code' => line i ++ listing code'
  end.

Lemma String_loop_encode_all (code : list Instr) :
  forall (pre post : list Z) (fuel : nat) (out : string),
    Instructions.String_loop (length code + fuel) (pre ++ encode_all code ++ post)
                             (Z.of_nat (length pre)) out
    = Instructions.String_loop fuel (pre ++ encode_all code ++ post)
                               (Z.of_nat (length pre) + Z.of_nat (length (encode_all code)))
                               (out ++ listing (map wrap16 code)).
Proof.
  induction code as [| i code IH]; intros pre post fuel out.
  - cbn. rewrite Z.add_0_r, string_app_nil_r. reflexivity.
  - assert (Hsplit : pre ++ encode_all (i :: code) ++ post
                     = (pre ++ encode i) ++ encode_all code ++ post).
    { unfold encode_all. cbn [map concat]. rewrite <- !app_assoc. reflexivity. }
    assert (Hin : Z.of_nat (length pre) < Z.of_nat (length (pre ++ encode_all (i :: code) ++ post))).
    { rewrite !length_app. unfold encode_all. cbn [map concat]. rewrite length_app.
      destruct i; cbn [encode length]; lia. }
    cbn [length Nat.add Instructions.String_loop].
    apply Z.ltb_lt in Hin. rewrite Hin.
    assert (Hidx : forall j b, encode i !! j = Some b ->
                vm.index (pre ++ encode_all (i :: code) ++ post) (Z.of_nat (length pre) + Z.of_nat j) = Ok b).
    { intros j b Hj.
      replace (pre ++ encode_all (i :: code) ++ post) with (pre ++ encode i ++ (encode_all code ++ post))
        by (unfold encode_all; cbn [map concat]; rewrite <- !app_assoc; reflexivity).
      apply index_app_mid. exact Hj. }
    specialize (IH (pre ++ encode i) post fuel).
    rewrite <- Hsplit in IH.
    pose proof (fun b H => Hidx 0%nat b H) as Hidx0.
    change (Z.of_nat 0) with 0 in Hidx0. rewrite Z.add_0_r in Hidx0.
    pose proof (fun b H => Hidx 1%nat b H) as Hidx1. change (Z.of_nat 1) with 1 in Hidx1.
    pose proof (fun b H => Hidx 2%nat b H) as Hidx2. change (Z.of_nat 2) with 2 in Hidx2.
    destruct i as [k | |]; cbn [encode] in *.
    + rewrite (Hidx0 compiler.OpConstant eq_refl). cbn [bind].
      change (compiler.OpConstant =? compiler.OpConstant) with true. cbv iota.
      rewrite (Hidx1 _ eq_refl), (Hidx2 _ eq_refl). cbn [bind].
      rewrite operand_read_back.
      replace (Z.of_nat (length pre) + 3) with (Z.of_nat (length (pre ++ [compiler.OpConstant;
                 compiler.byte (Z.shiftr k 8); compiler.byte k])))
        by (rewrite length_app; cbn [length]; lia).
      rewrite IH. f_equal.
      * unfold encode_all. cbn [map concat encode]. rewrite !length_app. cbn [length]. lia.
      * cbn [map wrap16 listing line]. rewrite !string_app_assoc. reflexivity.
    + rewrite (Hidx0 compiler.OpAdd eq_refl). cbn [bind].
      change (compiler.OpAdd =? compiler.OpConstant) with false.
      change (compiler.OpAdd =? compiler.OpAdd) with true. cbv iota.
      replace (Z.of_nat (length pre) + 1) with (Z.of_nat (length (pre ++ [compiler.OpAdd])))
        by (rewrite length_app; cbn [length]; lia).
      rewrite IH. f_equal.
      * unfold encode_all. cbn [map concat encode]. rewrite !length_app. cbn [length]. lia.
      * cbn [map wrap16 listing line]. rewrite !string_app_assoc. reflexivity.
    + rewrite (Hidx0 compiler.OpSub eq_refl). cbn [bind].
      change (compiler.OpSub =? compiler.OpConstant) with false.
      change (compiler.OpSub =? compiler.OpAdd) with false.
      change (compiler.OpSub =? compiler.OpSub) with true. cbv iota.
      replace (Z.of_nat (length pre) + 1) with (Z.of_nat (length (pre ++ [compiler.OpSub])))
        by (rewrite length_app; cbn [length]; lia).
      rewrite IH. f_equal.
      * unfold encode_all. cbn [map concat encode]. rewrite !length_app. cbn [length]. lia.
      * cbn [map wrap16 listing line]. rewrite !string_app_assoc. reflexivity.
Qed.

Lemma encode_all_length (code : list Instr) : (length code <= length (encode_all code))%nat.
Proof.
  unfold encode_all. induction code as [| i code IH]; cbn [map concat length]; [lia |].
  rewrite length_app. destruct i; cbn [encode length]; lia.
Qed.

(** X6: the disassembly of what [Compile] produced, for any tree, is the
    listing of the instructions of the tree, one line per instruction in
    program order, [OpConstant] with the index as written on 16 bits. *)
Theorem X6_String_lists_compiled_code (node : ast.Node) :
  Instructions.String_ (compiler.instructions (fst (compiler.Compile compiler.New node)))
  = Ok (listing (map wrap16 (asm 0 node))).
Proof.
  rewrite Compile_asm. cbn [fst compiler.New compiler.instructions compiler.constants app length].
  change (Z.of_nat 0) with 0. unfold Instructions.String_.
  set (code := asm 0 node).
  pose proof (encode_all_length code) as Hlen.
  replace (length (encode_all code))
    with (length code + (length (encode_all code) - length code))%nat at 1 by lia.
  pose proof (String_loop_encode_all code [] [] (length (encode_all code) - length code) "") as H.
  cbn [app length] in H. rewrite app_nil_r in H. change (Z.of_nat 0) with 0 in H.
  rewrite H. cbn [String.append].
  destruct (length (encode_all code) - length code)%nat;
    cbn [Instructions.String_loop]; rewrite Z.add_0_l, Z.ltb_irrefl; reflexivity.
Qed.

(** X7: [Instructions.String] has no default case.  At a byte that is
    none of the three opcodes the loop never moves: no bound suffices,
    the call does not return.  At a load whose operand bytes are cut off
    it panics with an index out of range. *)
Theorem X7_String_on_ill_formed_code (ins : list Z) (i op : Z) (out : string) :
  vm.index ins i = Ok op ->
  (op <> compiler.OpConstant -> op <> compiler.OpAdd -> op <> compiler.OpSub ->
   forall fuel : nat, Instructions.String_loop fuel ins i out = OutOfFuel)
  /\ (op = compiler.OpConstant -> Z.of_nat (length ins) <= i + 2 ->
      forall fuel : nat, exists j : Z,
        Instructions.String_loop (S fuel) ins i out
        = Panic (IndexOutOfRange j (Z.of_nat (length ins)))).
Proof.
  intros Hop. destruct (index_Ok_inv _ _ _ Hop) as [Hi _].
  assert (Hin : (i <? Z.of_nat (length ins)) = true) by (apply Z.ltb_lt; lia).
  split.
  - intros H0 H1 H2 fuel. induction fuel as [| fuel IH]; cbn [Instructions.String_loop];
      rewrite Hin; [reflexivity |].
    rewrite Hop. cbn [bind].
    replace (op =? compiler.OpConstant) with false by (symmetry; apply Z.eqb_neq; exact H0).
    replace (op =? compiler.OpAdd) with false by (symmetry; apply Z.eqb_neq; exact H1).
    replace (op =? compiler.OpSub) with false by (symmetry; apply Z.eqb_neq; exact H2).
    exact IH.
  - intros -> Htrunc fuel. cbn [Instructions.String_loop]. rewrite Hin, Hop. cbn [bind].
    change (compiler.OpConstant =? compiler.OpConstant) with true. cbv iota.
    assert (Hout : forall j, Z.of_nat (length ins) <= j ->
                       vm.index ins j = Panic (IndexOutOfRange j (Z.of_nat (length ins)))).
    { intros j Hj. unfold vm.index.
      replace (j <? Z.of_nat (length ins)) with false by (symmetry; apply Z.ltb_ge; exact Hj).
      rewrite andb_false_r. reflexivity. }
    destruct (Z.le_gt_cases (Z.of_nat (length ins)) (i + 1)) as [H1 | H1].
    + rewrite (Hout (i + 1) H1). cbn [bind]. eauto.
    + destruct (index_in_range ins (i + 1)) as [hi Hhi]; [lia |].
      rewrite Hhi. cbn [bind]. rewrite (Hout (i + 2)) by lia. cbn [bind]. eauto.
Qed.

Lemma X7_witness :
  vm.index [compiler.OpAdd; 9] 1 = Ok 9
  /\ Instructions.String_loop 1000 [compiler.OpAdd; 9] 1 "" = OutOfFuel.
Proof.
  split; [vm_compute; reflexivity |].
  refine (proj1 (X7_String_on_ill_formed_code [compiler.OpAdd; 9] 1 9 "" _) _ _ _ 1000%nat).
  - vm_compute. reflexivity.
  - vm_compute. discriminate.
  - vm_compute. discriminate.
  - vm_compute. discriminate.
Defined.

(** ** The lexer on words, numbers and operators *)

Definition wordchar (c : Z) : bool := unicode.IsLetter c || unicode.IsDigit c.

Lemma IsLetter_facts (c : Z) :
  unicode.IsLetter c = true ->
  c <> 0 /\ unicode.IsSpace c = false /\ c <> 39 /\ c <> 34.
Proof.
  unfold unicode.IsLetter. intros H.
  assert (Hr : 65 <= c <= 90 \/ 97 <= c <= 122 \/ c = 170 \/ c = 181 \/ c = 186
               \/ 192 <= c <= 214 \/ 216 <= c <= 246 \/ 248 <= c <= 255).
  { repeat (apply orb_true_iff in H; destruct H as [H | H]);
      try (apply andb_true_iff in H; destruct H as [H1 H2]; apply Z.leb_le in H1, H2);
      try apply Z.eqb_eq in H; lia. }
  clear H. unfold unicode.IsSpace. repeat split; lia.
Qed.

Lemma NextToken_loop_word (l : lexer.Lexer) (pre : string) (a : ascii) (w rest : string) :
  lexer_at l pre (String a w ++ rest) ->
  unicode.IsLetter (rune_of_ascii a) = true ->
  string_forall wordchar w = true ->
  wordchar (head_rune rest) = false ->
  exists l' : lexer.Lexer,
    lexer.NextToken_loop 0 l
    = Ok (lexer.mkToken (match lexer.lookup_keyword lexer.reverseKeywords (String a w) with
                         | Some code => code
                         | None => lexer.IDENTIFIER
                         end) (String a w) (lexer.line l) (lexer.column l), l')
    /\ lexer_at l' (pre ++ String a w) rest.
Proof.
  intros Hat Ha Hw Hrest.
  assert (Hall : string_forall wordchar (String a w) = true).
  { cbn [string_forall]. unfold wordchar at 1. rewrite Ha, Hw. reflexivity. }
  destruct (lexer_at_advance_while wordchar (String a w) (lexer.loop_fuel l) l pre rest
              Hat Hall Hrest (lexer_at_fuel _ _ _ _ Hat)) as (l' & Hrun & Hat' & Hin').
  exists l'. split; [| exact Hat'].
  destruct (IsLetter_facts _ Ha) as (H0 & Hsp & H39 & H34).
  destruct Hat as (Hin & Hpos & Hc). cbn [String.append head_rune] in Hc.
  cbn [lexer.NextToken_loop]. rewrite Hc, Hsp, Ha.
  replace (rune_of_ascii a =? 0) with false by (symmetry; apply Z.eqb_neq; exact H0).
  replace (rune_of_ascii a =? 39) with false by (symmetry; apply Z.eqb_neq; exact H39).
  replace (rune_of_ascii a =? 34) with false by (symmetry; apply Z.eqb_neq; exact H34).
  cbn [negb].
  unfold lexer.readIdentifier. fold wordchar. rewrite Hrun. cbn [bind].
  unfold lexer.slice. destruct Hat' as (Hin2 & Hpos2 & _).
  rewrite Hpos, Hpos2, Hin', Hin, !string_length_app.
  replace ((String.length pre <=? String.length pre + String.length (String a w))%nat
           && (String.length pre + String.length (String a w)
               <=? String.length pre + (String.length (String a w) + String.length rest))%nat)
    with true by (symmetry; apply andb_true_iff; split; apply Nat.leb_le; lia).
  replace (String.length pre + String.length (String a w) - String.length pre)%nat
    with (String.length (String a w)) by lia.
  rewrite string_substring_app. reflexivity.
Qed.

Lemma lookup_keyword_In (tbl : list (string * lexer.TokenType)) (k : string) :
  NoDup (map fst tbl) ->
  (forall code, In (k, code) tbl -> lexer.lookup_keyword tbl k = Some code)
  /\ ((forall code, ~ In (k, code) tbl) -> lexer.lookup_keyword tbl k = None).
Proof.
  induction tbl as [| [k0 c0] tbl IH]; intros Hnd; cbn [lexer.lookup_keyword].
  - split; [intros code [] | reflexivity].
  - cbn [map fst] in Hnd. apply NoDup_cons in Hnd. destruct Hnd as [Hnotin Hnd].
    destruct (IH Hnd) as [IH1 IH2].
    destruct (String.eqb_spec k0 k) as [-> | Hne].
    + split.
      * intros code [Heq | Hin]; [congruence |].
        exfalso. apply Hnotin. apply list_elem_of_In. apply in_map_iff. exists (k, code). auto.
      * intros Hno. exfalso. apply (Hno c0). left. reflexivity.
    + split.
      * intros code [Heq | Hin]; [congruence | auto].
      * intros Hno. apply IH2. intros code Hin. apply (Hno code). right. exact Hin.
Qed.

Lemma reverseKeywords_NoDup : NoDup (map fst lexer.reverseKeywords).
Proof.
  unfold lexer.reverseKeywords. cbn [map fst].
  repeat (apply NoDup_cons; split;
          [rewrite list_elem_of_In; cbn [In]; intuition discriminate |]).
  apply NoDup_nil. trivial.
Qed.

(** A word: a letter followed by letters and digits. *)
Definition is_word (word : string) : Prop :=
  exists (a : ascii) (w : string),
    word = String a w
    /\ unicode.IsLetter (rune_of_ascii a) = true
    /\ string_forall wordchar w = true.

(** X8: identifiers and keywords.  After whitespace, a word followed by a
    character that is neither a letter nor a digit is read whole as one
    token whose text is the word; its kind is the keyword kind when the
    word is one of the twenty keywords of [reverseKeywords], and
    [IDENTIFIER] otherwise. *)
Theorem X8_words_are_keywords_or_identifiers
        (l : lexer.Lexer) (pre ws word rest : string) :
  lexer_at l pre (ws ++ word ++ rest) ->
  spaces ws ->
  is_word word ->
  wordchar (head_rune rest) = false ->
  exists (t : lexer.Token) (l' : lexer.Lexer),
    lexer.NextToken l = Ok (t, l')
    /\ lexer.Value t = word
    /\ lexer_at l' ((pre ++ ws) ++ word) rest
    /\ (forall code, In (word, code) lexer.reverseKeywords -> lexer.Type_ t = code)
    /\ ((forall code, ~ In (word, code) lexer.reverseKeywords) ->
        lexer.Type_ t = lexer.IDENTIFIER).
Proof.
  intros Hat Hws (a & w & -> & Ha & Hw) Hrest.
  destruct (NextToken_skip l pre ws (String a w ++ rest) Hat Hws) as (l1 & Hat1 & Hskip).
  { apply (IsLetter_facts _ Ha). }
  destruct (NextToken_loop_word l1 _ a w rest Hat1 Ha Hw Hrest) as (l' & Htok & Hat').
  destruct (lookup_keyword_In lexer.reverseKeywords (String a w) reverseKeywords_NoDup)
    as [Hin Hout].
  eexists _, l'. rewrite Hskip, Htok.
  split; [reflexivity | split; [reflexivity | split; [exact Hat' | split]]];
    cbn [lexer.Type_].
  - intros code Hc. rewrite (Hin code Hc). reflexivity.
  - intros Hno. rewrite (Hout Hno). reflexivity.
Qed.

Lemma X8_witness :
  exists (t : lexer.Token) (l' : lexer.Lexer),
    lexer.NextToken (lexer.New " while(") = Ok (t, l')
    /\ lexer.Value t = "while"%string
    /\ lexer_at l' (("" ++ " ") ++ "while") "("
    /\ (forall code, In ("while"%string, code) lexer.reverseKeywords -> lexer.Type_ t = code)
    /\ ((forall code, ~ In ("while"%string, code) lexer.reverseKeywords) ->
        lexer.Type_ t = lexer.IDENTIFIER).
Proof.
  apply (X8_words_are_keywords_or_identifiers (lexer.New " while(") "" " " "while" "(").
  - unfold lexer_at. repeat split; vm_compute; reflexivity.
  - reflexivity.
  - exists "w"%char, "hile"%string. repeat split; vm_compute; reflexivity.
  - reflexivity.
Defined.

(** The four operators that merge with a following [=]: the first
    character, and the kind and text of the two-character and of the
    one-character token. *)
Definition merging_operators : list (Z * (lexer.TokenType * string) * (lexer.TokenType * string)) :=
  [ (61, (lexer.EQUAL, "=="), (lexer.ASSIGN, "="));
    (33, (lexer.NOTEQ, "!="), (lexer.NOT, "!"));
    (60, (lexer.LessEqual, "<="), (lexer.LESS, "<"));
    (62, (lexer.GreatEqual, ">="), (lexer.GREAT, ">")) ]%string.

(** X9: one character of lookahead.  At [=], [!], [<] or [>], the lexer
    returns the two-character operator and consumes two characters when
    the next character is [=], and the one-character operator, consuming
    one character, otherwise (the end of the input included). *)
Theorem X9_two_character_operators
        (l : lexer.Lexer) (pre : string) (a : ascii) (rest : string)
        (two one : lexer.TokenType * string) :
  lexer_at l pre (String a rest) ->
  In (rune_of_ascii a, two, one) merging_operators ->
  (forall rest' : string,
      rest = String "=" rest' ->
      lexer.NextToken l
      = Ok (lexer.mkToken (fst two) (snd two) (lexer.line l) (lexer.column l),
            lexer.advance (lexer.advance l))
      /\ lexer_at (lexer.advance (lexer.advance l)) ((pre ++ String a "") ++ "=") rest')
  /\ (head_rune rest <> 61 ->
      lexer.NextToken l
      = Ok (lexer.mkToken (fst one) (snd one) (lexer.line l) (lexer.column l), lexer.advance l)
      /\ lexer_at (lexer.advance l) (pre ++ String a "") rest).
Proof.
  intros Hat Hin.
  pose proof (lexer_at_advance _ _ _ _ Hat) as Hat1.
  destruct Hat as (_ & _ & Hc). cbn [head_rune] in Hc.
  pose proof Hat1 as (_ & _ & Hc1).
  split.
  - intros rest' ->. split; [| apply lexer_at_advance; exact Hat1].
    unfold lexer.NextToken. cbn [lexer.NextToken_loop]. rewrite Hc.
    unfold merging_operators in Hin. cbn [In] in Hin.
    destruct Hin as [H | [H | [H | [H | []]]]]; injection H as <- <- <-;
      cbn; unfold lexer.operatorToken; cbn; rewrite Hc1; reflexivity.
  - intros Hne. split; [| exact Hat1].
    unfold lexer.NextToken. cbn [lexer.NextToken_loop]. rewrite Hc.
    apply Z.eqb_neq in Hne.
    unfold merging_operators in Hin. cbn [In] in Hin.
    destruct Hin as [H | [H | [H | [H | []]]]]; injection H as <- <- <-;
      cbn; unfold lexer.operatorToken; cbn; rewrite Hc1, Hne; reflexivity.
Qed.

Lemma X9_witness :
  lexer.NextToken (lexer.New "<=1")
  = Ok (lexer.mkToken lexer.LessEqual "<=" 1 1, lexer.advance (lexer.advance (lexer.New "<=1")))
  /\ lexer_at (lexer.advance (lexer.advance (lexer.New "<=1"))) (("" ++ "<") ++ "=") "1".
Proof.
  refine (proj1 (X9_two_character_operators (lexer.New "<=1") "" "<" "=1"
                   (lexer.LessEqual, "<="%string) (lexer.LESS, "<"%string) _ _) "1"%string _).
  - unfold lexer_at. repeat split; vm_compute; reflexivity.
  - vm_compute. right. right. left. reflexivity.
  - reflexivity.
Defined.

(** The characters that [NextToken] reads as an operator or as
    punctuation. *)
Definition operator_chars : list Z :=
  [61; 33; 60; 62; 43; 45; 42; 47; 59; 44; 40; 41; 123; 125; 91; 93; 58].

(** X10: a character other than NUL (which the lexer takes as the end
    of the input, returning [EOF]) that is not whitespace, not a quote,
    not a letter, not a digit and none of the seventeen operator and
    punctuation characters makes [NextToken] panic, naming the character
    and the line and column where the lexer stood on it. *)
Theorem X10_unexpected_character_panics (l : lexer.Lexer) :
  lexer.currentChar l <> 0 ->
  unicode.IsSpace (lexer.currentChar l) = false ->
  lexer.currentChar l <> 39 -> lexer.currentChar l <> 34 ->
  unicode.IsLetter (lexer.currentChar l) = false ->
  unicode.IsDigit (lexer.currentChar l) = false ->
  ~ In (lexer.currentChar l) operator_chars ->
  lexer.NextToken l
  = Panic (UnexpectedCharacter (lexer.currentChar l) (lexer.line l) (lexer.column l)).
Proof.
  intros H0 Hsp H39 H34 Hlet Hdig Hop.
  unfold lexer.NextToken. cbn [lexer.NextToken_loop]. rewrite Hsp, Hlet, Hdig.
  apply Z.eqb_neq in H0, H39, H34. rewrite H0, H39, H34. cbn [negb].
  unfold lexer.operatorToken.
  unfold operator_chars in Hop. cbn [In] in Hop.
  repeat match goal with
         | |- (if ?c =? ?k then _ else _) = _ =>
             replace (c =? k) with false by (symmetry; apply Z.eqb_neq; intros E; apply Hop; rewrite E; tauto)
         end.
  reflexivity.
Qed.

Lemma X10_witness :
  lexer.NextToken (lexer.New "@") = Panic (UnexpectedCharacter 64 1 1).
Proof.
  apply (X10_unexpected_character_panics (lexer.New "@")); try (vm_compute; discriminate);
    try reflexivity.
  vm_compute. intuition discriminate.
Defined.

(** X11: integer literals.  After whitespace, a run of digits followed by
    a character that is not a digit is read whole as one [NUMBER] token
    whose text is the run, whatever follows (a letter included). *)
Theorem X11_numbers_are_scanned_greedily (l : lexer.Lexer) (pre ws d rest : string) :
  lexer_at l pre (ws ++ d ++ rest) ->
  spaces ws -> digits d ->
  unicode.IsDigit (head_rune rest) = false ->
  exists (t : lexer.Token) (l' : lexer.Lexer),
    lexer.NextToken l = Ok (t, l')
    /\ lexer.Type_ t = lexer.NUMBER /\ lexer.Value t = d
    /\ lexer_at l' ((pre ++ ws) ++ d) rest.
Proof.
  intros Hat Hws Hd Hrest.
  destruct (NextToken_skip l pre ws (d ++ rest) Hat Hws) as (l1 & Hat1 & Hskip).
  { apply IsDigit_not_space, head_rune_digits. exact Hd. }
  destruct Hd as [Hne Hd]. destruct d as [| a d]; [congruence |].
  destruct (NextToken_loop_number l1 _ a d rest Hat1 Hd Hrest) as (l' & Htok & Hat').
  eexists _, l'. rewrite Hskip, Htok.
  split; [reflexivity | split; [reflexivity | split; [reflexivity | exact Hat']]].
Qed.

Lemma X11_witness :
  exists (t : lexer.Token) (l' : lexer.Lexer),
    lexer.NextToken (lexer.New " 12ab") = Ok (t, l')
    /\ lexer.Type_ t = lexer.NUMBER /\ lexer.Value t = "12"%string
    /\ lexer_at l' (("" ++ " ") ++ "12") "ab".
Proof.
  apply (X11_numbers_are_scanned_greedily (lexer.New " 12ab") "" " " "12" "ab").
  - unfold lexer_at. repeat split; vm_compute; reflexivity.
  - reflexivity.
  - split; [discriminate | reflexivity].
  - reflexivity.
Defined.

(** ** Lines and columns *)

(** The line and column reached from [(ln, col)] by reading [s]: a
    newline starts the next line at column 1, any other character moves
    one column to the right. *)
Fixpoint position_from (ln col : Z) (s : string) : Z * Z :=
  match s with
  | EmptyString => (ln, col)
  | String a s' =>
      if rune_of_ascii a =? 10 then position_from (ln + 1) 1 s'
      else position_from ln (col + 1) s'
  end.

Definition position (pre : string) : Z * Z := position_from 1 1 pre.

Lemma position_from_app (s1 s2 : string) :
  forall ln col : Z,
    position_from ln col (s1 ++ s2)
    = position_from (fst (position_from ln col s1)) (snd (position_from ln col s1)) s2.
Proof.
  induction s1 as [| a s1 IH]; intros ln col; cbn [String.append position_from fst snd];
    [reflexivity |].
  destruct (rune_of_ascii a =? 10); apply IH.
Qed.

(** The lexer has consumed [pre], has [suf] in front of it, and its line
    and column are those of the first character of [suf]. *)
Definition tracked (l : lexer.Lexer) (pre suf : string) : Prop :=
  lexer_at l pre suf /\ (lexer.line l, lexer.column l) = position pre.

Lemma tracked_New (s : string) : tracked (lexer.New s) "" s.
Proof. split; [apply lexer_at_New | reflexivity]. Qed.

Lemma tracked_advance (l : lexer.Lexer) (pre : string) (a : ascii) (suf : string) :
  tracked l pre (String a suf) -> tracked (lexer.advance l) (pre ++ String a "") suf.
Proof.
  intros [Hat Hpos]. split; [apply lexer_at_advance; exact Hat |].
  unfold position in *. rewrite position_from_app, <- Hpos. cbn [fst snd position_from].
  destruct Hat as (_ & _ & Hc). cbn [head_rune] in Hc.
  unfold lexer.advance. rewrite Hc.
  destruct (rune_of_ascii a =? 10); cbn [lexer.line lexer.column]; f_equal; lia.
Qed.

(** [n] calls of [advance]. *)
Fixpoint advances (n : nat) (l : lexer.Lexer) : lexer.Lexer :=
  match n with
  | O => l
  | S n' => advances n' (lexer.advance l)
  end.

Lemma tracked_advances (s : string) :
  forall (l : lexer.Lexer) (pre suf : string),
    tracked l pre (s ++ suf) -> tracked (advances (String.length s) l) (pre ++ s) suf.
Proof.
  induction s as [| a s IH]; intros l pre suf H; cbn [String.length advances String.append] in *.
  - rewrite string_app_nil_r. exact H.
  - apply tracked_advance in H. apply IH in H. rewrite string_app_assoc in H. exact H.
Qed.

Lemma tracked_advance_while (cond : Z -> bool) (run : string) :
  forall (fuel : nat) (l l' : lexer.Lexer) (pre rest : string),
    tracked l pre (run ++ rest) ->
    string_forall cond run = true ->
    cond (head_rune rest) = false ->
    lexer.advance_while cond fuel l = Ok l' ->
    tracked l' (pre ++ run) rest.
Proof.
  induction run as [| a run IH]; intros fuel l l' pre rest Htr Hall Hstop Hrun.
  - cbn [String.append] in Htr. rewrite string_app_nil_r.
    destruct Htr as [Hat Hpos]. pose proof Hat as (_ & _ & Hc).
    destruct fuel; cbn [lexer.advance_while] in Hrun; rewrite Hc, Hstop in Hrun;
      injection Hrun as <-; split; assumption.
  - cbn [string_forall] in Hall. apply andb_true_iff in Hall. destruct Hall as [Ha Hall].
    cbn [String.append] in Htr. pose proof Htr as [(_ & _ & Hc) _]. cbn [head_rune] in Hc.
    destruct fuel as [| fuel]; cbn [lexer.advance_while] in Hrun; rewrite Hc, Ha in Hrun;
      [discriminate |].
    apply tracked_advance in Htr.
    specialize (IH fuel _ _ _ _ Htr Hall Hstop Hrun).
    rewrite string_app_assoc in IH. exact IH.
Qed.

Lemma NextToken_loop_start (l l' : lexer.Lexer) (t : lexer.Token) :
  unicode.IsSpace (lexer.currentChar l) = false ->
  lexer.NextToken_loop 0 l = Ok (t, l') ->
  lexer.Line t = lexer.line l /\ lexer.Column t = lexer.column l.
Proof.
  intros Hsp H. cbn [lexer.NextToken_loop] in H. rewrite Hsp in H.
  destruct (negb (lexer.currentChar l =? 0)); [| injection H as <- <-; auto].
  destruct (lexer.currentChar l =? 39).
  { unfold lexer.readChar in H. bind_inv H; injection H as <- <-; auto. }
  destruct (lexer.currentChar l =? 34).
  { unfold lexer.readString in H. bind_inv H; injection H as <- <-; auto. }
  destruct (unicode.IsLetter (lexer.currentChar l)).
  { unfold lexer.readIdentifier in H. bind_inv H.
    destruct (lexer.lookup_keyword _ _); injection H as <- <-; auto. }
  destruct (unicode.IsDigit (lexer.currentChar l)).
  { unfold lexer.readNumber in H. bind_inv H. injection H as <- <-; auto. }
  unfold lexer.operatorToken in H. bind_inv H; injection H as <- <-; auto.
Qed.

(** X12: lines and columns.  A lexer that has advanced over a prefix of
    its input stands at line 1 plus the number of newlines of the prefix,
    and at column 1 plus the number of characters after the last of them;
    and the token that [NextToken] then returns, of whatever kind,
    carries the line and column of the first character after the
    whitespace, its own first character. *)
Theorem X12_tokens_carry_their_position
        (pre ws rest : string) (t : lexer.Token) (l' : lexer.Lexer) :
  let l := advances (String.length pre) (lexer.New (pre ++ ws ++ rest)) in
  spaces ws ->
  unicode.IsSpace (head_rune rest) = false ->
  lexer.NextToken l = Ok (t, l') ->
  (lexer.line l, lexer.column l) = position pre
  /\ (lexer.Line t, lexer.Column t) = position (pre ++ ws).
Proof.
  intros l Hws Hrest Htok.
  pose proof (tracked_advances pre _ _ _ (tracked_New (pre ++ ws ++ rest))) as Htr.
  cbn [String.append] in Htr. fold l in Htr.
  split; [exact (proj2 Htr) |].
  assert (Hstart : exists l1, tracked l1 (pre ++ ws) rest
                              /\ lexer.NextToken l = lexer.NextToken_loop 0 l1).
  { destruct ws as [| a ws].
    - exists l. cbn [String.append] in Htr. rewrite string_app_nil_r. split; [exact Htr |].
      apply NextToken_loop_nonspace. destruct Htr as [(_ & _ & Hc) _]. rewrite Hc. exact Hrest.
    - destruct (lexer_at_advance_while unicode.IsSpace (String a ws) (lexer.loop_fuel l) l pre rest
                  (proj1 Htr) Hws Hrest (lexer_at_fuel _ _ _ _ (proj1 Htr)))
        as (l1 & Hrun & _ & _).
      exists l1. split; [eapply tracked_advance_while; eauto |].
      unfold lexer.NextToken. cbn [lexer.NextToken_loop].
      pose proof Hws as Hws'. unfold spaces in Hws'. cbn [string_forall] in Hws'.
      apply andb_true_iff in Hws'. destruct Hws' as [Ha _].
      destruct Htr as [(_ & _ & Hc) _]. cbn [String.append head_rune] in Hc. rewrite Hc, Ha.
      replace (rune_of_ascii a =? 0) with false.
      + unfold lexer.skipWhitespace. rewrite Hrun. reflexivity.
      + symmetry. apply Z.eqb_neq. intros H0. rewrite H0 in Ha. discriminate. }
  destruct Hstart as (l1 & [Hat1 Hpos1] & Heq).
  rewrite Heq in Htok.
  destruct (NextToken_loop_start l1 l' t) as [HL HC]; [| exact Htok |].
  - destruct Hat1 as (_ & _ & Hc). rewrite Hc. exact Hrest.
  - rewrite HL, HC. exact Hpos1.
Qed.

Lemma X12_witness :
  (lexer.line (advances 3 (lexer.New "1 +
  22")), lexer.column (advances 3 (lexer.New "1 +
  22"))) = position "1 +"
  /\ (lexer.Line (lexer.mkToken lexer.NUMBER "22" 2 3),
      lexer.Column (lexer.mkToken lexer.NUMBER "22" 2 3))
     = position ("1 +" ++ "
  ").
Proof.
  refine (X12_tokens_carry_their_position "1 +" "
  " "22" (lexer.mkToken lexer.NUMBER "22" 2 3) _ _ _ _).
  - reflexivity.
  - reflexivity.
  - vm_compute. reflexivity.
Defined.

(** ** The textual form of a token *)

Definition all_types : list lexer.TokenType :=
  [ lexer.PUBLIC; lexer.CLASS; lexer.STATIC; lexer.VOID; lexer.MAIN; lexer.CHAR; lexer.INT;
    lexer.PRINTF; lexer.SCANF; lexer.SWITCH; lexer.CASE; lexer.DEFAULT; lexer.FOR; lexer.IF;
    lexer.ELSE; lexer.WHILE; lexer.DO; lexer.RETURN; lexer.BREAK; lexer.CONTINUE;
    lexer.IDENTIFIER; lexer.STRING; lexer.CharConst; lexer.NUMBER;
    lexer.ASSIGN; lexer.PLUS; lexer.MINUS; lexer.MULTIPLY; lexer.DIVIDE; lexer.LESS;
    lexer.LessEqual; lexer.GREAT; lexer.GreatEqual; lexer.NOTEQ; lexer.NOT; lexer.EQUAL;
    lexer.COMMA; lexer.SEMICOLON; lexer.COLON; lexer.LeftParen; lexer.RightParen;
    lexer.LeftBrace; lexer.RightBrace; lexer.LeftBrack; lexer.RightBrack; lexer.EOF ].

(** The text up to the first space, and the text from that space on. *)
Fixpoint split_at_space (s : string) : string * string :=
  match s with
  | EmptyString => (EmptyString, EmptyString)
  | String a s' =>
      if Ascii.eqb a " " then (EmptyString, s)
      else let '(code, rest) := split_at_space s' in (String a code, rest)
  end.

Fixpoint string_drop (n : nat) (s : string) : string :=
  match n, s with
  | O, _ => s
  | S n', String _ s' => string_drop n' s'
  | S _, EmptyString => EmptyString
  end.

(** Reading a line of token output back: the kind whose code is the
    first field, and the text after the padding and the separating
    space. *)
Definition read_token_line (s : string) : option (lexer.TokenType * string) :=
  let '(code, rest) := split_at_space s in
  match List.find (fun ty => String.eqb (lexer.Code ty) code) all_types with
  | Some ty => Some (ty, string_drop (8 - String.length code + 1) rest)
  | None => None
  end.

(** X13: the textual form of a token determines its kind and its text.
    [Token.String] writes the code of the kind, padded to eight columns,
    a space, and the text; reading the line back gives the kind and the
    text again, so tokens that differ in kind or text print differently,
    and the codes of the 46 kinds are pairwise distinct. *)
Theorem X13_token_line_round_trip :
  (forall t : lexer.Token,
      read_token_line (lexer.String_ t) = Some (lexer.Type_ t, lexer.Value t))
  /\ (forall t1 t2 : lexer.Token,
        lexer.String_ t1 = lexer.String_ t2 ->
        lexer.Type_ t1 = lexer.Type_ t2 /\ lexer.Value t1 = lexer.Value t2)
  /\ (forall a b : lexer.TokenType, lexer.Code a = lexer.Code b -> a = b).
Proof.
  assert (Hrt : forall t : lexer.Token,
             read_token_line (lexer.String_ t) = Some (lexer.Type_ t, lexer.Value t)).
  { intros [ty v ln col]. destruct ty; vm_compute; reflexivity. }
  assert (Hinj : forall t1 t2 : lexer.Token,
             lexer.String_ t1 = lexer.String_ t2 ->
             lexer.Type_ t1 = lexer.Type_ t2 /\ lexer.Value t1 = lexer.Value t2).
  { intros t1 t2 H. pose proof (Hrt t1) as H1. rewrite H, (Hrt t2) in H1.
    injection H1 as -> ->. auto. }
  split; [exact Hrt | split; [exact Hinj |]].
  intros a b H.
  apply (Hinj (lexer.mkToken a "" 0 0) (lexer.mkToken b "" 0 0)).
  unfold lexer.String_. cbn [lexer.Type_ lexer.Value]. rewrite H. reflexivity.
Qed.

Lemma X13_witness :
  lexer.Type_ (lexer.mkToken lexer.IF "if" 1 1) = lexer.Type_ (lexer.mkToken lexer.IF "if" 7 9)
  /\ lexer.Value (lexer.mkToken lexer.IF "if" 1 1) = lexer.Value (lexer.mkToken lexer.IF "if" 7 9).
Proof.
  apply (proj1 (proj2 X13_token_line_round_trip)). reflexivity.
Defined.

(** The examples of the specification. *)
Example token_lines :
  lexer.String_ (lexer.mkToken lexer.NUMBER "12" 1 1) = "INTCON   12"%string
  /\ lexer.String_ (lexer.mkToken lexer.PLUS "+" 1 4) = "PLUS     +"%string
  /\ lexer.String_ (lexer.mkToken lexer.IF "if" 1 1) = "IFTK     if"%string
  /\ lexer.String_ (lexer.mkToken lexer.CONTINUE "continue" 1 1) = "CONTINUETK continue"%string.
Proof. repeat split; reflexivity. Qed.

(** ** Termination *)

(** The lexer stands inside its input: [pos] is at most the length, and
    below it whenever the current character is not the end marker. *)
Definition inside (l : lexer.Lexer) : Prop :=
  (lexer.pos l <= String.length (lexer.input l))%nat
  /\ (lexer.currentChar l <> 0 -> (lexer.pos l < String.length (lexer.input l))%nat).

Lemma inside_New (s : string) : inside (lexer.New s).
Proof.
  unfold inside, lexer.New. cbn [lexer.pos lexer.input lexer.currentChar]. split; [lia |].
  unfold byte_at. destruct s; cbn [String.get String.length]; [congruence | lia].
Qed.

Lemma advance_fields (l : lexer.Lexer) :
  lexer.input (lexer.advance l) = lexer.input l
  /\ lexer.pos (lexer.advance l) = S (lexer.pos l)
  /\ (lexer.currentChar (lexer.advance l) <> 0 ->
      (S (lexer.pos l) < String.length (lexer.input l))%nat).
Proof.
  unfold lexer.advance. destruct (lexer.currentChar l =? 10);
    cbn [lexer.input lexer.pos lexer.currentChar];
    (split; [reflexivity | split; [reflexivity |]]);
    destruct (Nat.leb_spec (String.length (lexer.input l)) (S (lexer.pos l)));
    intros Hc; [congruence | lia | congruence | lia].
Qed.

(** [l'] was reached from [l] by calls of [advance], each on a character
    other than the end marker, at least one if [pos] changed. *)
Definition moved (l l' : lexer.Lexer) : Prop :=
  lexer.input l' = lexer.input l
  /\ (lexer.pos l <= lexer.pos l')%nat
  /\ (inside l -> inside l').

Lemma moved_refl (l : lexer.Lexer) : moved l l.
Proof. unfold moved. auto. Qed.

Lemma moved_trans (l1 l2 l3 : lexer.Lexer) : moved l1 l2 -> moved l2 l3 -> moved l1 l3.
Proof.
  intros (Hi1 & Hp1 & Hs1) (Hi2 & Hp2 & Hs2). unfold moved.
  split; [congruence | split; [lia | auto]].
Qed.

Lemma moved_advance (l : lexer.Lexer) :
  lexer.currentChar l <> 0 -> moved l (lexer.advance l).
Proof.
  intros Hc. destruct (advance_fields l) as (Hi & Hp & Hs).
  split; [exact Hi | split; [lia |]].
  intros [Hle Hlt]. specialize (Hlt Hc). unfold inside. rewrite Hi, Hp. split; [lia | exact Hs].
Qed.

(** After an [advance] on which the next character is not the end
    marker, the lexer is inside its input, wherever it was before. *)
Lemma moved_advance_then (l : lexer.Lexer) :
  lexer.currentChar (lexer.advance l) <> 0 ->
  moved l (lexer.advance l) /\ inside (lexer.advance l).
Proof.
  intros Hc. destruct (advance_fields l) as (Hi & Hp & Hs).
  assert (Hin : inside (lexer.advance l)).
  { unfold inside. rewrite Hi, Hp. specialize (Hs Hc). split; [lia | auto]. }
  split; [| exact Hin]. split; [exact Hi | split; [lia | auto]].
Qed.

Lemma advance_while_terminates (cond : Z -> bool) (fuel : nat) :
  cond 0 = false ->
  forall l : lexer.Lexer,
    (String.length (lexer.input l) - lexer.pos l < fuel)%nat ->
    exists l' : lexer.Lexer,
      lexer.advance_while cond fuel l = Ok l'
      /\ cond (lexer.currentChar l') = false
      /\ moved l l'.
Proof.
  intros H0. induction fuel as [| fuel IH]; intros l Hf; [lia |].
  cbn [lexer.advance_while].
  destruct (cond (lexer.currentChar l)) eqn:Hc; [| exists l; auto using moved_refl].
  assert (Hnz : lexer.currentChar l <> 0) by (intros E; rewrite E, H0 in Hc; discriminate).
  destruct (advance_fields l) as (Hi & Hp & Hs).
  destruct (Z.eq_dec (lexer.currentChar (lexer.advance l)) 0) as [Hz | Hnz'].
  - exists (lexer.advance l).
    split; [| split; [rewrite Hz; exact H0 | apply moved_advance; exact Hnz]].
    destruct fuel; cbn [lexer.advance_while]; rewrite Hz, H0; reflexivity.
  - destruct (IH (lexer.advance l)) as (l' & Hrun & Hstop & Hmv).
    { rewrite Hi, Hp. specialize (Hs Hnz'). lia. }
    exists l'. split; [exact Hrun | split; [exact Hstop |]].
    eapply moved_trans; [apply moved_advance; exact Hnz | exact Hmv].
Qed.

Lemma escapeInString_Ok (l : lexer.Lexer) (v : string) :
  lexer.escapeInString l = Ok v -> lexer.currentChar l <> 0.
Proof.
  unfold lexer.escapeInString. intros H E. rewrite E in H. discriminate.
Qed.

Lemma escapeInChar_Ok (l : lexer.Lexer) (v : string) :
  lexer.escapeInChar l = Ok v -> lexer.currentChar l <> 0.
Proof.
  unfold lexer.escapeInChar. intros H E. rewrite E in H. discriminate.
Qed.

Lemma escape_not_OutOfFuel (l : lexer.Lexer) :
  lexer.escapeInString l <> OutOfFuel /\ lexer.escapeInChar l <> OutOfFuel.
Proof.
  unfold lexer.escapeInString, lexer.escapeInChar.
  split; repeat match goal with |- (if ?b then _ else _) <> _ => destruct b; [discriminate |] end;
    discriminate.
Qed.

Lemma readString_loop_terminates (fuel : nat) :
  forall (l : lexer.Lexer) (value : string),
    (String.length (lexer.input l) - lexer.pos l < fuel)%nat ->
    lexer.readString_loop fuel l value <> OutOfFuel
    /\ (forall (v : string) (l' : lexer.Lexer),
          lexer.readString_loop fuel l value = Ok (v, l') -> moved l l').
Proof.
  induction fuel as [| fuel IH]; intros l value Hf; [lia |].
  assert (Hstep : forall (l1 : lexer.Lexer) (value1 : string),
             moved l l1 -> (lexer.pos l < lexer.pos l1)%nat ->
             (lexer.currentChar l1 <> 0 -> (lexer.pos l1 < String.length (lexer.input l1))%nat) ->
             lexer.readString_loop fuel l1 value1 <> OutOfFuel
             /\ (forall v l', lexer.readString_loop fuel l1 value1 = Ok (v, l') -> moved l l')).
  { intros l1 value1 Hmv Hlt Hs1.
    destruct (Z.eq_dec (lexer.currentChar l1) 0) as [Hz | Hnz].
    - assert (Hret : lexer.readString_loop fuel l1 value1 = Ok (value1, l1)).
      { destruct fuel; cbn [lexer.readString_loop]; rewrite Hz; reflexivity. }
      rewrite Hret. split; [discriminate |]. intros v l' H. injection H as <- <-. exact Hmv.
    - destruct (IH l1 value1) as [Hne Hmv1].
      { destruct Hmv as (Hi & _ & _). specialize (Hs1 Hnz). rewrite Hi in *. lia. }
      split; [exact Hne |]. intros v l' H. eapply moved_trans; [exact Hmv | eauto]. }
  cbn [lexer.readString_loop].
  destruct (negb (lexer.currentChar l =? 34) && negb (lexer.currentChar l =? 0)) eqn:Hgo.
  - apply andb_true_iff in Hgo. destruct Hgo as [_ Hnz].
    apply negb_true_iff, Z.eqb_neq in Hnz.
    destruct (advance_fields l) as (Hi & Hp & Hs).
    destruct (lexer.currentChar l =? 92).
    + destruct (lexer.escapeInString (lexer.advance l)) as [v | p |] eqn:Hesc; cbn [bind].
      * pose proof (escapeInString_Ok _ _ Hesc) as Hnz1.
        destruct (advance_fields (lexer.advance l)) as (Hi2 & Hp2 & Hs2).
        apply Hstep.
        -- eapply moved_trans; [apply moved_advance; exact Hnz |].
           apply moved_advance; exact Hnz1.
        -- rewrite Hp2, Hp. lia.
        -- intros H. specialize (Hs2 H). rewrite Hp2, Hi2. lia.
      * split; [discriminate | intros v l' H; discriminate].
      * exfalso. apply (proj1 (escape_not_OutOfFuel (lexer.advance l))). exact Hesc.
    + apply Hstep.
      * apply moved_advance; exact Hnz.
      * rewrite Hp. lia.
      * intros H. specialize (Hs H). rewrite Hp, Hi. lia.
  - split; [discriminate |]. intros v l' H. injection H as <- <-. apply moved_refl.
Qed.

Lemma lookup_keyword_not_sign (value : string) (code : lexer.TokenType) :
  lexer.lookup_keyword lexer.reverseKeywords value = Some code ->
  code <> lexer.PLUS /\ code <> lexer.MINUS.
Proof.
  unfold lexer.reverseKeywords. cbn [lexer.lookup_keyword].
  repeat (destruct (String.eqb _ value); [intros H; injection H as <-; split; discriminate |]).
  discriminate.
Qed.

Lemma loop_fuel_enough (l : lexer.Lexer) :
  (String.length (lexer.input l) - lexer.pos l < lexer.loop_fuel l)%nat.
Proof. unfold lexer.loop_fuel. lia. Qed.

Lemma slice_not_OutOfFuel (s : string) (lo hi : nat) : lexer.slice s lo hi <> OutOfFuel.
Proof. unfold lexer.slice. destruct (_ && _); discriminate. Qed.

Lemma wordchar_0 : (fun c => unicode.IsLetter c || unicode.IsDigit c) 0 = false.
Proof. reflexivity. Qed.

(** One token read with the lexer on a character that is not a space:
    the call finishes, and a token returned was reached by advancing
    inside the input, by at least one character for a sign. *)
Lemma NextToken_loop_progress (l : lexer.Lexer) :
  unicode.IsSpace (lexer.currentChar l) = false ->
  lexer.NextToken_loop 0 l <> OutOfFuel
  /\ (forall (t : lexer.Token) (l' : lexer.Lexer),
        lexer.NextToken_loop 0 l = Ok (t, l') ->
        moved l l'
        /\ (parser.isPlusOrMinus t = true -> (lexer.pos l < lexer.pos l')%nat)).
Proof.
  intros Hsp. cbn [lexer.NextToken_loop]. rewrite Hsp.
  destruct (Z.eqb_spec (lexer.currentChar l) 0) as [Hz | Hnz]; cbn [negb].
  { split; [discriminate |]. intros t l' H. injection H as <- <-.
    split; [apply moved_refl | discriminate]. }
  pose proof (moved_advance l Hnz) as Hm1.
  destruct (advance_fields l) as (Hi1 & Hp1 & Hs1).
  destruct (lexer.currentChar l =? 39).
  { (* readChar *)
    unfold lexer.readChar.
    destruct (Z.eqb_spec (lexer.currentChar (lexer.advance l)) 92) as [Hb | Hb].
    - destruct (lexer.escapeInChar (lexer.advance (lexer.advance l))) as [v | p |] eqn:Hesc;
        cbn [bind].
      + pose proof (escapeInChar_Ok _ _ Hesc) as Hnz2.
        assert (Hm2 : moved (lexer.advance l) (lexer.advance (lexer.advance l)))
          by (apply moved_advance; lia).
        pose proof (moved_advance _ Hnz2) as Hm3.
        destruct (Z.eqb_spec (lexer.currentChar (lexer.advance (lexer.advance (lexer.advance l)))) 39)
          as [Hq | Hq]; cbn [negb]; [| split; [discriminate | intros t l' H; discriminate]].
        split; [discriminate |]. intros t l' H. injection H as <- <-.
        split; [| discriminate].
        eapply moved_trans; [exact Hm1 |]. eapply moved_trans; [exact Hm2 |].
        eapply moved_trans; [exact Hm3 |]. apply moved_advance. lia.
      + split; [discriminate | intros t l' H; discriminate].
      + exfalso. apply (proj2 (escape_not_OutOfFuel _)) in Hesc. exact Hesc.
    - cbn [bind].
      destruct (Z.eqb_spec (lexer.currentChar (lexer.advance (lexer.advance l))) 39)
        as [Hq | Hq]; cbn [negb]; [| split; [discriminate | intros t l' H; discriminate]].
      split; [discriminate |]. intros t l' H. injection H as <- <-.
      split; [| discriminate].
      destruct (moved_advance_then (lexer.advance l)) as [Hm2 Hin2]; [lia |].
      eapply moved_trans; [exact Hm1 |]. eapply moved_trans; [exact Hm2 |].
      apply moved_advance. lia. }
  destruct (lexer.currentChar l =? 34).
  { (* readString *)
    unfold lexer.readString.
    destruct (readString_loop_terminates (lexer.loop_fuel (lexer.advance l)) (lexer.advance l) ""
                (loop_fuel_enough _)) as [Hne Hmv].
    destruct (lexer.readString_loop _ _ _) as [[v l2] | p |] eqn:Hloop; cbn [bind].
    - specialize (Hmv v l2 eq_refl).
      destruct (Z.eqb_spec (lexer.currentChar l2) 34) as [Hq | Hq]; cbn [negb];
        [| split; [discriminate | intros t l' H; discriminate]].
      split; [discriminate |]. intros t l' H. injection H as <- <-.
      split; [| discriminate].
      eapply moved_trans; [exact Hm1 |]. eapply moved_trans; [exact Hmv |].
      apply moved_advance. lia.
    - split; [discriminate | intros t l' H; discriminate].
    - congruence. }
  destruct (unicode.IsLetter (lexer.currentChar l)).
  { (* readIdentifier *)
    unfold lexer.readIdentifier.
    destruct (advance_while_terminates _ (lexer.loop_fuel l) wordchar_0 l (loop_fuel_enough l))
      as (l1 & Hrun & _ & Hmv).
    rewrite Hrun. cbn [bind].
    destruct (lexer.slice _ _ _) as [value | p |] eqn:Hsl; cbn [bind].
    - split; [discriminate |]. intros t l' H.
      destruct (lexer.lookup_keyword lexer.reverseKeywords value) as [code |] eqn:Hk;
        injection H as <- <-; (split; [exact Hmv |]);
        unfold parser.isPlusOrMinus; cbn [lexer.Type_].
      + destruct (lookup_keyword_not_sign _ _ Hk) as [H1 H2].
        destruct code; try discriminate; congruence.
      + discriminate.
    - split; [discriminate | intros t l' H; discriminate].
    - exfalso. exact (slice_not_OutOfFuel _ _ _ Hsl). }
  destruct (unicode.IsDigit (lexer.currentChar l)).
  { (* readNumber *)
    unfold lexer.readNumber.
    destruct (advance_while_terminates unicode.IsDigit (lexer.loop_fuel l) eq_refl l
                (loop_fuel_enough l)) as (l1 & Hrun & _ & Hmv).
    rewrite Hrun. cbn [bind].
    destruct (lexer.slice _ _ _) as [value | p |] eqn:Hsl; cbn [bind].
    - split; [discriminate |]. intros t l' H. injection H as <- <-.
      split; [exact Hmv | discriminate].
    - split; [discriminate | intros t l' H; discriminate].
    - exfalso. exact (slice_not_OutOfFuel _ _ _ Hsl). }
  (* operators and punctuation *)
  assert (Hm2 : lexer.currentChar (lexer.advance l) = 61 ->
                moved l (lexer.advance (lexer.advance l))
                /\ (lexer.pos l < lexer.pos (lexer.advance (lexer.advance l)))%nat).
  { intros H61. split.
    - eapply moved_trans; [exact Hm1 | apply moved_advance; lia].
    - destruct (advance_fields (lexer.advance l)) as (_ & Hp2 & _). lia. }
  assert (Hp1' : (lexer.pos l < lexer.pos (lexer.advance l))%nat) by lia.
  unfold lexer.operatorToken.
  repeat match goal with
         | |- context [if lexer.currentChar l =? ?k then _ else _] =>
             destruct (lexer.currentChar l =? k)
         end;
    try (destruct (Z.eqb_spec (lexer.currentChar (lexer.advance l)) 61) as [H61 | H61]);
    (split; [discriminate |]); intros t l' H; try discriminate H;
    injection H as <- <-; try (destruct (Hm2 H61)); auto.
Qed.

Lemma NextToken_progress (l : lexer.Lexer) :
  lexer.NextToken l <> OutOfFuel
  /\ (forall (t : lexer.Token) (l' : lexer.Lexer),
        lexer.NextToken l = Ok (t, l') ->
        moved l l'
        /\ (parser.isPlusOrMinus t = true -> (lexer.pos l < lexer.pos l')%nat)).
Proof.
  destruct (unicode.IsSpace (lexer.currentChar l)) eqn:Hsp.
  - unfold lexer.NextToken. cbn [lexer.NextToken_loop]. rewrite Hsp.
    replace (negb (lexer.currentChar l =? 0)) with true
      by (symmetry; apply negb_true_iff, Z.eqb_neq; intros E; rewrite E in Hsp; discriminate).
    unfold lexer.skipWhitespace.
    destruct (advance_while_terminates unicode.IsSpace (lexer.loop_fuel l) eq_refl l
                (loop_fuel_enough l)) as (l1 & Hrun & Hstop & Hmv).
    rewrite Hrun. cbn [bind].
    destruct (NextToken_loop_progress l1 Hstop) as [Hne Hprog].
    split; [exact Hne |]. intros t l' H. destruct (Hprog t l' H) as [Hmv' Hlt].
    split; [eapply moved_trans; eauto |].
    intros Hs. specialize (Hlt Hs). destruct Hmv as (_ & Hle & _). lia.
  - unfold lexer.NextToken. rewrite NextToken_loop_nonspace by exact Hsp.
    apply NextToken_loop_progress. exact Hsp.
Qed.

Lemma nextToken_progress (p : parser.Parser) :
  parser.nextToken p <> OutOfFuel
  /\ (forall p' : parser.Parser,
        parser.nextToken p = Ok p' ->
        moved (parser.l p) (parser.l p')
        /\ (parser.isPlusOrMinus (parser.peekToken p') = true ->
            (lexer.pos (parser.l p) < lexer.pos (parser.l p'))%nat)).
Proof.
  unfold parser.nextToken. destruct (NextToken_progress (parser.l p)) as [Hne Hprog].
  destruct (lexer.NextToken (parser.l p)) as [[t l'] | e |]; cbn [bind].
  - split; [discriminate |]. intros p' H. injection H as <-. cbn [parser.l parser.peekToken].
    apply Hprog. reflexivity.
  - split; [discriminate | intros p' H; discriminate].
  - congruence.
Qed.

Lemma parseExpression_loop_terminates (fuel : nat) :
  forall (p : parser.Parser) (lhs : ast.Node),
    inside (parser.l p) ->
    (String.length (lexer.input (parser.l p)) - lexer.pos (parser.l p) < fuel)%nat ->
    parser.parseExpression_loop fuel p lhs <> OutOfFuel.
Proof.
  induction fuel as [| fuel IH]; intros p lhs Hin Hf; [lia |].
  cbn [parser.parseExpression_loop].
  destruct (parser.isPlusOrMinus (parser.peekToken p)); [| discriminate].
  destruct (nextToken_progress p) as [Hne1 Hprog1].
  destruct (parser.nextToken p) as [p1 | e |]; cbn [bind]; [| discriminate | congruence].
  destruct (Hprog1 p1 eq_refl) as [Hmv1 _].
  unfold parser.parseInfixExpression.
  destruct (nextToken_progress p1) as [Hne2 Hprog2].
  destruct (parser.nextToken p1) as [p2 | e |]; cbn [bind]; [| discriminate | congruence].
  destruct (Hprog2 p2 eq_refl) as [Hmv2 Hlt2].
  destruct (parseIntegerLiteral_spec p2) as (leaf & Hlit & _). rewrite Hlit. cbn [bind].
  match goal with
  | |- parser.parseExpression_loop fuel ?q ?lhs' <> _ =>
      destruct (parser.isPlusOrMinus (parser.peekToken q)) eqn:Hpeek;
      [apply IH | destruct fuel; cbn [parser.parseExpression_loop]; rewrite Hpeek; discriminate]
  end; cbn [parser.l parser.peekToken] in *.
  - destruct Hmv1 as (_ & _ & Hin1). destruct Hmv2 as (_ & _ & Hin2). auto.
  - specialize (Hlt2 Hpeek).
    destruct Hmv1 as (Hi1 & Hp1 & Hin1). destruct Hmv2 as (Hi2 & Hp2 & Hin2).
    destruct (Hin2 (Hin1 Hin)) as [Hle _].
    rewrite Hi2, Hi1 in *. lia.
Qed.

(** X14: the pipeline terminates.  Every loop of the lexer advances in
    the input, every iteration of the parser's loop reads at least one
    character and the VM moves its instruction pointer forward: on every
    lexer state [NextToken] returns a token or panics, on every bytecode
    [Run] returns or panics, and so does the whole pipeline on every
    source text -- the bounds of the loops are never exhausted. *)
Theorem X14_pipeline_terminates :
  (forall l : lexer.Lexer, lexer.NextToken l <> OutOfFuel)
  /\ (forall bc : compiler.Bytecode, vm.Run (vm.New bc) <> OutOfFuel)
  /\ (forall data : string, main.run data <> OutOfFuel).
Proof.
  assert (HRun : forall bc : compiler.Bytecode, vm.Run (vm.New bc) <> OutOfFuel).
  { intros bc. apply Run_loop_total; [apply vm_ok_New |]. cbn [vm.New vm.bytecode]. lia. }
  split; [intros l; apply NextToken_progress | split; [exact HRun |]].
  intros data. unfold main.run, parser.New.
  set (p00 := {| parser.l := lexer.New data; parser.errors := [];
                 parser.curToken := lexer.zeroToken; parser.peekToken := lexer.zeroToken |}).
  destruct (nextToken_progress p00) as [Hne1 Hprog1].
  destruct (parser.nextToken p00) as [p1 | e |]; cbn [bind]; [| discriminate | congruence].
  destruct (Hprog1 p1 eq_refl) as [(_ & _ & Hin1) _].
  destruct (nextToken_progress p1) as [Hne2 Hprog2].
  destruct (parser.nextToken p1) as [p2 | e |]; cbn [bind]; [| discriminate | congruence].
  destruct (Hprog2 p2 eq_refl) as [(_ & _ & Hin2) _].
  assert (Hin : inside (parser.l p2)) by (apply Hin2, Hin1, inside_New).
  unfold parser.ParseProgram, parser.parseExpression.
  destruct (parseIntegerLiteral_spec p2) as (leaf & Hlit & _). rewrite Hlit.
  match goal with
  | |- context [parser.parseExpression_loop ?f ?q ?lhs] =>
      pose proof (parseExpression_loop_terminates f q lhs Hin (loop_fuel_enough _)) as Hloop;
      destruct (parser.parseExpression_loop f q lhs) as [[expression p3] | e |]
  end; cbn [bind]; [| discriminate | congruence].
  destruct (negb _); [discriminate |].
  pose proof (Compile_no_error (ast.Program expression) compiler.New) as Hnone.
  destruct (compiler.Compile compiler.New (ast.Program expression)) as [c err].
  cbn [snd] in Hnone. subst err.
  specialize (HRun (compiler.Bytecode_ c)).
  destruct (vm.Run (vm.New (compiler.Bytecode_ c))) as [[machine [e |]] | e |]; cbn [bind];
    [discriminate | | discriminate | congruence].
  unfold vm.StackTop. destruct (vm.sp machine =? 0); cbn [bind]; [discriminate |].
  pose proof (index_not_OutOfFuel (vm.stack machine) (vm.sp machine - 1)) as Hidx.
  destruct (vm.index (vm.stack machine) (vm.sp machine - 1)); cbn [bind];
    [discriminate | discriminate | congruence].
Qed.

(** ** Trailing tokens *)

Lemma parseExpression_loop_stops (fuel : nat) (p : parser.Parser) (lhs : ast.Node) :
  parser.isPlusOrMinus (parser.peekToken p) = false ->
  parser.parseExpression_loop fuel p lhs = Ok (lhs, p).
Proof.
  intros H. destruct fuel; cbn [parser.parseExpression_loop]; rewrite H; reflexivity.
Qed.

(** X15: the parser stops at the first token that is not [+] or [-],
    without an error and without reading further.  When the token that
    follows the first literal of the text is not a sign, [ParseProgram]
    returns that literal alone and leaves the lexer where [New] left it,
    and the pipeline prints the value of the literal, whatever the rest
    of the text is. *)
Theorem X15_trailing_tokens_are_not_consumed
        (leading first rest : string) (p0 : parser.Parser) :
  spaces leading ->
  canonical first ->
  unicode.IsDigit (head_rune rest) = false ->
  parser.New (lexer.New (leading ++ first ++ rest)) = Ok p0 ->
  parser.isPlusOrMinus (parser.peekToken p0) = false ->
  (exists p' : parser.Parser,
      parser.ParseProgram p0
      = Ok (ast.Program (ast.IntegerLiteral (parser.curToken p0) (decimal first)), p')
      /\ parser.l p' = parser.l p0
      /\ parser.Errors p' = [])
  /\ main.run (leading ++ first ++ rest) = Ok (main.Printed (OInt64 (decimal first))).
Proof.
  intros Hlead Hfirst Hrest HNew Hpeek.
  assert (Hdig : digits first) by (destruct Hfirst as (H1 & H2 & _); split; assumption).
  pose proof (lexer_at_New (leading ++ first ++ rest)) as Hat0.
  destruct (NextToken_number _ _ _ _ _ Hat0 Hlead Hdig Hrest)
    as (t0 & l1 & pre1 & Htok0 & Hty0 & Hv0 & Hat1).
  assert (Hcur : parser.curToken p0 = t0 /\ parser.errors p0 = []).
  { unfold parser.New, parser.nextToken in HNew.
    cbn [parser.l parser.errors parser.curToken parser.peekToken] in HNew.
    rewrite Htok0 in HNew. cbn [bind parser.l parser.errors parser.curToken parser.peekToken] in HNew.
    destruct (lexer.NextToken l1) as [[t1 l2] | e |]; cbn [bind] in HNew; try discriminate.
    injection HNew as <-. auto. }
  destruct Hcur as [Hcur Herr0].
  assert (HParse : exists p', parser.ParseProgram p0
             = Ok (ast.Program (ast.IntegerLiteral (parser.curToken p0) (decimal first)), p')
             /\ parser.l p' = parser.l p0 /\ parser.Errors p' = []).
  { unfold parser.ParseProgram, parser.parseExpression, parser.parseIntegerLiteral.
    rewrite Hcur, Hv0, (ParseInt_canonical first Hfirst).
    rewrite parseExpression_loop_stops by exact Hpeek. cbn [bind].
    eexists. split; [reflexivity | split; [reflexivity | exact Herr0]]. }
  split; [exact HParse |].
  destruct HParse as (p' & HParse & _ & Herr).
  rewrite (run_additive_program _ p0 p' _ HNew HParse Herr); [reflexivity | constructor |].
  cbn [literals length]. lia.
Qed.

Lemma X15_witness :
  main.run ("" ++ "1" ++ " 2 @") = Ok (main.Printed (OInt64 (decimal "1"))).
Proof.
  refine (proj2 (X15_trailing_tokens_are_not_consumed "" "1" " 2 @"
                   {| parser.l := advances 3 (lexer.New "1 2 @");
                      parser.errors := [];
                      parser.curToken := lexer.mkToken lexer.NUMBER "1" 1 1;
                      parser.peekToken := lexer.mkToken lexer.NUMBER "2" 1 3 |} _ _ _ _ _)).
  - reflexivity.
  - split; [discriminate | split; [reflexivity | split; [right; vm_compute; discriminate | vm_compute; reflexivity]]].
  - reflexivity.
  - vm_compute. reflexivity.
  - reflexivity.
Defined.
